(** * Identifier resolution pipeline of ibkr-api

    A shallow embedding of the two resolvers of the repository and of the
    code around them:

    - [IBKRManager.qualify_contracts], the normalisation step of
      [IBKRManager.load_symbols_from_file] and the other methods of
      [IBKRManager] (src/app/ibkr.py);
    - [AppleSupplierParser.search_ticker], [search_ticker_with_progress],
      [find_tickers], [save_results] and [run]
      (src/scripts/apple_supplier/parse_apple_suppliers.py);
    - [main] of src/scripts/apple_supplier/create_ibkr_watchlist.py.

    Python values are modelled as follows.  A [str] is a [string] whose
    characters are code points below 256; the character classes below are
    the ones CPython uses on that range.  A [dict] is a [gmap]; [None] in a
    value position is [None] of an [option].  A call that may raise returns
    a [result].  A [float] is a binary64 number of [SpecFloat].  The world
    outside (the broker session, the search endpoint, the web server of the
    supplier list and the disk) is given by transition functions on an
    abstract state, so that every sequence of answers and failures is
    covered; the session may change the fields of the contracts it is
    passed.  Printing (but for the success rate), the progress bar and the
    pauses between calls are left out. *)

From Stdlib Require Import Ascii ZArith Lia SpecFloat DecimalString.
From Stdlib Require String.
From stdpp Require Import base gmap list strings sorting.

Local Open Scope nat_scope.
#[local] Set Warnings "-clear-no-such-hyp".

(** ** Python results *)

Inductive exn : Type :=
  | NotConnected        (* Exception("Not connected to IBKR TWS") *)
  | ValueError          (* range() arg 3 must not be zero *)
  | KeyError
  | IndexError
  | ZeroDivisionError
  | OSError             (* a file operation that fails *)
  | ServiceError.       (* anything an external call raises *)

Inductive result (A : Type) : Type :=
  | Return (a : A)
  | Raise (e : exn).
Arguments Return {A} a.
Arguments Raise {A} e.

Definition returned {A} (r : result A) : Prop :=
  match r with Return _ => True | Raise _ => False end.

(** ** Python strings, ranges and slices *)

Module Py.

Definition code (c : ascii) : nat := nat_of_ascii c.

Definition between (lo hi n : nat) : bool := (lo <=? n) && (n <=? hi).

(** [str.isspace] on one character. *)
Definition isspace (c : ascii) : bool :=
  let n := code c in
  between 9 13 n || between 28 32 n || (n =? 133) || (n =? 160).

(** [\w] of the [re] module on [str] patterns. *)
Definition isword (c : ascii) : bool :=
  let n := code c in
  between 48 57 n || between 65 90 n || (n =? 95) || between 97 122 n
  || (n =? 170) || (n =? 178) || (n =? 179) || (n =? 181) || (n =? 185)
  || (n =? 186) || between 188 190 n || between 192 214 n
  || between 216 246 n || between 248 255 n.

(** Case folding of the letters [A-Z]; the only letters the patterns and
    constants of the program contain. *)
Definition lower (c : ascii) : ascii :=
  if between 65 90 (code c) then ascii_of_nat (code c + 32) else c.
Definition upper_char (c : ascii) : ascii :=
  if between 97 122 (code c) then ascii_of_nat (code c - 32) else c.

(** [s.upper()].  Characters outside [a-z] are left alone: on the code
    points modelled here [str.upper] sends none of them to an ASCII
    letter of [EQUITY], the one constant the result is compared with. *)
Fixpoint upper (s : string) : string :=
  match s with
  | EmptyString => EmptyString
  | String c r => String (upper_char c) (upper r)
  end.

(** Truth value of a string: [bool(s)]. *)
Definition truthy (s : string) : bool :=
  match s with EmptyString => false | String _ _ => true end.

Definition len (s : string) : nat := String.length s.

Fixpoint lstrip (s : string) : string :=
  match s with
  | EmptyString => EmptyString
  | String c r => if isspace c then lstrip r else s
  end.

Fixpoint rstrip (s : string) : string :=
  match s with
  | EmptyString => EmptyString
  | String c r =>
      match rstrip r with
      | EmptyString => if isspace c then EmptyString else String c EmptyString
      | r' => String c r'
      end
  end.

(** [s.strip()] *)
Definition strip (s : string) : string := rstrip (lstrip s).

(** [s.split()]: the maximal runs of non-space characters. *)
Fixpoint split_go (cur : string) (s : string) : list string :=
  match s with
  | EmptyString => if truthy cur then [cur] else []
  | String c r =>
      if isspace c
      then (if truthy cur then cur :: split_go EmptyString r
            else split_go EmptyString r)
      else split_go (cur ++ String c EmptyString) r
  end.
Definition split (s : string) : list string := split_go EmptyString s.

(** [s.split(".")[0]]: the text before the first dot. *)
Fixpoint before_dot (s : string) : string :=
  match s with
  | EmptyString => EmptyString
  | String c r => if Ascii.eqb c "."%char then EmptyString else String c (before_dot r)
  end.

(** [l[0]] *)
Definition item0 {A} (l : list A) : result A :=
  match l with
  | [] => Raise IndexError
  | x :: _ => Return x
  end.

(** [range(0, stop, step)] for [stop >= 0]. *)
Fixpoint range_from (fuel i stop step : nat) : list nat :=
  match fuel with
  | O => []
  | S fuel' =>
      if i <? stop then i :: range_from fuel' (i + step) stop step else []
  end.

Definition range (stop : nat) (step : Z) : result (list nat) :=
  if (step =? 0)%Z then Raise ValueError
  else if (step <? 0)%Z then Return []
  else Return (range_from stop 0 stop (Z.to_nat step)).

(** [l[i : i + n]] for [n >= 0]. *)
Definition slice {A} (l : list A) (i n : nat) : list A := take n (drop i l).

End Py.

(** ** Python floats *)

Module Float.

(** A [float] is an IEEE 754 binary64 number. *)
Definition prec : Z := 53.
Definition emax : Z := 1024.
Definition float : Type := spec_float.

(** The float of an [int] that is not negative; exact below 2^53. *)
Definition of_nat (n : nat) : float := binary_normalize prec emax (Z.of_nat n) 0 false.

(** [x / y] and [x * y] on floats, rounded to nearest, ties to even. *)
Definition div (x y : float) : float := SFdiv prec emax x y.
Definition mul (x y : float) : float := SFmul prec emax x y.

(** [str(n)] for a natural number. *)
Definition decimal (n : N) : string := NilZero.string_of_uint (N.to_uint n).

(** The number [m * 2^e] in tenths, rounded to the nearest integer, ties
    to even: the digits [format(x, ".1f")] prints. *)
Definition tenths (m : positive) (e : Z) : N :=
  let scaled := (Z.pos m * 10)%Z in
  match e with
  | Zneg k =>
      let unit := (2 ^ Z.pos k)%Z in
      let q := (scaled / unit)%Z in
      let r := (scaled mod unit)%Z in
      match (2 * r ?= unit)%Z with
      | Lt => Z.to_N q
      | Gt => Z.to_N (q + 1)
      | Eq => if Z.even q then Z.to_N q else Z.to_N (q + 1)
      end
  | _ => Z.to_N (scaled * 2 ^ e)
  end.

(** [format(x, ".1f")], as in [f"{x:.1f}"]. *)
Definition format_1f (x : float) : string :=
  match x with
  | S754_zero s => if s then "-0.0" else "0.0"
  | S754_infinity s => if s then "-inf" else "inf"
  | S754_nan => "nan"
  | S754_finite s m e =>
      let n := tenths m e in
      ((if s then "-" else "") ++ decimal (n / 10) ++ "." ++ decimal (n mod 10))%string
  end.

End Float.

(** ** The disk *)

Module Os.

(** The directory a program writes to, as its file operations see it.
    Each operation moves the disk to a new state; [false] stands for an
    operation that raised.  [Document] is what the program writes. *)
Record Disk (Files Document : Type) : Type := mkDisk {
  disk_mkdir : Files → Files * bool;               (* [data_dir.mkdir(exist_ok=True)] *)
  disk_write : Files → Document → Files * bool     (* [open(path, "w")] and the writes, or [to_csv] *)
}.
Arguments mkDisk {Files Document} _ _.
Arguments disk_mkdir {Files Document} _.
Arguments disk_write {Files Document} _.

Section disk.
Context {Files Document : Type}.
Variable disk : Disk Files Document.

(** Files written one after the other; the first failure ends it. *)
Fixpoint write_files (documents : list Document) (files : Files)
    : Files * result unit :=
  match documents with
  | [] => (files, Return tt)
  | document :: rest =>
      let '(files', ok) := disk_write disk files document in
      if ok then write_files rest files' else (files', Raise OSError)
  end.

(** [mkdir] and then the files. *)
Definition mkdir_and_write (documents : list Document) (files : Files)
    : Files * result unit :=
  let '(files', ok) := disk_mkdir disk files in
  if ok then write_files documents files' else (files', Raise OSError).

End disk.
End Os.

(** ** src/app/ibkr.py *)

Module Ibkr.

(** The fields of an [ib_insync] contract that the program reads. *)
Record Contract : Type := mkContract {
  symbol : string;
  secType : string;
  exchange : string;
  currency : string;
  conId : Z;
  primaryExchange : string
}.

Global Instance Contract_eq_dec : EqDecision Contract.
Proof. solve_decision. Defined.

(** [Stock(symbol, exchange, currency)] *)
Definition Stock (symbol exchange currency : string) : Contract :=
  mkContract symbol "STK" exchange currency 0 "".

(** [contract.symbol = v] and the like, on a generic [Contract()]. *)
Definition set_symbol (c : Contract) (v : string) : Contract :=
  mkContract v (secType c) (exchange c) (currency c) (conId c) (primaryExchange c).
Definition set_secType (c : Contract) (v : string) : Contract :=
  mkContract (symbol c) v (exchange c) (currency c) (conId c) (primaryExchange c).
Definition set_exchange (c : Contract) (v : string) : Contract :=
  mkContract (symbol c) (secType c) v (currency c) (conId c) (primaryExchange c).
Definition set_currency (c : Contract) (v : string) : Contract :=
  mkContract (symbol c) (secType c) (exchange c) v (conId c) (primaryExchange c).

(** [IBKRManager.create_contract] *)
Definition create_contract (symbol sec_type exchange currency : string) : Contract :=
  if decide (sec_type = "STK") then Stock symbol exchange currency
  else
    let contract := mkContract "" "" "" "" 0 "" in
    let contract := set_symbol contract symbol in
    let contract := set_secType contract sec_type in
    let contract := set_exchange contract exchange in
    let contract := set_currency contract currency in
    contract.

(** The test of lines 134-138: the composite key of a returned contract
    against the request, read at the time of the test. *)
Definition key_matches (original_contract q_contract : Contract) : bool :=
  bool_decide (symbol q_contract = symbol original_contract)
  && bool_decide (currency q_contract = currency original_contract)
  && bool_decide (secType q_contract = secType original_contract).

(** Lines 132-140: [qualified = None], then the scan that stops at the
    first contract passing the test. *)
Fixpoint scan (original_contract : Contract) (qualified_batch : list Contract)
    : option Contract :=
  match qualified_batch with
  | [] => None
  | q_contract :: rest =>
      if key_matches original_contract q_contract then Some q_contract
      else scan original_contract rest
  end.

(** Lines 110-113: the contracts, and the dictionary from position to
    symbol. *)
Fixpoint create_contracts (i : nat) (symbols : list string)
    (sec_type exchange currency : string)
    (contracts : list Contract) (symbol_map : gmap nat string)
    : list Contract * gmap nat string :=
  match symbols with
  | [] => (contracts, symbol_map)
  | symbol :: rest =>
      let contract := create_contract symbol sec_type exchange currency in
      create_contracts (S i) rest sec_type exchange currency
        (contracts ++ [contract]) (<[i := symbol]> symbol_map)
  end.

(** Lines 127-149, the loop over the batch inside [try]; [j] counts the
    position in the batch.  A missing key of [symbol_map] raises and
    leaves the dictionary as it is at that point. *)
Fixpoint process_results (symbol_map : gmap nat string) (i j : nat)
    (batch qualified_batch : list Contract)
    (qualified_contracts : gmap string (option Contract))
    : gmap string (option Contract) * option exn :=
  match batch with
  | [] => (qualified_contracts, None)
  | original_contract :: rest =>
      let contract_index := i + j in
      match symbol_map !! contract_index with
      | None => (qualified_contracts, Some KeyError)
      | Some symbol =>
          let qualified := scan original_contract qualified_batch in
          process_results symbol_map i (S j) rest qualified_batch
            (<[symbol := qualified]> qualified_contracts)
      end
  end.

(** Lines 157-161, the handler: every symbol of the batch is set to
    [None].  The handler is outside the [try], so a missing key here
    leaves the function. *)
Fixpoint mark_failed (symbol_map : gmap nat string) (i j : nat)
    (batch : list Contract)
    (qualified_contracts : gmap string (option Contract))
    : result (gmap string (option Contract)) :=
  match batch with
  | [] => Return qualified_contracts
  | _ :: rest =>
      let contract_index := i + j in
      match symbol_map !! contract_index with
      | None => Raise KeyError
      | Some symbol =>
          mark_failed symbol_map i (S j) rest
            (<[symbol := None]> qualified_contracts)
      end
  end.

(** What one call of [self.ib.qualifyContracts] on the contracts of
    [batch] does to its arguments and hands back.  The requests are passed
    as objects, so the call can change their fields ([ib_insync] fills a
    request it qualifies with the details it received): [updated j c] is
    the request at position [j] of the batch, sent as [c], as the call
    leaves it.  [returned_contracts] is the list the call returns, [None]
    when it raises. *)
Record Reply : Type := mkReply {
  updated : nat → Contract → Contract;
  returned_contracts : option (list Contract)
}.

(** A call that leaves its arguments as they are. *)
Definition untouched : nat → Contract → Contract := λ _ c, c.

Section session.
(** The session [self.ib]: one call of [qualifyContracts] moves it to a
    new state, may update the requests it is passed, and either returns
    contracts or raises.  A call changes no object but the requests it
    is passed. *)
Context {Session : Type}.
Variable qualifyContracts : Session → list Contract → Session * Reply.

(** Lines 122-161: one pass of the loop body.  After line 124 [batch]
    holds the requests as the call left them; the loops of lines 127 and
    157 run over these. *)
Definition qualify_batch (symbol_map : gmap nat string) (i : nat)
    (batch : list Contract) (ib : Session)
    (qualified_contracts : gmap string (option Contract))
    : Session * result (gmap string (option Contract)) :=
  let '(ib', reply) := qualifyContracts ib batch in
  let batch := imap (updated reply) batch in
  match returned_contracts reply with
  | Some qualified_batch =>
      match process_results symbol_map i 0 batch qualified_batch
              qualified_contracts with
      | (qualified_contracts', None) => (ib', Return qualified_contracts')
      | (qualified_contracts', Some _) =>
          (ib', mark_failed symbol_map i 0 batch qualified_contracts')
      end
  | None => (ib', mark_failed symbol_map i 0 batch qualified_contracts)
  end.

(** Lines 119-161: the loop over the window starts.  The windows of a
    [range] do not overlap, so every request reaches the session once,
    as [create_contract] made it. *)
Fixpoint qualify_loop (symbol_map : gmap nat string)
    (contracts : list Contract) (batch_size : nat) (starts : list nat)
    (ib : Session) (qualified_contracts : gmap string (option Contract))
    : Session * result (gmap string (option Contract)) :=
  match starts with
  | [] => (ib, Return qualified_contracts)
  | i :: rest =>
      let batch := Py.slice contracts i batch_size in
      match qualify_batch symbol_map i batch ib qualified_contracts with
      | (ib', Return qualified_contracts') =>
          qualify_loop symbol_map contracts batch_size rest ib'
            qualified_contracts'
      | (ib', Raise e) => (ib', Raise e)
      end
  end.

(** [IBKRManager.qualify_contracts]; [connected] and [ib] are the
    fields of [self]. *)
Definition qualify_contracts (connected : bool) (ib : Session)
    (symbols : list string) (sec_type exchange currency : string)
    (batch_size : Z)
    : Session * result (gmap string (option Contract)) :=
  if negb connected then (ib, Raise NotConnected)
  else
    let '(contracts, symbol_map) :=
      create_contracts 0 symbols sec_type exchange currency [] ∅ in
    match Py.range (length contracts) batch_size with
    | Raise e => (ib, Raise e)
    | Return starts =>
        qualify_loop symbol_map contracts (Z.to_nat batch_size) starts ib ∅
    end.

End session.

(** The windows the loop cuts, in the order it sends them. *)
Definition batch_windows {A} (requests : list A) (batch_size : Z)
    : result (list (list A)) :=
  match Py.range (length requests) batch_size with
  | Raise e => Raise e
  | Return starts =>
      Return ((λ i, Py.slice requests i (Z.to_nat batch_size)) <$> starts)
  end.

(** The filter of line 438: [s and s.strip()]. *)
Definition keep (s : string) : bool := Py.truthy s && Py.truthy (Py.strip s).

Definition sorted (s : gset string) : list string :=
  merge_sort String.le (elements s).

(** Line 438: [sorted(list(set([s for s in symbols if s and s.strip()])))] *)
Definition unique_sorted (symbols : list string) : list string :=
  sorted (list_to_set (filter (λ s, keep s = true) symbols)).

(** Line 439: [[s.split(".")[0] for s in symbols]] *)
Definition strip_class (symbols : list string) : list string :=
  (λ s, Py.before_dot s) <$> symbols.

(** [IBKRManager.load_symbols_from_file] from line 437 on; [symbols] is
    the list the lines before it read from the file. *)
Definition load_symbols_from_file (symbols : list string) : list string :=
  let symbols := unique_sorted symbols in
  let symbols := strip_class symbols in
  symbols.

End Ibkr.

(** ** src/scripts/apple_supplier/parse_apple_suppliers.py *)

Module Suppliers.

(** *** The substitution of lines 200-205

    [re.sub(r"\b(Corp|...|Semiconductor)\b", "", company_name,
    flags=re.IGNORECASE)]: the alternatives are tried in the order they
    are written, at the leftmost position where one of them fits between
    two word boundaries. *)

Definition alternatives : list string :=
  ["Corp"; "Corporation"; "Inc"; "Incorporated"; "Ltd"; "Limited"; "Co.";
   "Company"; "LLC"; "Group"; "Holdings"; "Technologies"; "Tech";
   "Systems"; "Solutions"; "Industries"; "Manufacturing"; "Electronics";
   "Semiconductor"].

Definition head (s : string) : option ascii :=
  match s with EmptyString => None | String c _ => Some c end.

Definition word_at (c : option ascii) : bool :=
  match c with Some c => Py.isword c | None => false end.

(** [\b] between the character before a position and the one at it. *)
Definition boundary (prev next : option ascii) : bool :=
  xorb (word_at prev) (word_at next).

(** A literal of the pattern against the head of the text, letters
    compared without case; gives the last character consumed and the
    rest of the text. *)
Fixpoint match_literal (literal : string) (last : option ascii) (s : string)
    : option (option ascii * string) :=
  match literal with
  | EmptyString => Some (last, s)
  | String p literal' =>
      match s with
      | EmptyString => None
      | String c r =>
          if Ascii.eqb (Py.lower p) (Py.lower c)
          then match_literal literal' (Some c) r
          else None
      end
  end.

(** The group followed by the closing [\b]: the length of the first
    alternative that fits. *)
Fixpoint match_group (alts : list string) (s : string) : option nat :=
  match alts with
  | [] => None
  | literal :: rest =>
      match match_literal literal None s with
      | Some (last, r) =>
          if boundary last (head r) then Some (Py.len literal)
          else match_group rest s
      | None => match_group rest s
      end
  end.

Definition match_at (prev : option ascii) (s : string) : option nat :=
  if boundary prev (head s) then match_group alternatives s else None.

(** The scan of [re.sub] with the empty replacement; [skip] counts the
    characters of the current match still to drop. *)
Fixpoint sub_go (prev : option ascii) (skip : nat) (s : string) : string :=
  match s with
  | EmptyString => EmptyString
  | String c r =>
      match skip with
      | S k => sub_go (Some c) k r
      | O =>
          match match_at prev s with
          | Some (S k) => sub_go (Some c) k r
          | _ => String c (sub_go (Some c) 0 r)
          end
      end
  end.

Definition remove_suffixes (company_name : string) : string :=
  sub_go None 0 company_name.

(** *** The search service *)

(** One entry of [results["quotes"]]: the two keys the program reads,
    with string values; a key that is absent is [None]. *)
Record Quote : Type := mkQuote {
  quote_symbol : option string;
  quoteType : option string
}.

(** What [search(term)] does: it raises, or it returns [results];
    [quotes] is [None] when [results] is empty or has no ["quotes"]. *)
Inductive Response : Type :=
  | SearchRaises
  | SearchReturns (quotes : option (list Quote)).

(** Lines 225-231: the symbol of the quote if it is taken. *)
Definition accept (quote : Quote) : option string :=
  match quote_symbol quote with
  | Some symbol =>
      if Py.truthy symbol then
        if decide (Py.upper (default "" (quoteType quote)) = "EQUITY")
        then Some symbol
        else match quoteType quote with
             | None => Some symbol
             | Some _ => None
             end
      else None
  | None => None
  end.

(** Lines 222-231 on the value [search] returned. *)
Definition first_match (quotes : option (list Quote)) : option string :=
  match quotes with
  | Some (quote :: _) => accept quote
  | _ => None
  end.

(** Lines 194-212: the list [search_terms]. *)
Definition build_search_terms (company_name : string) : result (list string) :=
  let search_terms := [] in
  let search_terms := search_terms ++ [company_name] in
  let clean_name := Py.strip (remove_suffixes company_name) in
  let search_terms :=
    if Py.truthy clean_name && bool_decide (clean_name ≠ company_name)
    then search_terms ++ [clean_name] else search_terms in
  match Py.item0 (Py.split company_name) with
  | Raise e => Raise e
  | Return first_word =>
      let search_terms :=
        if 2 <? Py.len first_word then search_terms ++ [first_word]
        else search_terms in
      Return search_terms
  end.

Section search.
(** The search endpoint as one task sees it; [queried] records the
    terms [search] was called with. *)
Context {World : Type}.
Variable search : World → string → World * Response.

(** Lines 214-237: the loop over [search_terms]. *)
Fixpoint query_terms (search_terms : list string) (w : World)
    (queried : list string) : World * list string * option string :=
  match search_terms with
  | [] => (w, queried, None)
  | term :: rest =>
      if Py.len term <? 2 then query_terms rest w queried
      else
        let '(w', response) := search w term in
        let queried' := queried ++ [term] in
        match response with
        | SearchRaises => query_terms rest w' queried'
        | SearchReturns quotes =>
            match first_match quotes with
            | Some symbol => (w', queried', Some symbol)
            | None => query_terms rest w' queried'
            end
        end
  end.

(** [AppleSupplierParser.search_ticker] *)
Definition search_ticker (w : World) (company_name : string)
    : World * list string * result (option string) :=
  match build_search_terms company_name with
  | Raise _ => (w, [], Return None)
  | Return search_terms =>
      let '(w', queried, ticker) := query_terms search_terms w [] in
      (w', queried, Return ticker)
  end.

(** [AppleSupplierParser.search_ticker_with_progress] *)
Definition search_ticker_with_progress (w : World) (supplier_info : nat * string)
    : World * list string * result (string * option string) :=
  let '(index, supplier) := supplier_info in
  match search_ticker w supplier with
  | (w', queried, Return ticker) => (w', queried, Return (supplier, ticker))
  | (w', queried, Raise e) => (w', queried, Raise e)
  end.
End search.

(** *** The pool *)

(** A finished future: the terms its task queried and what
    [future.result()] does. *)
Record Future : Type := mkFuture {
  queried : list string;
  outcome : result (string * option string)
}.

(** The task of one worker, against the endpoint as that worker sees it. *)
Definition run_task {World : Type}
    (search : nat → World → string → World * Response) (w0 : nat → World)
    (item : nat * string) : Future :=
  match search_ticker_with_progress (search item.1) (w0 item.1) item with
  | (_, queried, outcome) => mkFuture queried outcome
  end.

(** The local variables of the loop of lines 279-305. *)
Record Progress : Type := mkProgress {
  tickers : gmap string (option string);
  completed_count : nat;
  found_count : nat
}.

(** Lines 280-305: the body of the loop, for one completed future. *)
Definition complete (future_to_supplier : list (Future * string))
    (st : Progress) (k : nat) : Progress :=
  match future_to_supplier !! k with
  | None => st
  | Some (future, own) =>
      match outcome future with
      | Return (supplier, ticker) =>
          if Py.truthy (default "" ticker)
          then mkProgress (<[supplier := ticker]> (tickers st))
                 (S (completed_count st)) (S (found_count st))
          else mkProgress (<[supplier := None]> (tickers st))
                 (S (completed_count st)) (found_count st)
      | Raise _ =>
          let supplier := own in
          mkProgress (<[supplier := None]> (tickers st))
            (S (completed_count st)) (found_count st)
      end
  end.

(** [list(enumerate(l))] *)
Definition enumerate {A} (l : list A) : list (nat * A) := imap (λ i x, (i, x)) l.

(** Lines 257-305.  [submit] is what a submitted task does in its
    thread, [as_completed] the order in which the futures finish; futures
    are named by their position in [supplier_items].  The dictionary and
    the counters are written by the draining loop only, so the number of
    workers does not enter. *)
Definition find_tickers_loop (suppliers : list string)
    (submit : nat * string → Future) (as_completed : list nat) : Progress :=
  let supplier_items := enumerate suppliers in
  let future_to_supplier := (λ item, (submit item, item.2)) <$> supplier_items in
  foldl (complete future_to_supplier) (mkProgress ∅ 0 0) as_completed.

(** [AppleSupplierParser.find_tickers] *)
Definition find_tickers (suppliers : list string)
    (submit : nat * string → Future) (as_completed : list nat)
    : gmap string (option string) :=
  tickers (find_tickers_loop suppliers submit as_completed).

(** *** The run *)

(** [list(dict.fromkeys(suppliers))]: the first occurrence of each name,
    in order. *)
Fixpoint fromkeys (seen : gset string) (l : list string) : list string :=
  match l with
  | [] => []
  | x :: rest =>
      if decide (x ∈ seen) then fromkeys seen rest
      else x :: fromkeys ({[x]} ∪ seen) rest
  end.

(** Lines 104-112 of [download_and_parse_pdf]; [extracted] is what the
    download and the table scan produce, or the exception they raise. *)
Definition download_and_parse_pdf (extracted : result (list string)) : list string :=
  match extracted with
  | Return suppliers => fromkeys ∅ suppliers
  | Raise _ => []
  end.

(** [len([t for t in tickers.values() if t is not None])] *)
Definition count_found (tickers : gmap string (option string)) : nat :=
  size (filter (λ kv, is_Some kv.2) tickers).

Definition count_missing (tickers : gmap string (option string)) : nat :=
  size (filter (λ kv, kv.2 = None) tickers).

(** [found_tickers / len(self.suppliers) * 100]: a true division of two
    integers and a product of floats. *)
Definition success_rate (found_tickers total : nat) : result Float.float :=
  if total =? 0 then Raise ZeroDivisionError
  else Return (Float.mul (Float.div (Float.of_nat found_tickers) (Float.of_nat total))
                 (Float.of_nat 100)).

(** The files [save_results] writes, each with the data it is written
    from (the order of the entries of [self.tickers] is not modelled). *)
Inductive Saved : Type :=
  | apple_suppliers_txt (suppliers : list string)
  | apple_supplier_tickers_json (tickers : gmap string (option string))
  | apple_supplier_tickers_csv (tickers : gmap string (option string))
  | ticker_list_txt (tickers : gmap string (option string))
  | found_tickers_only_json (found_tickers : gmap string (option string)).

(** What a run leaves behind: its return value, [self.suppliers] and
    [self.tickers], the rate in the summary it printed if it got that
    far, and the terms sent to the search endpoint. *)
Record Run : Type := mkRun {
  returned_value : bool;
  self_suppliers : list string;
  self_tickers : gmap string (option string);
  printed_rate : option string;
  search_calls : list string
}.

Section run.
(** The web server of the supplier list and the disk.  [get_and_scan] is
    lines 36-102: the request for the PDF and the scan of its tables; it
    gives the names as they were appended to [suppliers], or the
    exception raised. *)
Context {Web Files : Type}.
Variable get_and_scan : Web → Web * result (list string).
Variable disk : Os.Disk Files Saved.

(** [AppleSupplierParser.save_results] *)
Definition save_results (suppliers : list string)
    (tickers : gmap string (option string)) (files : Files) : Files * result unit :=
  let found_tickers := filter (λ kv, is_Some kv.2) tickers in
  Os.mkdir_and_write disk
    [apple_suppliers_txt suppliers;
     apple_supplier_tickers_json tickers;
     apple_supplier_tickers_csv tickers;
     ticker_list_txt tickers;
     found_tickers_only_json found_tickers]
    files.

(** [AppleSupplierParser.run] *)
Definition run (web : Web) (submit : nat * string → Future) (as_completed : list nat)
    (files : Files) : (Web * Files) * result Run :=
  let '(web, extracted) := get_and_scan web in
  let suppliers := download_and_parse_pdf extracted in
  if bool_decide (suppliers = []) then
    ((web, files), Return (mkRun false suppliers ∅ None []))
  else
    let tickers := find_tickers suppliers submit as_completed in
    let calls := mjoin ((λ item, queried (submit item)) <$> enumerate suppliers) in
    match save_results suppliers tickers files with
    | (files, Raise e) => ((web, files), Raise e)
    | (files, Return _) =>
        let found_tickers := count_found tickers in
        match success_rate found_tickers (length suppliers) with
        | Raise e => ((web, files), Raise e)
        | Return rate =>
            ((web, files),
             Return (mkRun true suppliers tickers (Some (Float.format_1f rate)) calls))
        end
    end.
End run.

End Suppliers.

(** ** Dictionaries in insertion order *)

Module PyDict.

(** [d[key] = value] on a dictionary kept as Python iterates it: the
    entries in the order in which their keys were first assigned. *)
Fixpoint setitem {V} (d : list (string * V)) (key : string) (value : V)
    : list (string * V) :=
  match d with
  | [] => [(key, value)]
  | (k, v) :: rest =>
      if decide (k = key) then (k, value) :: rest
      else (k, v) :: setitem rest key value
  end.

End PyDict.

(** ** [qualify_contracts] with its dictionary in insertion order

    The same lines of src/app/ibkr.py as in [Ibkr], with
    [qualified_contracts] kept as the list of its items, for the code that
    iterates over it. *)

Module IbkrOrdered.
Import Ibkr.

(** Lines 127-149. *)
Fixpoint process_results (symbol_map : gmap nat string) (i j : nat)
    (batch qualified_batch : list Contract)
    (qualified_contracts : list (string * option Contract))
    : list (string * option Contract) * option exn :=
  match batch with
  | [] => (qualified_contracts, None)
  | original_contract :: rest =>
      let contract_index := i + j in
      match symbol_map !! contract_index with
      | None => (qualified_contracts, Some KeyError)
      | Some symbol =>
          let qualified := scan original_contract qualified_batch in
          process_results symbol_map i (S j) rest qualified_batch
            (PyDict.setitem qualified_contracts symbol qualified)
      end
  end.

(** Lines 157-161. *)
Fixpoint mark_failed (symbol_map : gmap nat string) (i j : nat)
    (batch : list Contract)
    (qualified_contracts : list (string * option Contract))
    : result (list (string * option Contract)) :=
  match batch with
  | [] => Return qualified_contracts
  | _ :: rest =>
      let contract_index := i + j in
      match symbol_map !! contract_index with
      | None => Raise KeyError
      | Some symbol =>
          mark_failed symbol_map i (S j) rest
            (PyDict.setitem qualified_contracts symbol None)
      end
  end.

Section session.
Context {Session : Type}.
Variable qualifyContracts : Session → list Contract → Session * Reply.

(** Lines 122-161. *)
Definition qualify_batch (symbol_map : gmap nat string) (i : nat)
    (batch : list Contract) (ib : Session)
    (qualified_contracts : list (string * option Contract))
    : Session * result (list (string * option Contract)) :=
  let '(ib', reply) := qualifyContracts ib batch in
  let batch := imap (updated reply) batch in
  match returned_contracts reply with
  | Some qualified_batch =>
      match process_results symbol_map i 0 batch qualified_batch
              qualified_contracts with
      | (qualified_contracts', None) => (ib', Return qualified_contracts')
      | (qualified_contracts', Some _) =>
          (ib', mark_failed symbol_map i 0 batch qualified_contracts')
      end
  | None => (ib', mark_failed symbol_map i 0 batch qualified_contracts)
  end.

(** Lines 119-161. *)
Fixpoint qualify_loop (symbol_map : gmap nat string)
    (contracts : list Contract) (batch_size : nat) (starts : list nat)
    (ib : Session) (qualified_contracts : list (string * option Contract))
    : Session * result (list (string * option Contract)) :=
  match starts with
  | [] => (ib, Return qualified_contracts)
  | i :: rest =>
      let batch := Py.slice contracts i batch_size in
      match qualify_batch symbol_map i batch ib qualified_contracts with
      | (ib', Return qualified_contracts') =>
          qualify_loop symbol_map contracts batch_size rest ib'
            qualified_contracts'
      | (ib', Raise e) => (ib', Raise e)
      end
  end.

(** [IBKRManager.qualify_contracts] *)
Definition qualify_contracts (connected : bool) (ib : Session)
    (symbols : list string) (sec_type exchange currency : string)
    (batch_size : Z)
    : Session * result (list (string * option Contract)) :=
  if negb connected then (ib, Raise NotConnected)
  else
    let '(contracts, symbol_map) :=
      create_contracts 0 symbols sec_type exchange currency [] ∅ in
    match Py.range (length contracts) batch_size with
    | Raise e => (ib, Raise e)
    | Return starts =>
        qualify_loop symbol_map contracts (Z.to_nat batch_size) starts ib []
    end.

End session.
End IbkrOrdered.

(** ** The rest of [IBKRManager] (src/app/ibkr.py) *)

Module Manager.
Import Ibkr.

(** The methods of [self.ib] the manager calls.  Each moves the session to
    a new state; [false] in the second component stands for a call that
    raised. *)
Record IB (Session : Type) : Type := mkIB {
  ib_connect : Session → Session * bool;
  ib_disconnect : Session → Session * bool;
  ib_qualifyContracts : Session → list Contract → Session * Reply;
  ib_reqMktData : Session → Contract → Session * bool
}.
Arguments ib_connect {Session} _.
Arguments ib_disconnect {Session} _.
Arguments ib_qualifyContracts {Session} _.
Arguments ib_reqMktData {Session} _.

(** The fields of [self] that change. *)
Record IBKRManager (Session : Type) : Type := mkManager {
  ib : Session;
  connected : bool
}.
Arguments mkManager {Session} _ _.
Arguments ib {Session} _.
Arguments connected {Session} _.

(** One entry of [results["successful_contracts"]]. *)
Record ContractEntry : Type := mkEntry {
  entry_symbol : string;
  entry_contract_symbol : string;
  entry_exchange : string;
  entry_currency : string;
  entry_contract_id : Z;
  entry_sec_type : string
}.

(** One row of the import file. *)
Record ImportRow : Type := mkImportRow {
  row_Symbol : string;
  row_Exchange : string;
  row_Currency : string;
  row_SecType : string
}.

(** The dictionary [create_watchlist_from_symbols] returns, without the
    name, the time stamp and the path; [import_rows] is [None] when the
    function returns before the import file is made. *)
Record Results : Type := mkResults {
  success : bool;
  total_symbols : nat;
  successful_contracts : list ContractEntry;
  failed_symbols : list string;
  import_rows : option (list ImportRow)
}.

(** The files the manager writes under [output_dir], each with the data
    it is written from. *)
Inductive Document : Type :=
  | tws_import_csv (rows : list ImportRow)               (* line 205 *)
  | watchlist_results_json (results : Results)           (* lines 368-369 *)
  | watchlist_contracts_csv (entries : list ContractEntry)  (* lines 373-375 *)
  | watchlist_failed_txt (symbols : list string).        (* lines 379-382 *)

(** [contract.primaryExchange or contract.exchange] *)
Definition exchange_of (contract : Contract) : string :=
  if Py.truthy (primaryExchange contract) then primaryExchange contract
  else exchange contract.

(** Lines 187-198 of [create_tws_importable_watchlist]: the rows of the
    file. *)
Definition csv_data (contracts : list Contract) : list ImportRow :=
  (λ contract, mkImportRow (symbol contract) (exchange_of contract)
                 (currency contract) (secType contract)) <$> contracts.

(** Lines 323-336: the loop over the items of [qualified_contracts].  A
    contract object counts as true. *)
Definition sort_item (lists : list ContractEntry * list string)
    (item : string * option Contract) : list ContractEntry * list string :=
  let '(symbol, contract) := item in
  match contract with
  | Some contract =>
      (lists.1 ++ [mkEntry symbol (Ibkr.symbol contract) (exchange_of contract)
                     (currency contract) (conId contract) (secType contract)],
       lists.2)
  | None => (lists.1, lists.2 ++ [symbol])
  end.

Section manager.
Context {Session : Type}.
Variable api : IB Session.

(** [IBKRManager.connect] *)
Definition connect (self : IBKRManager Session) : IBKRManager Session * bool :=
  let '(ib', ok) := ib_connect api (ib self) in
  if ok then (mkManager ib' true, true)
  else (mkManager ib' (connected self), false).

(** [IBKRManager.disconnect] *)
Definition disconnect (self : IBKRManager Session)
    : IBKRManager Session * result unit :=
  if connected self then
    let '(ib', ok) := ib_disconnect api (ib self) in
    if ok then (mkManager ib' false, Return tt)
    else (mkManager ib' (connected self), Raise ServiceError)
  else (self, Return tt).

(** [IBKRManager.qualify_contracts] as a method; [batch_size] is [None]
    for a call that leaves it out. *)
Definition qualify_contracts (self : IBKRManager Session) (symbols : list string)
    (sec_type exchange currency : string) (batch_size : option Z)
    : IBKRManager Session * result (gmap string (option Contract)) :=
  let '(ib', r) :=
    Ibkr.qualify_contracts (ib_qualifyContracts api) (connected self) (ib self)
      symbols sec_type exchange currency (default 50%Z batch_size) in
  (mkManager ib' (connected self), r).

(** Lines 230-246 of [add_contracts_to_tws]. *)
Fixpoint add_loop (request_market_data : bool) (contracts : list Contract)
    (ib : Session) (successful_count : nat) : Session * nat :=
  match contracts with
  | [] => (ib, successful_count)
  | contract :: rest =>
      if request_market_data then
        let '(ib', ok) := ib_reqMktData api ib contract in
        if ok then add_loop request_market_data rest ib' (S successful_count)
        else add_loop request_market_data rest ib' successful_count
      else add_loop request_market_data rest ib (S successful_count)
  end.

(** [IBKRManager.add_contracts_to_tws] *)
Definition add_contracts_to_tws (self : IBKRManager Session)
    (contracts : list Contract) (request_market_data : bool)
    : IBKRManager Session * result nat :=
  if negb (connected self) then (self, Raise NotConnected)
  else
    let '(ib', successful_count) := add_loop request_market_data contracts (ib self) 0 in
    (mkManager ib' (connected self), Return successful_count).

Context {Files : Type}.
Variable disk : Os.Disk Files Document.

(** [IBKRManager.create_tws_importable_watchlist]: the rows, and the file
    written from them; nothing makes [output_dir] before line 205. *)
Definition create_tws_importable_watchlist (contracts : list Contract)
    (files : Files) : Files * result (list ImportRow) :=
  let csv_data := csv_data contracts in
  match Os.write_files disk [tws_import_csv csv_data] files with
  | (files', Return _) => (files', Return csv_data)
  | (files', Raise e) => (files', Raise e)
  end.

(** [IBKRManager.save_watchlist_results] *)
Definition save_watchlist_results (results : Results) (files : Files)
    : Files * result unit :=
  Os.mkdir_and_write disk
    ([watchlist_results_json results]
     ++ (if bool_decide (successful_contracts results = []) then []
         else [watchlist_contracts_csv (successful_contracts results)])
     ++ (if bool_decide (failed_symbols results = []) then []
         else [watchlist_failed_txt (failed_symbols results)]))
    files.

(** [IBKRManager.create_watchlist_from_symbols], with the defaults of
    [qualify_contracts] and [add_contracts_to_tws] it relies on and with
    [save_results] left at its default.  [import_rows] stands for the
    path of the import file: it is there when that file was written. *)
Definition create_watchlist_from_symbols (self : IBKRManager Session)
    (files : Files) (symbols : list string) (sec_type exchange currency : string)
    : (IBKRManager Session * Files) * result Results :=
  if negb (connected self) then ((self, files), Raise NotConnected)
  else
    match IbkrOrdered.qualify_contracts (ib_qualifyContracts api) (connected self)
            (ib self) symbols sec_type exchange currency 50 with
    | (ib', Raise e) => ((mkManager ib' (connected self), files), Raise e)
    | (ib', Return qualified_contracts) =>
        let self' := mkManager ib' (connected self) in
        let valid_contracts := omap (λ item, item.2) qualified_contracts in
        if bool_decide (valid_contracts = []) then
          ((self', files), Return (mkResults false (length symbols) [] symbols None))
        else
          match add_contracts_to_tws self' valid_contracts true with
          | (self'', Raise e) => ((self'', files), Raise e)
          | (self'', Return added_count) =>
              match create_tws_importable_watchlist valid_contracts files with
              | (files', Raise e) => ((self'', files'), Raise e)
              | (files', Return csv_file) =>
                  let lists := foldl sort_item ([], []) qualified_contracts in
                  let results := mkResults (0 <? added_count) (length symbols)
                                   lists.1 lists.2 (Some csv_file) in
                  match save_watchlist_results results files' with
                  | (files'', Raise e) => ((self'', files''), Raise e)
                  | (files'', Return _) => ((self'', files''), Return results)
                  end
              end
          end
    end.

(** [IBKRManager.test_connection] *)
Definition test_connection (self : IBKRManager Session)
    : IBKRManager Session * bool :=
  let '(self', proceed) :=
    if negb (connected self) then connect self else (self, true) in
  if negb proceed then (self', false)
  else
    match qualify_contracts self' ["AAPL"] "STK" "SMART" "USD" None with
    | (self'', Return test_contracts) =>
        match test_contracts !! "AAPL" with
        | Some (Some _) => (self'', true)
        | _ => (self'', false)
        end
    | (self'', Raise _) => (self'', false)
    end.

End manager.
End Manager.

(** ** src/scripts/apple_supplier/create_ibkr_watchlist.py *)

Module Watchlist.
Import Ibkr Manager.

Section main.
Context {Session Files : Type}.
Variable api : IB Session.
Variable disk : Os.Disk Files Document.

(** [main].  [ticker_file] is [None] when none of the three files exists,
    and otherwise what lines 404-435 of [load_symbols_from_file] read from
    the first that does, or the exception they raise; [ib0] is the session
    of the new manager and [files] the data directory.  The result is the
    manager at the end, if one was made, the data directory, and what
    [main] returns. *)
Definition main (ticker_file : option (result (list string))) (ib0 : Session)
    (files : Files) : (option (IBKRManager Session) * Files) * result bool :=
  match ticker_file with
  | None => ((None, files), Return false)
  | Some loaded =>
      let manager := mkManager ib0 false in
      let '(manager, files, returned) :=
        match test_connection api manager with
        | (manager, false) => (manager, files, false)
        | (manager, true) =>
            match loaded with
            | Raise _ => (manager, files, false)
            | Return raw =>
                let symbols := load_symbols_from_file raw in
                if bool_decide (symbols = []) then (manager, files, false)
                else
                  match create_watchlist_from_symbols api disk manager files symbols
                          "STK" "SMART" "USD" with
                  | ((manager, files), Return results) =>
                      (manager, files, success results)
                  | ((manager, files), Raise _) => (manager, files, false)
                  end
            end
        end in
      match disconnect api manager with
      | (manager, Return _) => ((Some manager, files), Return returned)
      | (manager, Raise e) => ((Some manager, files), Raise e)
      end
  end.

End main.
End Watchlist.

(** ** Notions used to state the properties *)

(** [d[k] = v] for a pair [(k, v)]; a run of assignments is a left fold. *)
Definition write {K V} `{Countable K} (m : gmap K V) (kv : K * V) : gmap K V :=
  <[kv.1 := kv.2]> m.

(** [ceil(n / b)] *)
Definition ceil_div (n b : nat) : nat := (n + b - 1) / b.

Module IbkrSpec.
Import Ibkr.

(** What one request gets from the answer to its window: the scan of
    the returned contracts, or [None] for a call that raised.  The
    request is read as the call left it. *)
Definition resolve (answer : option (list Contract)) (original_contract : Contract)
    : option Contract :=
  match answer with
  | Some qualified_batch => scan original_contract qualified_batch
  | None => None
  end.

Section session.
Context {Session : Type}.
Variable qualifyContracts : Session → list Contract → Session * Reply.

(** The lists the session returns to a sequence of calls, [None] for a
    call that raises. *)
Fixpoint answers (ib : Session) (batches : list (list Contract))
    : list (option (list Contract)) :=
  match batches with
  | [] => []
  | batch :: rest =>
      let '(ib', reply) := qualifyContracts ib batch in
      returned_contracts reply :: answers ib' rest
  end.

(** The requests of each call, as the call left them. *)
Fixpoint requests (ib : Session) (batches : list (list Contract))
    : list (list Contract) :=
  match batches with
  | [] => []
  | batch :: rest =>
      let '(ib', reply) := qualifyContracts ib batch in
      imap (updated reply) batch :: requests ib' rest
  end.

Fixpoint session_after (ib : Session) (batches : list (list Contract)) : Session :=
  match batches with
  | [] => ib
  | batch :: rest => session_after (qualifyContracts ib batch).1 rest
  end.

(** The same session, keeping a record of the batches it was sent. *)
Definition recording (st : Session * list (list Contract)) (batch : list Contract)
    : (Session * list (list Contract)) * Reply :=
  let '(ib', reply) := qualifyContracts st.1 batch in
  ((ib', st.2 ++ [batch]), reply).

(** The request sent as [c] at position [p] of the input, as the call
    for its window left it: that call is made in the state the calls for
    the earlier windows left the session in. *)
Definition request_left (ib : Session) (windows : list (list Contract))
    (batch_size p : nat) (c : Contract) : Contract :=
  match windows !! (p / batch_size) with
  | Some batch =>
      updated (qualifyContracts (session_after ib (take (p / batch_size) windows))
                 batch).2 (p `mod` batch_size) c
  | None => c
  end.

(** The session leaves the symbol, the currency and the security type of
    every request as they were sent. *)
Definition keeps_keys : Prop :=
  ∀ ib batch j c,
    let c' := updated (qualifyContracts ib batch).2 j c in
    symbol c' = symbol c ∧ currency c' = currency c ∧ secType c' = secType c.
End session.

(** The answer to window [w], [None] when that call raised or was not
    made. *)
Definition answer_at (answers : list (option (list Contract))) (w : nat)
    : option (list Contract) :=
  mjoin (answers !! w).

(** The request at position [p] of the input, as the call for its window
    left it. *)
Definition request_at (requests : list (list Contract)) (batch_size p : nat)
    : option Contract :=
  requests !! (p / batch_size) ≫= λ batch, batch !! (p mod batch_size).

(** Position [p] is the last one that holds its symbol. *)
Definition last_occurrence (symbols : list string) (p : nat) : Prop :=
  ∀ q s, p < q → symbols !! p = Some s → symbols !! q ≠ Some s.

(** The assignments one window makes: [batch] is the window as its call
    left it. *)
Definition window_writes (symbols : list string) (batch_size i : nat)
    (batch : list Contract) (answer : option (list Contract))
    : list (string * option Contract) :=
  zip (Py.slice symbols i batch_size) (resolve answer <$> batch).

(** The assignments of the whole run, one per position: the request at
    [p] gets what the answer to window [p / batch_size] gives it. *)
Definition all_writes (symbols : list string) (batch_size : nat)
    (requests : list (list Contract)) (answers : list (option (list Contract)))
    : list (string * option Contract) :=
  imap (λ p s, (s, request_at requests batch_size p
                     ≫= resolve (answer_at answers (p / batch_size)))) symbols.
End IbkrSpec.

Module SuppliersSpec.
Import Suppliers.

(** A quote is flagged as an equity: [quoteType], upper-cased, is
    [EQUITY]. *)
Definition equity_flag (quote : Quote) : Prop :=
  ∃ ty, quoteType quote = Some ty ∧ Py.upper ty = "EQUITY".

(** The search returned at least one result, and the first one carries a
    non-empty symbol [symbol] and either the equity flag or no type flag. *)
Definition accepted (response : Response) (symbol : string) : Prop :=
  ∃ quote more,
    response = SearchReturns (Some (quote :: more))
    ∧ quote_symbol quote = Some symbol ∧ symbol ≠ ""
    ∧ (equity_flag quote ∨ quoteType quote = None).

(** The search returned at least one result whose first entry is flagged
    as an equity or carries no type flag. *)
Definition first_result_eligible (response : Response) : Prop :=
  ∃ quote more,
    response = SearchReturns (Some (quote :: more))
    ∧ (equity_flag quote ∨ quoteType quote = None).

(** The symbol a response yields, if any. *)
Definition response_match (response : Response) : option string :=
  match response with
  | SearchRaises => None
  | SearchReturns quotes => first_match quotes
  end.

(** The terms that are not skipped by the test of line 215. *)
Definition long_terms (search_terms : list string) : list string :=
  filter (λ term, 2 ≤ Py.len term) search_terms.

(** An endpoint that never yields an accepted result. *)
Definition never_accepts {World} (search : World → string → World * Response) : Prop :=
  ∀ w term symbol, ¬ accepted (search w term).2 symbol.

(** What the loop of [find_tickers] stores for the task at position [k]
    with name [s]. *)
Definition stored (future : Future) : option string :=
  match outcome future with
  | Return (_, ticker) => if Py.truthy (default "" ticker) then ticker else None
  | Raise _ => None
  end.

(** A future that returns hands back the name of its own task. *)
Definition returns_own_name (submit : nat * string → Future) : Prop :=
  ∀ item supplier ticker,
    outcome (submit item) = Return (supplier, ticker) → supplier = item.2.

Definition task_write (submit : nat * string → Future) (item : nat * string)
    : string * option string :=
  match outcome (submit item) with
  | Return (supplier, _) => (supplier, stored (submit item))
  | Raise _ => (item.2, None)
  end.

(** A string has a dot in it. *)
Fixpoint has_dot (s : string) : bool :=
  match s with
  | EmptyString => false
  | String c r => Ascii.eqb c "."%char || has_dot r
  end.
End SuppliersSpec.

Module ManagerSpec.
Import Ibkr Manager.

(** [d[k] = v] for a pair [(k, v)], on a dictionary in insertion order. *)
Definition assign {V} (d : list (string * V)) (kv : string * V) : list (string * V) :=
  PyDict.setitem d kv.1 kv.2.

(** The entry of [s] is a contract. *)
Definition resolved (m : gmap string (option Contract)) (s : string) : bool :=
  match m !! s with Some (Some _) => true | _ => false end.

(** The entry of [s] is [None]. *)
Definition unresolved (m : gmap string (option Contract)) (s : string) : bool :=
  match m !! s with Some None => true | _ => false end.

(** The entry made for an item whose contract is not [None]. *)
Definition entry_of (item : string * option Contract) : option ContractEntry :=
  match item.2 with
  | Some contract =>
      Some (mkEntry item.1 (symbol contract) (exchange_of contract)
              (currency contract) (conId contract) (secType contract))
  | None => None
  end.

(** The symbol of an item whose contract is [None]. *)
Definition failed_of (item : string * option Contract) : option string :=
  match item.2 with
  | Some _ => None
  | None => Some item.1
  end.

(** A session whose calls are recorded: the batches sent for
    qualification and the contracts market data was requested for. *)
Definition logged {Session} (api : IB Session)
    : IB (Session * (list (list Contract) * list Contract)) :=
  mkIB _
    (λ st, let '(ib', ok) := ib_connect api st.1 in ((ib', st.2), ok))
    (λ st, let '(ib', ok) := ib_disconnect api st.1 in ((ib', st.2), ok))
    (λ st batch,
       let '(ib', answer) := ib_qualifyContracts api st.1 batch in
       ((ib', (st.2.1 ++ [batch], st.2.2)), answer))
    (λ st contract,
       let '(ib', ok) := ib_reqMktData api st.1 contract in
       ((ib', (st.2.1, st.2.2 ++ [contract])), ok)).

(** The calls a program makes to the session. *)
Inductive Call : Type :=
  | call_connect
  | call_disconnect
  | call_qualifyContracts (batch : list Contract)
  | call_reqMktData (contract : Contract).

(** A session that keeps the list of the calls made to it, in order. *)
Definition traced {Session} (api : IB Session) : IB (Session * list Call) :=
  mkIB _
    (λ st, let '(ib', ok) := ib_connect api st.1 in
           ((ib', st.2 ++ [call_connect]), ok))
    (λ st, let '(ib', ok) := ib_disconnect api st.1 in
           ((ib', st.2 ++ [call_disconnect]), ok))
    (λ st batch,
       let '(ib', reply) := ib_qualifyContracts api st.1 batch in
       ((ib', st.2 ++ [call_qualifyContracts batch]), reply))
    (λ st contract,
       let '(ib', ok) := ib_reqMktData api st.1 contract in
       ((ib', st.2 ++ [call_reqMktData contract]), ok)).


(** The outcomes of [reqMktData] on a sequence of contracts. *)
Fixpoint request_outcomes {Session} (api : IB Session) (ib : Session)
    (contracts : list Contract) : list bool :=
  match contracts with
  | [] => []
  | contract :: rest =>
      let '(ib', ok) := ib_reqMktData api ib contract in
      ok :: request_outcomes api ib' rest
  end.
End ManagerSpec.

Module PoolSpec.
Import Suppliers SuppliersSpec.

(** The endpoint after it has answered the terms [terms], in order. *)
Definition world_after {World} (search : World → string → World * Response)
    (w : World) (terms : list string) : World :=
  foldl (λ w term, (search w term).1) w terms.

(** The same endpoint, with every call that raises replaced by one that
    returns no result. *)
Definition absorbing {World} (search : World → string → World * Response)
    (w : World) (term : string) : World * Response :=
  let '(w', response) := search w term in
  (w', match response with
       | SearchRaises => SearchReturns None
       | SearchReturns quotes => SearchReturns quotes
       end).

(** The first symbol accepted when the terms are sent one after the
    other; an answer that is not accepted, and a call that raises, lead on
    to the next term. *)
Fixpoint first_accepted {World} (search : World → string → World * Response)
    (w : World) (terms : list string) : option string :=
  match terms with
  | [] => None
  | term :: rest =>
      match response_match (search w term).2 with
      | Some symbol => Some symbol
      | None => first_accepted search (search w term).1 rest
      end
  end.

(** What each future stores, by position. *)
Definition stored_values (submit : nat * string → Future) (suppliers : list string)
    : list (option string) :=
  (λ item, stored (submit item)) <$> enumerate suppliers.

(** The number of futures that store a ticker. *)
Definition stored_count (submit : nat * string → Future) (suppliers : list string) : nat :=
  length (filter is_Some (stored_values submit suppliers)).
End PoolSpec.

(** * Properties *)

(** ** The Python primitives on examples *)

Example strip_ex : Py.strip "  a b  " = "a b". Proof. reflexivity. Qed.
Example split_ex : Py.split " Foo  Corp " = ["Foo"; "Corp"]. Proof. reflexivity. Qed.
Example range_ex : Py.range 120 50 = Return [0; 50; 100]. Proof. reflexivity. Qed.
Example upper_ex : Py.upper "Equity" = "EQUITY". Proof. reflexivity. Qed.
Example remove_suffixes_ex1 : Suppliers.remove_suffixes "Foo Corporation" = "Foo ".
Proof. reflexivity. Qed.
Example remove_suffixes_ex2 : Suppliers.remove_suffixes "Tech Data Corp" = " Data ".
Proof. reflexivity. Qed.
Example remove_suffixes_ex3 : Suppliers.remove_suffixes "Foo Co." = "Foo Co.".
Proof. reflexivity. Qed.
Example remove_suffixes_ex4 : Suppliers.remove_suffixes "Co.X corpcorp Corp_ Corp-Ltd" = "X corpcorp Corp_ -".
Proof. reflexivity. Qed.
Example build_search_terms_ex :
  Suppliers.build_search_terms "Foo Corporation" = Return ["Foo Corporation"; "Foo"; "Foo"].
Proof. reflexivity. Qed.

(** ** Dictionaries written key by key *)

Section writes.
Context {K V : Type} `{Countable K}.
Implicit Types (m : gmap K V) (l : list (K * V)).

Lemma writes_lookup_notin l m k :
  k ∉ l.*1 → foldl write m l !! k = m !! k.
Proof.
  revert m. induction l as [|[k' v'] l IH]; intros m Hk; [done|].
  rewrite fmap_cons, not_elem_of_cons in Hk. destruct Hk as [Hne Hk].
  simpl. rewrite IH by done. unfold write. simpl. by rewrite lookup_insert_ne.
Qed.

Lemma writes_lookup_last l1 l2 m k v :
  k ∉ l2.*1 → foldl write m (l1 ++ (k, v) :: l2) !! k = Some v.
Proof.
  intros Hk. rewrite foldl_app. simpl. rewrite writes_lookup_notin by done.
  unfold write. simpl. by rewrite lookup_insert_eq.
Qed.

Lemma writes_dom l m : dom (foldl write m l) = dom m ∪ list_to_set l.*1.
Proof.
  revert m. induction l as [|[k v] l IH]; intros m; simpl.
  - set_solver.
  - rewrite IH. unfold write. simpl. rewrite dom_insert_L. set_solver.
Qed.

End writes.

(** ** Ranges and windows *)

Section ranges.

Lemma ceil_div_0 b : 0 < b → ceil_div 0 b = 0.
Proof. intros Hb. unfold ceil_div. apply Nat.div_small. lia. Qed.

Lemma ceil_div_step n b : 0 < b → 0 < n → ceil_div n b = S (ceil_div (n - b) b).
Proof.
  intros Hb Hn. unfold ceil_div.
  destruct (decide (b ≤ n)) as [Hle|Hlt].
  - replace (n + b - 1) with ((n - b + b - 1) + 1 * b) by lia.
    rewrite Nat.div_add by lia. lia.
  - replace (n - b) with 0 by lia.
    rewrite (Nat.div_small (0 + b - 1)) by lia.
    symmetry. apply (Nat.div_unique _ _ 1 (n - 1)); lia.
Qed.

Lemma ceil_div_bounds n b :
  0 < b → n ≤ ceil_div n b * b ∧ (0 < n → (ceil_div n b - 1) * b < n).
Proof.
  intros Hb. unfold ceil_div.
  pose proof (Nat.div_mod_eq (n + b - 1) b) as Hdm.
  pose proof (Nat.mod_upper_bound (n + b - 1) b ltac:(lia)) as Hmod.
  split; [nia|]. intros Hn.
  assert (1 ≤ (n + b - 1) / b) by (apply Nat.div_le_lower_bound; lia).
  nia.
Qed.

Lemma range_from_spec fuel i stop step :
  0 < step → stop - i ≤ fuel →
  Py.range_from fuel i stop step =
    (λ k, i + k * step) <$> seq 0 (ceil_div (stop - i) step).
Proof.
  intros Hstep. revert i.
  induction fuel as [|fuel IH]; intros i Hfuel; simpl.
  - replace (stop - i) with 0 by lia. by rewrite ceil_div_0.
  - destruct (Nat.ltb_spec i stop) as [Hlt|Hge].
    + rewrite (ceil_div_step (stop - i) step) by lia.
      rewrite IH by lia. simpl. f_equal; [lia|].
      rewrite <- fmap_S_seq, <- list_fmap_compose.
      replace (stop - i - step) with (stop - (i + step)) by lia.
      apply list_fmap_ext. intros ? k _. simpl. lia.
    + replace (stop - i) with 0 by lia. by rewrite ceil_div_0.
Qed.

Lemma range_positive stop step :
  (0 < step)%Z →
  Py.range stop step =
    Return ((λ k, k * Z.to_nat step) <$> seq 0 (ceil_div stop (Z.to_nat step))).
Proof.
  intros Hstep. unfold Py.range.
  destruct (Z.eqb_spec step 0) as [->|_]; [lia|].
  destruct (Z.ltb_spec step 0) as [?|_]; [lia|].
  rewrite range_from_spec by lia. f_equal.
  rewrite Nat.sub_0_r. done.
Qed.

Context {A : Type}.
Implicit Types l : list A.

Lemma slice_length l i n : length (Py.slice l i n) = n `min` (length l - i).
Proof. unfold Py.slice. by rewrite length_take, length_drop. Qed.

Lemma slice_lookup l i n j :
  Py.slice l i n !! j = if decide (j < n) then l !! (i + j) else None.
Proof.
  unfold Py.slice. case_decide.
  - by rewrite lookup_take_lt, lookup_drop.
  - by rewrite lookup_take_ge by lia.
Qed.

(** The first [n] windows of width [b] are the first [n * b] elements. *)
Lemma windows_join l b n :
  mjoin ((λ k, Py.slice l (k * b) b) <$> seq 0 n) = take (n * b) l.
Proof.
  induction n as [|n IH]; [done|].
  rewrite seq_S, fmap_app, join_app, IH. simpl.
  rewrite app_nil_r. unfold Py.slice.
  rewrite take_take_drop. f_equal. lia.
Qed.

End ranges.

(** ** The sequential resolver *)

Section qualify.
Import Ibkr IbkrSpec.

Lemma create_contracts_spec symbols sec_type exchange currency :
  ∀ i contracts symbol_map,
  create_contracts i symbols sec_type exchange currency contracts symbol_map =
    (contracts ++ ((λ s, create_contract s sec_type exchange currency) <$> symbols),
     foldl write symbol_map (imap (λ k s, (i + k, s)) symbols)).
Proof.
  induction symbols as [|s symbols IH]; intros i contracts symbol_map; simpl.
  - by rewrite app_nil_r.
  - rewrite IH, <- app_assoc. simpl. f_equal. unfold write at 2. simpl.
    rewrite Nat.add_0_r. f_equal. apply imap_ext. intros k x _. simpl.
    f_equal. lia.
Qed.

Lemma symbol_map_lookup (symbols : list string) i (m : gmap nat string) k :
  foldl write m (imap (λ k s, (i + k, s)) symbols) !! k =
    if decide (i ≤ k < i + length symbols) then symbols !! (k - i) else m !! k.
Proof.
  revert i m. induction symbols as [|s symbols IH]; intros i m; simpl.
  - case_decide; [lia|done].
  - erewrite imap_ext; [rewrite (IH (S i))|intros; simpl; f_equal; lia].
    unfold write. simpl. rewrite Nat.add_0_r.
    repeat case_decide; try lia.
    + destruct (k - i) as [|d] eqn:Hd; [lia|]. simpl. f_equal. lia.
    + replace k with i by lia. rewrite lookup_insert_eq.
      by replace (i - i) with 0 by lia.
    + rewrite lookup_insert_ne by lia. done.
Qed.

Lemma created_symbol_map symbols sec_type exchange currency k :
  (create_contracts 0 symbols sec_type exchange currency [] ∅).2 !! k = symbols !! k.
Proof.
  rewrite create_contracts_spec. cbn [snd]. rewrite symbol_map_lookup.
  case_decide.
  - f_equal. lia.
  - rewrite lookup_empty. symmetry. apply lookup_ge_None. lia.
Qed.

Lemma create_contract_fields s sec_type exchange currency :
  symbol (create_contract s sec_type exchange currency) = s
  ∧ secType (create_contract s sec_type exchange currency) = sec_type
  ∧ Ibkr.exchange (create_contract s sec_type exchange currency) = exchange
  ∧ Ibkr.currency (create_contract s sec_type exchange currency) = currency.
Proof. unfold create_contract. case_decide; subst; done. Qed.

Lemma process_results_writes symbol_map i qualified_batch :
  ∀ batch j syms qualified_contracts,
  length syms = length batch →
  (∀ j' s, syms !! j' = Some s → symbol_map !! (i + (j + j')) = Some s) →
  process_results symbol_map i j batch qualified_batch qualified_contracts =
    (foldl write qualified_contracts
       (zip syms ((λ c, scan c qualified_batch) <$> batch)), None).
Proof.
  induction batch as [|c batch IH]; intros j syms qc Hlen Hmap.
  - by destruct syms.
  - destruct syms as [|s syms]; [done|]. simpl.
    specialize (Hmap 0 s eq_refl) as Hs. rewrite Nat.add_0_r in Hs. rewrite Hs.
    apply IH; [simpl in Hlen; lia|].
    intros j' s' Hs'. specialize (Hmap (S j') s' Hs').
    by replace (S j + j') with (j + S j') by lia.
Qed.

Lemma mark_failed_writes symbol_map i :
  ∀ batch j syms qualified_contracts,
  length syms = length batch →
  (∀ j' s, syms !! j' = Some s → symbol_map !! (i + (j + j')) = Some s) →
  mark_failed symbol_map i j batch qualified_contracts =
    Return (foldl write qualified_contracts (zip syms ((λ _, None) <$> batch))).
Proof.
  induction batch as [|c batch IH]; intros j syms qc Hlen Hmap.
  - by destruct syms.
  - destruct syms as [|s syms]; [done|]. simpl.
    specialize (Hmap 0 s eq_refl) as Hs. rewrite Nat.add_0_r in Hs. rewrite Hs.
    apply IH; [simpl in Hlen; lia|].
    intros j' s' Hs'. specialize (Hmap (S j') s' Hs').
    by replace (S j + j') with (j + S j') by lia.
Qed.

Context {Session : Type}.
Variable qualifyContracts : Session → list Contract → Session * Reply.

Lemma qualify_batch_writes symbol_map i batch syms ib qualified_contracts :
  length syms = length batch →
  (∀ j' s, syms !! j' = Some s → symbol_map !! (i + j') = Some s) →
  qualify_batch qualifyContracts symbol_map i batch ib qualified_contracts =
    ((qualifyContracts ib batch).1,
     Return (foldl write qualified_contracts
               (zip syms (resolve (returned_contracts (qualifyContracts ib batch).2)
                            <$> imap (updated (qualifyContracts ib batch).2) batch)))).
Proof.
  intros Hlen Hmap. unfold qualify_batch.
  destruct (qualifyContracts ib batch) as [ib' [update [qualified_batch|]]]; simpl.
  - rewrite (process_results_writes _ _ _ _ _ syms); [done| |done].
    by rewrite length_imap.
  - by rewrite (mark_failed_writes _ _ _ _ syms); [|by rewrite length_imap|].
Qed.

End qualify.

Section qualify_loop.
Import Ibkr IbkrSpec.
Context {Session : Type}.
Variable qualifyContracts : Session → list Contract → Session * Reply.

Lemma qualify_loop_writes symbols contracts symbol_map batch_size :
  length symbols = length contracts →
  (∀ k, symbol_map !! k = symbols !! k) →
  ∀ starts ib qualified_contracts,
  let batches := (λ i, Py.slice contracts i batch_size) <$> starts in
  qualify_loop qualifyContracts symbol_map contracts batch_size starts ib
      qualified_contracts =
    (session_after qualifyContracts ib batches,
     Return (foldl write qualified_contracts
               (mjoin (zip_with (λ i ra, window_writes symbols batch_size i ra.1 ra.2)
                         starts
                         (zip (requests qualifyContracts ib batches)
                              (answers qualifyContracts ib batches)))))).
Proof.
  intros Hlen Hmap. induction starts as [|i starts IH]; intros ib qc; [done|].
  simpl.
  rewrite (qualify_batch_writes _ _ _ _ (Py.slice symbols i batch_size)).
  - rewrite IH. destruct (qualifyContracts ib _) as [ib' reply]. simpl.
    by rewrite foldl_app.
  - rewrite !slice_length. lia.
  - intros j' s. rewrite slice_lookup, Hmap. by case_decide.
Qed.

Lemma zip_with_starts {B C} (f : nat → B → C) (g : nat → nat) n (l : list B) d :
  length l = n →
  zip_with f (g <$> seq 0 n) l = (λ k, f (g k) (default d (l !! k))) <$> seq 0 n.
Proof.
  intros Hn. apply list_eq. intros k.
  rewrite lookup_zip_with, !list_lookup_fmap.
  destruct (decide (k < n)) as [Hk|Hk].
  - rewrite lookup_seq_lt by done. simpl.
    destruct (lookup_lt_is_Some_2 l k ltac:(lia)) as [x ->]. done.
  - by rewrite lookup_seq_ge by lia.
Qed.

Lemma all_writes_lookup symbols batch_size requests answers p :
  all_writes symbols batch_size requests answers !! p =
    (λ s, (s, request_at requests batch_size p
                ≫= resolve (answer_at answers (p / batch_size)))) <$> symbols !! p.
Proof. unfold all_writes. by rewrite list_lookup_imap. Qed.

Lemma all_writes_length symbols batch_size requests answers :
  length (all_writes symbols batch_size requests answers) = length symbols.
Proof. unfold all_writes. by rewrite length_imap. Qed.

Lemma window_writes_slice symbols batch_size requests answers k batch :
  0 < batch_size →
  requests !! k = Some batch →
  length batch = length (Py.slice symbols (k * batch_size) batch_size) →
  window_writes symbols batch_size (k * batch_size) batch (answer_at answers k)
  = Py.slice (all_writes symbols batch_size requests answers)
      (k * batch_size) batch_size.
Proof.
  intros Hb Hk Hlen. apply list_eq. intros j. unfold window_writes.
  rewrite slice_lookup, lookup_zip_with, list_lookup_fmap, slice_lookup.
  assert (length (Py.slice symbols (k * batch_size) batch_size) ≤ batch_size) as Hle
    by (rewrite slice_length; lia).
  destruct (decide (j < batch_size)) as [Hj|Hj].
  - rewrite all_writes_lookup.
    replace ((k * batch_size + j) / batch_size) with k
      by (apply (Nat.div_unique _ _ _ j); lia).
    unfold request_at.
    replace ((k * batch_size + j) / batch_size) with k
      by (apply (Nat.div_unique _ _ _ j); lia).
    replace ((k * batch_size + j) `mod` batch_size) with j
      by (apply (Nat.mod_unique _ _ k j); lia).
    rewrite Hk. simpl.
    destruct (symbols !! (k * batch_size + j)) as [s|] eqn:Hs; [|done]. simpl.
    assert (j < length batch) as Hjb.
    { rewrite Hlen. apply lookup_lt_is_Some. rewrite slice_lookup.
      rewrite decide_True by done. by rewrite Hs. }
    destruct (lookup_lt_is_Some_2 batch j Hjb) as [c ->]. done.
  - by destruct (symbols !! (k * batch_size + j)).
Qed.

Lemma windows_writes symbols batch_size requests answers n :
  0 < batch_size → length requests = n → length answers = n →
  (∀ k batch, requests !! k = Some batch →
     length batch = length (Py.slice symbols (k * batch_size) batch_size)) →
  mjoin (zip_with (λ i ra, window_writes symbols batch_size i ra.1 ra.2)
           ((λ k, k * batch_size) <$> seq 0 n) (zip requests answers))
  = take (n * batch_size) (all_writes symbols batch_size requests answers).
Proof.
  intros Hb Hr Ha Hlen. rewrite (zip_with_starts _ _ n _ ([], None)).
  2:{ rewrite length_zip_with. lia. }
  rewrite <- windows_join. f_equal. apply list_fmap_ext. intros i k Hk. simpl.
  apply lookup_seq in Hk as [Heq Hk]. simpl in Heq. subst i.
  destruct (lookup_lt_is_Some_2 requests k ltac:(lia)) as [batch Hbatch].
  destruct (lookup_lt_is_Some_2 answers k ltac:(lia)) as [answer Hanswer].
  rewrite lookup_zip_with, Hbatch, Hanswer. simpl.
  rewrite <- (window_writes_slice _ _ _ _ _ batch) by eauto.
  unfold answer_at. by rewrite Hanswer.
Qed.

Lemma answers_length ib batches :
  length (answers qualifyContracts ib batches) = length batches.
Proof.
  revert ib. induction batches as [|b batches IH]; intros ib; [done|].
  simpl. destruct (qualifyContracts ib b). simpl. by rewrite IH.
Qed.

Lemma requests_length ib batches :
  length (requests qualifyContracts ib batches) = length batches.
Proof.
  revert ib. induction batches as [|b batches IH]; intros ib; [done|].
  simpl. destruct (qualifyContracts ib b). simpl. by rewrite IH.
Qed.

(** Window [k] as its call left it, and what that call returned: the call
    is made in the state the earlier windows left the session in. *)
Lemma requests_lookup batches :
  ∀ ib k,
  requests qualifyContracts ib batches !! k =
    (λ b, imap (updated (qualifyContracts
                           (session_after qualifyContracts ib (take k batches)) b).2) b)
    <$> batches !! k.
Proof.
  induction batches as [|b batches IH]; intros ib k; [done|].
  simpl. destruct (qualifyContracts ib b) as [ib' reply] eqn:Hcall.
  destruct k as [|k]; simpl.
  - by rewrite Hcall.
  - rewrite IH. by rewrite Hcall.
Qed.

Lemma answers_lookup batches :
  ∀ ib k,
  answers qualifyContracts ib batches !! k =
    (λ b, returned_contracts
            (qualifyContracts (session_after qualifyContracts ib (take k batches)) b).2)
    <$> batches !! k.
Proof.
  induction batches as [|b batches IH]; intros ib k; [done|].
  simpl. destruct (qualifyContracts ib b) as [ib' reply] eqn:Hcall.
  destruct k as [|k]; simpl.
  - by rewrite Hcall.
  - rewrite IH. by rewrite Hcall.
Qed.

(** The run as a whole: it returns, and its dictionary is the
    assignments of all positions made in order. *)
Lemma qualify_contracts_writes ib symbols sec_type exchange currency batch_size :
  (0 < batch_size)%Z →
  let contracts := (λ s, create_contract s sec_type exchange currency) <$> symbols in
  ∃ windows,
    batch_windows contracts batch_size = Return windows
    ∧ qualify_contracts qualifyContracts true ib symbols sec_type exchange currency
        batch_size =
      (session_after qualifyContracts ib windows,
       Return (foldl write ∅
                 (all_writes symbols (Z.to_nat batch_size)
                    (requests qualifyContracts ib windows)
                    (answers qualifyContracts ib windows)))).
Proof.
  intros Hb contracts. unfold batch_windows, qualify_contracts. simpl.
  pose proof (create_contracts_spec symbols sec_type exchange currency 0 [] ∅) as Hcc.
  pose proof (created_symbol_map symbols sec_type exchange currency) as Hsm.
  destruct (create_contracts 0 symbols sec_type exchange currency [] ∅)
    as [contracts' symbol_map].
  simpl in Hcc, Hsm. injection Hcc as -> _. fold contracts.
  rewrite range_positive by done.
  eexists. split; [done|].
  assert (length symbols = length contracts) as Hlen
    by (unfold contracts; by rewrite length_fmap).
  rewrite (qualify_loop_writes symbols) by done.
  f_equal. f_equal. f_equal. rewrite <- list_fmap_compose.
  rewrite windows_writes.
  - apply take_ge. rewrite all_writes_length.
    pose proof (ceil_div_bounds (length contracts) (Z.to_nat batch_size)
                  ltac:(lia)) as [Hle _].
    lia.
  - lia.
  - by rewrite requests_length, !length_fmap, length_seq.
  - by rewrite answers_length, !length_fmap, length_seq.
  - intros k batch. rewrite requests_lookup, list_lookup_fmap.
    destruct (seq _ _ !! k) as [k'|] eqn:Hk; [|done]. simpl.
    apply lookup_seq in Hk as [-> Hk]. intros [= <-].
    rewrite length_imap, !slice_length. lia.
Qed.

End qualify_loop.

Section writes_positions.
Context {K V : Type} `{Countable K}.
Implicit Types (m : gmap K V) (l : list (K * V)).

(** The value of a key is the one assigned at its last position. *)
Lemma writes_lookup_position l m p k v :
  l !! p = Some (k, v) →
  (∀ q v', p < q → l !! q ≠ Some (k, v')) →
  foldl write m l !! k = Some v.
Proof.
  intros Hp Hlast. rewrite <- (take_drop_middle l p (k, v)) by done.
  apply writes_lookup_last.
  intros ([k' v'] & Hk & Hin)%list_elem_of_fmap. simpl in Hk. subst k'.
  apply list_elem_of_lookup in Hin as [j Hj]. rewrite lookup_drop in Hj.
  by apply (Hlast (S p + j) v'); [lia|].
Qed.
End writes_positions.

Lemma size_list_to_set_le (l : list string) :
  size (list_to_set l : gset string) ≤ length l.
Proof.
  induction l as [|x l IH]; simpl; [done|].
  destruct (decide (x ∈ l)) as [Hin|Hnotin].
  - replace ({[x]} ∪ list_to_set l : gset string) with (list_to_set l : gset string)
      by set_solver.
    lia.
  - rewrite size_union by set_solver. rewrite size_singleton. lia.
Qed.

Lemma size_list_to_set_dup (l : list string) :
  ¬ NoDup l → size (list_to_set l : gset string) < length l.
Proof.
  induction l as [|x l IH]; intros Hdup.
  - destruct Hdup. constructor.
  - simpl. destruct (decide (x ∈ l)) as [Hin|Hnotin].
    + replace ({[x]} ∪ list_to_set l : gset string) with (list_to_set l : gset string)
        by set_solver.
      pose proof (size_list_to_set_le l). lia.
    + assert (¬ NoDup l) as Hl by (intros ?; apply Hdup; by constructor).
      specialize (IH Hl).
      rewrite size_union by set_solver. rewrite size_singleton. lia.
Qed.

Section qualify_result.
Import Ibkr IbkrSpec.

Lemma batch_windows_positive {A} (requests : list A) batch_size :
  (0 < batch_size)%Z →
  batch_windows requests batch_size =
    Return ((λ k, Py.slice requests (k * Z.to_nat batch_size) (Z.to_nat batch_size))
              <$> seq 0 (ceil_div (length requests) (Z.to_nat batch_size))).
Proof.
  intros Hb. unfold batch_windows. rewrite range_positive by done.
  by rewrite <- list_fmap_compose.
Qed.

Context {Session : Type}.
Variable qualifyContracts : Session → list Contract → Session * Reply.

Lemma all_writes_fst symbols batch_size requests answers :
  (all_writes symbols batch_size requests answers).*1 = symbols.
Proof.
  apply list_eq. intros p. rewrite list_lookup_fmap, all_writes_lookup.
  by destruct (symbols !! p).
Qed.

Lemma session_after_recording batches :
  ∀ ib sent,
  session_after (recording qualifyContracts) (ib, sent) batches =
    (session_after qualifyContracts ib batches, sent ++ batches).
Proof.
  induction batches as [|b batches IH]; intros ib sent; simpl.
  - by rewrite app_nil_r.
  - unfold recording at 2. simpl.
    destruct (qualifyContracts ib b) as [ib' reply]. simpl.
    by rewrite IH, <- app_assoc.
Qed.

Lemma answers_recording batches :
  ∀ ib sent,
  answers (recording qualifyContracts) (ib, sent) batches =
    answers qualifyContracts ib batches.
Proof.
  induction batches as [|b batches IH]; intros ib sent; simpl; [done|].
  unfold recording at 1. simpl.
  destruct (qualifyContracts ib b) as [ib' reply]. by rewrite IH.
Qed.

Lemma requests_recording batches :
  ∀ ib sent,
  requests (recording qualifyContracts) (ib, sent) batches =
    requests qualifyContracts ib batches.
Proof.
  induction batches as [|b batches IH]; intros ib sent; simpl; [done|].
  unfold recording at 1. simpl.
  destruct (qualifyContracts ib b) as [ib' reply]. by rewrite IH.
Qed.

(** The request at position [p], as its call left it: the call for
    window [p / B] is made on that window as [create_contract] made it,
    in the state the earlier calls left the session in. *)
Lemma request_at_window {A} (contracts : list A) batch_size p c :
  (0 < batch_size)%Z →
  contracts !! p = Some c →
  let B := Z.to_nat batch_size in
  ∃ windows batch,
    batch_windows contracts batch_size = Return windows
    ∧ windows !! (p / B) = Some batch
    ∧ batch !! (p `mod` B) = Some c.
Proof.
  intros Hb Hp B. rewrite batch_windows_positive by done. fold B.
  eexists. eexists. split; [done|].
  assert (p < length contracts) as Hlt by (by eapply lookup_lt_Some).
  pose proof (ceil_div_bounds (length contracts) B ltac:(lia)) as [Hcover _].
  pose proof (Nat.div_mod_eq p B) as Hdm.
  assert (p / B < ceil_div (length contracts) B) as Hw.
  { apply Nat.Div0.div_lt_upper_bound. lia. }
  rewrite list_lookup_fmap, lookup_seq_lt by done. simpl. split; [done|].
  rewrite slice_lookup.
  rewrite decide_True by (apply Nat.mod_upper_bound; lia).
  rewrite <- Hp. f_equal. lia.
Qed.

Lemma request_at_created ib (contracts : list Contract) batch_size p c :
  (0 < batch_size)%Z →
  contracts !! p = Some c →
  let B := Z.to_nat batch_size in
  ∃ windows,
    batch_windows contracts batch_size = Return windows
    ∧ request_at (requests qualifyContracts ib windows) B p =
        Some (request_left qualifyContracts ib windows B p c).
Proof.
  intros Hb Hp B.
  destruct (request_at_window contracts batch_size p c Hb Hp)
    as (windows & batch & Hw & Hbatch & Hc).
  exists windows. split; [done|].
  unfold request_at, request_left. fold B in Hbatch, Hc.
  rewrite requests_lookup, Hbatch. simpl.
  by rewrite list_lookup_imap, Hc.
Qed.

(** The dictionary a run returns, position by position. *)
Lemma qualify_contracts_result ib symbols sec_type exchange currency batch_size :
  (0 < batch_size)%Z →
  let contracts := (λ s, create_contract s sec_type exchange currency) <$> symbols in
  let B := Z.to_nat batch_size in
  ∃ windows qualified_contracts,
    batch_windows contracts batch_size = Return windows
    ∧ qualify_contracts qualifyContracts true ib symbols sec_type exchange currency
        batch_size =
      (session_after qualifyContracts ib windows, Return qualified_contracts)
    ∧ dom qualified_contracts = list_to_set symbols
    ∧ ∀ p s, symbols !! p = Some s → last_occurrence symbols p →
        let c := request_left qualifyContracts ib windows B p
                   (create_contract s sec_type exchange currency) in
        request_at (requests qualifyContracts ib windows) B p = Some c
        ∧ qualified_contracts !! s =
            Some (resolve (answer_at (answers qualifyContracts ib windows) (p / B)) c).
Proof.
  intros Hb contracts B.
  destruct (qualify_contracts_writes qualifyContracts ib symbols sec_type exchange
              currency batch_size Hb) as (windows & Hw & Hrun).
  exists windows. eexists. split; [done|]. split; [exact Hrun|]. split.
  - rewrite writes_dom, dom_empty_L, all_writes_fst. set_solver.
  - intros p s Hp Hlast c.
    assert (contracts !! p = Some (create_contract s sec_type exchange currency))
      as Hc by (unfold contracts; by rewrite list_lookup_fmap, Hp).
    destruct (request_at_created ib contracts batch_size p _ Hb Hc)
      as (windows' & Hw' & Hreq).
    fold contracts in Hw. rewrite Hw in Hw'. injection Hw' as <-.
    fold B c in Hreq. split; [done|].
    eapply writes_lookup_position.
    + rewrite all_writes_lookup, Hp. fold B. rewrite Hreq. done.
    + intros q v' Hq. rewrite all_writes_lookup.
      destruct (symbols !! q) as [s'|] eqn:Hs'; [|done]. simpl.
      intros [= -> _]. by eapply Hlast.
Qed.

End qualify_result.

(** ** The pool resolver *)

Section pool.
Import Suppliers SuppliersSpec.

Lemma enumerate_lookup {A} (l : list A) k : enumerate l !! k = (λ x, (k, x)) <$> l !! k.
Proof. unfold enumerate. by rewrite list_lookup_imap. Qed.

Lemma complete_write suppliers submit st k s :
  suppliers !! k = Some s →
  let future_to_supplier := (λ item, (submit item, item.2)) <$> enumerate suppliers in
  complete future_to_supplier st k =
    mkProgress (write (tickers st) (task_write submit (k, s)))
      (S (completed_count st))
      (if Py.truthy (default "" (task_write submit (k, s)).2)
       then S (found_count st) else found_count st).
Proof.
  intros Hk. simpl. unfold complete, task_write, stored, write.
  rewrite list_lookup_fmap, enumerate_lookup, Hk. simpl.
  destruct (outcome (submit (k, s))) as [[supplier ticker]|e]; simpl; [|done].
  destruct (Py.truthy (default "" ticker)) eqn:Ht; simpl; [|done].
  by rewrite Ht.
Qed.

Lemma find_tickers_loop_writes suppliers submit as_completed :
  Forall (λ k, k < length suppliers) as_completed →
  ∀ st,
  let future_to_supplier := (λ item, (submit item, item.2)) <$> enumerate suppliers in
  let final := foldl (complete future_to_supplier) st as_completed in
  tickers final =
    foldl write (tickers st)
      (omap (λ k, (λ s, task_write submit (k, s)) <$> suppliers !! k) as_completed)
  ∧ completed_count final = completed_count st + length as_completed.
Proof.
  induction 1 as [|k order Hk Horder IH]; intros st; simpl; [split; [done|lia]|].
  destruct (lookup_lt_is_Some_2 suppliers k Hk) as [s Hs].
  rewrite (complete_write _ _ _ _ s Hs). rewrite Hs. simpl.
  destruct (IH (mkProgress (write (tickers st) (task_write submit (k, s)))
                  (S (completed_count st))
                  (if Py.truthy (default "" (task_write submit (k, s)).2)
                   then S (found_count st) else found_count st))) as [-> ->].
  simpl. split; [done|lia].
Qed.

Lemma task_write_key submit item :
  returns_own_name submit → (task_write submit item).1 = item.2.
Proof.
  intros Hown. unfold task_write.
  destruct (outcome (submit item)) as [[supplier ticker]|e] eqn:Ho; [|done].
  simpl. by eapply Hown.
Qed.

Lemma task_write_value submit item :
  (task_write submit item).2 = stored (submit item).
Proof.
  unfold task_write, stored.
  by destruct (outcome (submit item)) as [[supplier ticker]|e].
Qed.

(** With distinct names and every future drained once, the entry of a
    name is what its own future stored, whatever the order. *)
Lemma find_tickers_lookup suppliers submit as_completed k s :
  NoDup suppliers →
  as_completed ≡ₚ seq 0 (length suppliers) →
  returns_own_name submit →
  suppliers !! k = Some s →
  find_tickers suppliers submit as_completed !! s = Some (stored (submit (k, s))).
Proof.
  intros Hnodup Hperm Hown Hk. unfold find_tickers, find_tickers_loop.
  assert (Forall (λ k, k < length suppliers) as_completed) as Hall.
  { rewrite Hperm. apply Forall_forall. intros j Hj%elem_of_seq. lia. }
  destruct (find_tickers_loop_writes suppliers submit as_completed Hall
              (mkProgress ∅ 0 0)) as [-> _]. simpl.
  assert (k ∈ as_completed) as Hin.
  { rewrite Hperm. apply elem_of_seq. apply lookup_lt_Some in Hk. lia. }
  apply list_elem_of_split in Hin as (o1 & o2 & ->).
  assert (NoDup (o1 ++ k :: o2)) as Hnd by (rewrite Hperm; apply NoDup_seq).
  apply NoDup_app in Hnd as (_ & _ & Hnd2). apply NoDup_cons in Hnd2 as [Hk2 _].
  rewrite omap_app. simpl. rewrite Hk. simpl.
  rewrite (surjective_pairing (task_write submit (k, s))).
  rewrite task_write_key by done. rewrite task_write_value. simpl.
  apply writes_lookup_last.
  intros ([s' v'] & Hs' & Hin')%list_elem_of_fmap. simpl in Hs'. subst s'.
  apply list_elem_of_omap in Hin' as (j & Hj & Hjw).
  destruct (suppliers !! j) as [sj|] eqn:Hsj; [|done]. simpl in Hjw.
  injection Hjw as Hjw. 
  assert ((task_write submit (j, sj)).1 = s) as Hkey by (by rewrite Hjw).
  rewrite task_write_key in Hkey by done. simpl in Hkey. subst sj.
  assert (j = k) by (eapply NoDup_lookup; eauto). by subst j.
Qed.

Lemma find_tickers_dom suppliers submit as_completed :
  as_completed ≡ₚ seq 0 (length suppliers) →
  returns_own_name submit →
  dom (find_tickers suppliers submit as_completed) = list_to_set suppliers.
Proof.
  intros Hperm Hown. unfold find_tickers, find_tickers_loop.
  assert (Forall (λ k, k < length suppliers) as_completed) as Hall.
  { rewrite Hperm. apply Forall_forall. intros j Hj%elem_of_seq. lia. }
  destruct (find_tickers_loop_writes suppliers submit as_completed Hall
              (mkProgress ∅ 0 0)) as [-> _]. simpl.
  rewrite writes_dom, dom_empty_L, (left_id_L ∅ (∪)).
  apply set_eq. intros s. rewrite !elem_of_list_to_set, list_elem_of_fmap. split.
  - intros ([s' v] & -> & (j & Hj & Hjw)%list_elem_of_omap).
    destruct (suppliers !! j) as [sj|] eqn:Hsj; [|done]. simpl in Hjw.
    injection Hjw as Hjw.
    assert ((task_write submit (j, sj)).1 = s') as Hkey by (by rewrite Hjw).
    rewrite task_write_key in Hkey by done. simpl in *. subst.
    by eapply list_elem_of_lookup_2.
  - intros [k Hk]%list_elem_of_lookup.
    exists (task_write submit (k, s)). split.
    + by rewrite task_write_key.
    + apply list_elem_of_omap. exists k. split.
      * rewrite Hperm. apply elem_of_seq. apply lookup_lt_Some in Hk. lia.
      * by rewrite Hk.
Qed.

Lemma find_tickers_completed suppliers submit as_completed :
  as_completed ≡ₚ seq 0 (length suppliers) →
  completed_count (find_tickers_loop suppliers submit as_completed)
  = length suppliers.
Proof.
  intros Hperm. unfold find_tickers_loop.
  assert (Forall (λ k, k < length suppliers) as_completed) as Hall.
  { rewrite Hperm. apply Forall_forall. intros j Hj%elem_of_seq. lia. }
  destruct (find_tickers_loop_writes suppliers submit as_completed Hall
              (mkProgress ∅ 0 0)) as [_ ->]. simpl.
  by rewrite Hperm, length_seq.
Qed.

End pool.

(** ** One lookup *)

Section lookup.
Import Suppliers SuppliersSpec.

Lemma accept_spec quote symbol :
  accept quote = Some symbol ↔
    quote_symbol quote = Some symbol ∧ symbol ≠ ""
    ∧ (equity_flag quote ∨ quoteType quote = None).
Proof.
  unfold accept, equity_flag. destruct quote as [[sym|] ty]; simpl.
  - destruct sym as [|c sym]; simpl.
    + split; [done|]. intros ([= <-] & ? & _). done.
    + case_decide as Heq.
      * split.
        -- intros [= <-]. split; [done|]. split; [done|]. left.
           destruct ty as [ty|]; [by exists ty|done].
        -- by intros ([= <-] & _ & _).
      * destruct ty as [ty|]; simpl in *.
        -- split; [done|]. intros (_ & _ & [(ty' & [= <-] & Hty)|?]); done.
        -- split.
           ++ intros [= <-]. split; [done|]. split; [done|]. by right.
           ++ by intros ([= <-] & _ & _).
  - split; [done|]. by intros ([=] & _).
Qed.

Lemma response_match_spec response symbol :
  response_match response = Some symbol ↔ accepted response symbol.
Proof.
  unfold accepted. destruct response as [|[[|quote more]|]]; simpl.
  - split; [done|]. by intros (? & ? & [=] & _).
  - split; [done|]. by intros (? & ? & [=] & _).
  - rewrite accept_spec. split.
    + intros (? & ? & ?). by exists quote, more.
    + by intros (? & ? & [= <- <-] & ? & ? & ?).
  - split; [done|]. by intros (? & ? & [=] & _).
Qed.

Lemma response_match_None response :
  response_match response = None ↔ ∀ symbol, ¬ accepted response symbol.
Proof.
  split.
  - intros Hnone symbol Hacc%response_match_spec. congruence.
  - intros Hnot. destruct (response_match response) as [symbol|] eqn:Hm; [|done].
    by apply response_match_spec, Hnot in Hm.
Qed.

Context {World : Type}.
Variable search : World → string → World * Response.

Lemma query_terms_short term rest w queried :
  Py.len term < 2 →
  query_terms search (term :: rest) w queried = query_terms search rest w queried.
Proof. intros Hlen. simpl. by destruct (Nat.ltb_spec (Py.len term) 2); [|lia]. Qed.

Lemma query_terms_long term rest w queried :
  2 ≤ Py.len term →
  query_terms search (term :: rest) w queried =
    match response_match (search w term).2 with
    | Some symbol => ((search w term).1, queried ++ [term], Some symbol)
    | None => query_terms search rest (search w term).1 (queried ++ [term])
    end.
Proof.
  intros Hlen. simpl. destruct (Nat.ltb_spec (Py.len term) 2); [lia|].
  by destruct (search w term) as [w' [|quotes]].
Qed.

(** The terms queried are the leading long terms, all of them when
    nothing is found, and at least one when something is. *)
Lemma query_terms_queried search_terms :
  ∀ w queried, ∃ more rest,
    (query_terms search search_terms w queried).1.2 = queried ++ more
    ∧ long_terms search_terms = more ++ rest
    ∧ ((query_terms search search_terms w queried).2 = None → rest = [])
    ∧ (is_Some (query_terms search search_terms w queried).2 → more ≠ []).
Proof.
  induction search_terms as [|term rest IH]; intros w queried.
  - exists [], []. simpl. rewrite app_nil_r. repeat split; try done.
  - destruct (decide (Py.len term < 2)) as [Hshort|Hlong].
    + rewrite query_terms_short by done.
      destruct (IH w queried) as (more & rest' & ? & ? & ? & ?).
      exists more, rest'. unfold long_terms in *.
      rewrite filter_cons_False by lia. done.
    + rewrite query_terms_long by lia. unfold long_terms in *.
      rewrite filter_cons_True by lia.
      destruct (response_match (search w term).2) as [symbol|].
      * exists [term], (filter (λ term, 2 ≤ Py.len term) rest). simpl.
        repeat split; done.
      * destruct (IH (search w term).1 (queried ++ [term]))
          as (more & rest' & Hq & Hl & Hn & Hs).
        exists (term :: more), rest'. rewrite Hq, Hl, <- app_assoc. simpl.
        repeat split; done.
Qed.

Lemma query_terms_never_accepts search_terms w queried :
  never_accepts search →
  (query_terms search search_terms w queried).1.2 = queried ++ long_terms search_terms
  ∧ (query_terms search search_terms w queried).2 = None.
Proof.
  intros Hnever. revert w queried.
  induction search_terms as [|term rest IH]; intros w queried.
  - simpl. by rewrite app_nil_r.
  - destruct (decide (Py.len term < 2)) as [Hshort|Hlong].
    + rewrite query_terms_short by done. unfold long_terms.
      rewrite filter_cons_False by lia. apply IH.
    + rewrite query_terms_long by lia. unfold long_terms.
      rewrite filter_cons_True by lia.
      rewrite (proj2 (response_match_None _)) by apply Hnever.
      destruct (IH (search w term).1 (queried ++ [term])) as [-> ->].
      by rewrite <- app_assoc.
Qed.

(** [search_ticker] never raises. *)
Lemma search_ticker_returns w company_name :
  ∃ ticker, (search_ticker search w company_name).2 = Return ticker.
Proof.
  unfold search_ticker. destruct (build_search_terms company_name) as [terms|e].
  - destruct (query_terms search terms w []) as [[w' queried] ticker]. by eexists.
  - by eexists.
Qed.

Lemma build_search_terms_blank company_name :
  Py.split company_name = [] → build_search_terms company_name = Raise IndexError.
Proof. intros Hsplit. unfold build_search_terms. by rewrite Hsplit. Qed.

Lemma search_ticker_blank w company_name :
  Py.split company_name = [] →
  search_ticker search w company_name = (w, [], Return None).
Proof.
  intros Hsplit. unfold search_ticker. by rewrite build_search_terms_blank.
Qed.

Lemma search_ticker_with_progress_returns w index supplier :
  ∃ ticker,
    (search_ticker_with_progress search w (index, supplier)).2
    = Return (supplier, ticker).
Proof.
  unfold search_ticker_with_progress.
  destruct (search_ticker_returns w supplier) as [ticker Ht].
  destruct (search_ticker search w supplier) as [[w' queried] r].
  simpl in Ht. subst r. by exists ticker.
Qed.

End lookup.

Lemma run_task_returns {World} (search : nat → World → string → World * Suppliers.Response)
    (w0 : nat → World) item :
  ∃ ticker, Suppliers.outcome (Suppliers.run_task search w0 item) = Return (item.2, ticker).
Proof.
  destruct item as [index supplier]. unfold Suppliers.run_task. cbn [fst snd].
  destruct (search_ticker_with_progress_returns (search index) (w0 index) index supplier)
    as [ticker Ht].
  destruct (Suppliers.search_ticker_with_progress _ _ _) as [[w' queried] r].
  cbn [fst snd] in *. subst r. by exists ticker.
Qed.

Lemma run_task_returns_own_name {World}
    (search : nat → World → string → World * Suppliers.Response) (w0 : nat → World) :
  SuppliersSpec.returns_own_name (Suppliers.run_task search w0).
Proof.
  intros item supplier ticker Ho.
  destruct (run_task_returns search w0 item) as [t Ht]. congruence.
Qed.

(** ** The normaliser *)

Section normalizer.
Import Ibkr SuppliersSpec.

Lemma truthy_spec s : Py.truthy s = true ↔ s ≠ "".
Proof. by destruct s. Qed.

Lemma keep_spec s : keep s = true ↔ s ≠ "" ∧ Py.strip s ≠ "".
Proof. unfold keep. by rewrite andb_true_iff, !truthy_spec. Qed.

Lemma unique_sorted_Permutation symbols :
  unique_sorted symbols ≡ₚ
    elements (list_to_set (filter (λ s, keep s = true) symbols) : gset string).
Proof. apply merge_sort_Permutation. Qed.

Lemma unique_sorted_elem symbols s :
  s ∈ unique_sorted symbols ↔ s ∈ symbols ∧ s ≠ "" ∧ Py.strip s ≠ "".
Proof.
  rewrite unique_sorted_Permutation, elem_of_elements, elem_of_list_to_set,
    list_elem_of_filter, keep_spec. tauto.
Qed.

Lemma unique_sorted_NoDup symbols : NoDup (unique_sorted symbols).
Proof. rewrite unique_sorted_Permutation. apply NoDup_elements. Qed.

Lemma unique_sorted_sorted symbols : StronglySorted String.le (unique_sorted symbols).
Proof. apply StronglySorted_merge_sort; apply _. Qed.

Lemma unique_sorted_length symbols : length (unique_sorted symbols) ≤ length symbols.
Proof.
  rewrite unique_sorted_Permutation.
  etrans; [apply (size_list_to_set_le (filter _ symbols))|].
  apply length_filter.
Qed.

Lemma before_dot_no_dot s : has_dot (Py.before_dot s) = false.
Proof.
  induction s as [|c s IH]; [done|]. simpl.
  destruct (Ascii.eqb c ".") eqn:Hc; [done|]. simpl. by rewrite Hc.
Qed.

Lemma before_dot_id s : has_dot s = false → Py.before_dot s = s.
Proof.
  induction s as [|c s IH]; [done|]. simpl.
  destruct (Ascii.eqb c "."); [done|]. simpl. intros ?. f_equal. auto.
Qed.

Lemma strip_class_id symbols :
  Forall (λ s, has_dot s = false) symbols → strip_class symbols = symbols.
Proof.
  intros Hall. unfold strip_class. rewrite <- (list_fmap_id symbols) at 2.
  apply list_fmap_ext. intros i s Hs. simpl. apply before_dot_id.
  exact (Forall_lookup_1 _ _ _ _ Hall Hs).
Qed.

End normalizer.

(** ** The run *)

Section run.
Import Suppliers SuppliersSpec.

Lemma fromkeys_spec l :
  ∀ seen, NoDup (fromkeys seen l) ∧ ∀ x, x ∈ fromkeys seen l ↔ x ∈ l ∧ x ∉ seen.
Proof.
  induction l as [|y l IH]; intros seen; simpl.
  - split; [constructor|]. intros x. set_solver.
  - case_decide as Hy.
    + destruct (IH seen) as [Hnd Hin]. split; [done|]. intros x.
      rewrite Hin. set_solver.
    + destruct (IH ({[y]} ∪ seen)) as [Hnd Hin]. split.
      * constructor; [|done]. rewrite Hin. set_solver.
      * intros x. rewrite elem_of_cons, Hin. 
        destruct (decide (x = y)); set_solver.
Qed.

Lemma download_and_parse_pdf_NoDup extracted : NoDup (download_and_parse_pdf extracted).
Proof.
  destruct extracted as [l|e]; simpl; [apply fromkeys_spec|constructor].
Qed.

Lemma count_found_missing (tickers : gmap string (option string)) :
  count_found tickers + count_missing tickers = size tickers.
Proof.
  unfold count_found, count_missing.
  rewrite <- (map_filter_union_complement (λ kv, is_Some kv.2) tickers) at 3.
  rewrite map_size_disj_union by apply map_disjoint_filter_complement.
  f_equal. f_equal. apply map_filter_ext. intros k v _. simpl.
  rewrite <- eq_None_not_Some. done.
Qed.

Lemma find_tickers_size suppliers submit as_completed :
  NoDup suppliers →
  as_completed ≡ₚ seq 0 (length suppliers) →
  returns_own_name submit →
  size (find_tickers suppliers submit as_completed) = length suppliers.
Proof.
  intros Hnd Hperm Hown.
  rewrite <- size_dom, find_tickers_dom by done. by apply size_list_to_set.
Qed.

Lemma success_rate_nonzero found_tickers total :
  0 < total →
  success_rate found_tickers total =
    Return (Float.mul (Float.div (Float.of_nat found_tickers) (Float.of_nat total))
              (Float.of_nat 100)).
Proof.
  intros Htotal. unfold success_rate.
  destruct (Nat.eqb_spec total 0); [lia|done].
Qed.

End run.

(** * The resolvers *)

Section sequential_windows.
Import Ibkr IbkrSpec.

Lemma NoDup_last_occurrence (symbols : list string) p :
  NoDup symbols → last_occurrence symbols p.
Proof.
  intros Hnd q s Hpq Hp Hq.
  assert (p = q) by (eapply NoDup_lookup; eauto). lia.
Qed.

(** C2.  For a request list of length N and a batch size B > 0,
    [qualify_contracts] cuts the requests into exactly ceil(N/B) windows:
    window k is the contiguous slice that starts at position k*B, every
    window has between 1 and B requests, the windows put end to end are
    the request list itself (nothing twice, nothing left out), and these
    are the batches the session is sent, in this order.  For N = 120 and
    B = 50 the sizes are 50, 50, 20. *)
Theorem batch_partition {Session : Type}
    (qualifyContracts : Session → list Contract → Session * Reply)
    (ib : Session) (symbols : list string) (sec_type exchange currency : string)
    (batch_size : Z) :
  (0 < batch_size)%Z →
  let contracts := (λ s, create_contract s sec_type exchange currency) <$> symbols in
  let N := length symbols in
  let B := Z.to_nat batch_size in
  ∃ windows,
    batch_windows contracts batch_size = Return windows
    ∧ (qualify_contracts (recording qualifyContracts) true (ib, []) symbols
         sec_type exchange currency batch_size).1.2 = windows
    ∧ length windows = ceil_div N B
    ∧ Forall (λ w, 0 < length w ≤ B) windows
    ∧ mjoin windows = contracts
    ∧ (∀ k, k < ceil_div N B → windows !! k = Some (take B (drop (k * B) contracts)))
    ∧ (N = 120 → B = 50 → length <$> windows = [50; 50; 20]).
Proof.
  intros Hb contracts N B.
  assert (length contracts = N) as HN by (unfold contracts; by rewrite length_fmap).
  pose proof (ceil_div_bounds N B ltac:(lia)) as [Hcover Hlast].
  eexists. split; [by apply batch_windows_positive|].
  fold B. rewrite HN. split; [|split; [|split; [|split; [|split]]]].
  - destruct (qualify_contracts_writes (recording qualifyContracts) (ib, []) symbols
                sec_type exchange currency batch_size Hb) as (windows & Hw & ->).
    fold contracts in Hw. rewrite batch_windows_positive in Hw by done.
    injection Hw as <-. fold B. rewrite HN.
    by rewrite session_after_recording.
  - by rewrite length_fmap, length_seq.
  - apply Forall_fmap, Forall_forall. intros k Hk%elem_of_seq. simpl.
    rewrite slice_length, HN.
    assert (0 < N) as HNpos by (destruct N; [rewrite ceil_div_0 in Hk|]; lia).
    specialize (Hlast HNpos).
    assert (k * B ≤ (ceil_div N B - 1) * B) by (apply Nat.mul_le_mono_r; lia).
    lia.
  - rewrite windows_join. apply take_ge. lia.
  - intros k Hk. rewrite list_lookup_fmap, lookup_seq_lt by done. done.
  - intros HN' HB'. rewrite HB', HN'.
    change (ceil_div 120 50) with 3. simpl.
    rewrite !slice_length, HN, HN'. done.
Qed.

Lemma batch_partition_witness :
  ∃ windows,
    batch_windows ((λ s, create_contract s "STK" "SMART" "USD") <$> replicate 120 "X") 50
      = Return windows
    ∧ length <$> windows = [50; 50; 20].
Proof.
  destruct (batch_partition (λ (ib : unit) batch, (ib, mkReply untouched (Some batch))) tt
              (replicate 120 "X") "STK" "SMART" "USD" 50 ltac:(lia))
    as (windows & Hw & _ & _ & _ & _ & _ & Hsizes).
  exists windows. split; [exact Hw|]. apply Hsizes; reflexivity.
Defined.

End sequential_windows.

Section sequential_results.
Import Ibkr IbkrSpec Suppliers SuppliersSpec.

(** C1.  For an input list of N distinct identifiers each resolver
    returns a dictionary with exactly N keys, the keys are the input
    identifiers, and every identifier has one entry (a contract or a
    ticker, or [None]).  This holds for every behaviour of the session
    (any call may raise) and of the futures (any may raise, and one that
    returns hands back the name it was given, as the task of the pool
    does), in every completion order. *)
Theorem one_result_per_identifier {Session : Type}
    (qualifyContracts : Session → list Contract → Session * Reply)
    (ib : Session) (symbols : list string) (sec_type exchange currency : string)
    (batch_size : Z)
    (suppliers : list string) (submit : nat * string → Future)
    (as_completed : list nat) :
  NoDup symbols → (0 < batch_size)%Z →
  NoDup suppliers → as_completed ≡ₚ seq 0 (length suppliers) →
  returns_own_name submit →
  (∃ qualified_contracts,
      (qualify_contracts qualifyContracts true ib symbols sec_type exchange currency
         batch_size).2 = Return qualified_contracts
      ∧ size qualified_contracts = length symbols
      ∧ dom qualified_contracts = list_to_set symbols
      ∧ ∀ s, s ∈ symbols ↔ is_Some (qualified_contracts !! s))
  ∧ (let tickers := find_tickers suppliers submit as_completed in
     size tickers = length suppliers
     ∧ dom tickers = list_to_set suppliers
     ∧ ∀ s, s ∈ suppliers ↔ is_Some (tickers !! s))
  ∧ (∀ (World : Type) (search : nat → World → string → World * Response)
       (w0 : nat → World),
       returns_own_name (run_task search w0)).
Proof.
  intros Hsym Hb Hsup Hperm Hown. split; [|split].
  - destruct (qualify_contracts_result qualifyContracts ib symbols sec_type exchange
                currency batch_size Hb) as (windows & m & _ & Hrun & Hdom & _).
    exists m. rewrite Hrun. split; [done|]. split; [|split; [done|]].
    + rewrite <- size_dom, Hdom. by apply size_list_to_set.
    + intros s. rewrite <- elem_of_dom, Hdom. set_solver.
  - simpl. split; [by apply find_tickers_size|]. split; [by apply find_tickers_dom|].
    intros s. rewrite <- elem_of_dom, find_tickers_dom by done. set_solver.
  - intros World search w0. apply run_task_returns_own_name.
Qed.

Lemma one_result_per_identifier_witness :
  (∃ qualified_contracts,
      (qualify_contracts (λ (ib : unit) batch, (ib, mkReply untouched None)) true tt
         ["AAPL"; "MSFT"; "IBM"]
         "STK" "SMART" "USD" 2).2 = Return qualified_contracts
      ∧ size qualified_contracts = 3)
  ∧ size (find_tickers ["Foo Corporation"; "Bar"]
            (λ item, if item.1 =? 0 then mkFuture [] (Raise ServiceError)
                     else mkFuture ["Bar"] (Return (item.2, Some "BAR")))
            [1; 0]) = 2.
Proof.
  destruct (one_result_per_identifier (λ (ib : unit) batch, (ib, mkReply untouched None)) tt
              ["AAPL"; "MSFT"; "IBM"] "STK" "SMART" "USD" 2
              ["Foo Corporation"; "Bar"]
              (λ item, if item.1 =? 0 then mkFuture [] (Raise ServiceError)
                       else mkFuture ["Bar"] (Return (item.2, Some "BAR")))
              [1; 0])
    as [(m & Hm & Hsize & _) [(Hsize' & _) _]].
  - apply (bool_decide_unpack _). by vm_compute.
  - lia.
  - apply (bool_decide_unpack _). by vm_compute.
  - apply perm_swap.
  - intros [k s] supplier ticker. simpl. by destruct (k =? 0); intros [= <- _].
  - split; [exists m; split; [exact Hm|exact Hsize]|exact Hsize'].
Defined.

(** C10.  Whatever the input list, the keys of the dictionary
    [qualify_contracts] returns are the distinct input symbols; when a
    symbol is repeated there are fewer keys than inputs; and the value
    of a symbol is the one assigned for its last occurrence, that is,
    what the answer to the window of that occurrence gives the request
    of that occurrence. *)
Theorem duplicates_collapse {Session : Type}
    (qualifyContracts : Session → list Contract → Session * Reply)
    (ib : Session) (symbols : list string) (sec_type exchange currency : string)
    (batch_size : Z) :
  (0 < batch_size)%Z →
  let contracts := (λ s, create_contract s sec_type exchange currency) <$> symbols in
  ∃ windows qualified_contracts,
    batch_windows contracts batch_size = Return windows
    ∧ (qualify_contracts qualifyContracts true ib symbols sec_type exchange currency
         batch_size).2 = Return qualified_contracts
    ∧ dom qualified_contracts = list_to_set symbols
    ∧ (¬ NoDup symbols → size qualified_contracts < length symbols)
    ∧ ∀ p s, symbols !! p = Some s → last_occurrence symbols p →
        qualified_contracts !! s =
          Some (resolve (answer_at (answers qualifyContracts ib windows)
                           (p / Z.to_nat batch_size))
                  (request_left qualifyContracts ib windows (Z.to_nat batch_size) p
                     (create_contract s sec_type exchange currency))).
Proof.
  intros Hb contracts.
  destruct (qualify_contracts_result qualifyContracts ib symbols sec_type exchange
              currency batch_size Hb) as (windows & m & Hw & Hrun & Hdom & Hlook).
  exists windows, m. rewrite Hrun. split; [done|]. split; [done|].
  split; [done|]. split.
  - intros Hdup. rewrite <- size_dom, Hdom. by apply size_list_to_set_dup.
  - intros p s Hp Hlast. by destruct (Hlook p s Hp Hlast) as [_ ?].
Qed.

End sequential_results.

Section window_failures.
Import Ibkr IbkrSpec.

Lemma duplicates_collapse_witness :
  let session := λ (n : nat) (batch : list Contract),
                   (S n, mkReply untouched (if n =? 0 then Some batch else None)) in
  ∃ qualified_contracts,
    (qualify_contracts session true 0 ["BRK"; "IBM"; "BRK"] "STK" "SMART" "USD" 2).2
      = Return qualified_contracts
    ∧ size qualified_contracts < 3
    ∧ qualified_contracts !! "BRK" = Some None.
Proof.
  intros session.
  destruct (duplicates_collapse session 0 ["BRK"; "IBM"; "BRK"] "STK" "SMART" "USD" 2
              ltac:(lia))
    as (windows & m & Hw & Hrun & _ & Hsize & Hlook).
  exists m. split; [exact Hrun|]. split.
  - apply Hsize. intros Hnd. apply (bool_decide_pack _) in Hnd. by vm_compute in Hnd.
  - injection Hw as <-. rewrite (Hlook 2 "BRK" eq_refl).
    + reflexivity.
    + intros q s Hq _. by destruct q as [|[|[|q]]]; [lia..|].
Defined.

(** C4, as the code has it.  The run always returns.  If the call for
    window k raises, then every request of that window whose identifier
    does not come again later in the list is mapped to [None]; every
    request of another window whose identifier does not come again later
    is mapped to what the answer to its own window gives by the scan; and
    against any other session that answers the other windows alike (it
    returns the same lists and leaves the requests in the same state),
    these entries are the same.  With distinct identifiers this is every
    request.  Every window gets its call. *)
Theorem failure_containment {Session Session' : Type}
    (qualifyContracts : Session → list Contract → Session * Reply)
    (ib : Session)
    (qualifyContracts' : Session' → list Contract → Session' * Reply)
    (ib' : Session')
    (symbols : list string) (sec_type exchange currency : string)
    (batch_size : Z) (k : nat) :
  (0 < batch_size)%Z →
  let contracts := (λ s, create_contract s sec_type exchange currency) <$> symbols in
  let B := Z.to_nat batch_size in
  ∃ windows qualified_contracts qualified_contracts',
    batch_windows contracts batch_size = Return windows
    ∧ (qualify_contracts qualifyContracts true ib symbols sec_type exchange currency
         batch_size).2 = Return qualified_contracts
    ∧ (qualify_contracts qualifyContracts' true ib' symbols sec_type exchange currency
         batch_size).2 = Return qualified_contracts'
    ∧ length (answers qualifyContracts ib windows) = ceil_div (length symbols) B
    ∧ (answers qualifyContracts ib windows !! k = Some None →
        (∀ p s, symbols !! p = Some s → last_occurrence symbols p → p / B = k →
           qualified_contracts !! s = Some None)
        ∧ (∀ p s, symbols !! p = Some s → last_occurrence symbols p → p / B ≠ k →
             qualified_contracts !! s =
               Some (resolve (answer_at (answers qualifyContracts ib windows) (p / B))
                       (request_left qualifyContracts ib windows B p
                          (create_contract s sec_type exchange currency))))
        ∧ ((∀ w, w ≠ k →
              answers qualifyContracts ib windows !! w
              = answers qualifyContracts' ib' windows !! w
              ∧ requests qualifyContracts ib windows !! w
                = requests qualifyContracts' ib' windows !! w) →
           ∀ p s, symbols !! p = Some s → last_occurrence symbols p → p / B ≠ k →
             qualified_contracts !! s = qualified_contracts' !! s)).
Proof.
  intros Hb contracts B.
  destruct (qualify_contracts_result qualifyContracts ib symbols sec_type exchange
              currency batch_size Hb) as (windows & m & Hw & Hrun & _ & Hlook).
  destruct (qualify_contracts_result qualifyContracts' ib' symbols sec_type exchange
              currency batch_size Hb) as (windows' & m' & Hw' & Hrun' & _ & Hlook').
  fold contracts in Hw, Hw'. rewrite Hw in Hw'. injection Hw' as <-.
  exists windows, m, m'. rewrite Hrun, Hrun'. fold B in Hlook, Hlook'.
  split; [done|]. split; [done|]. split; [done|]. split.
  - rewrite answers_length. rewrite batch_windows_positive in Hw by done.
    injection Hw as <-. unfold contracts, B.
    by rewrite !length_fmap, length_seq.
  - intros Hraise. split; [|split].
    + intros p s Hp Hlast Hk. destruct (Hlook p s Hp Hlast) as [_ ->].
      rewrite Hk. unfold answer_at. by rewrite Hraise.
    + intros p s Hp Hlast _. by destruct (Hlook p s Hp Hlast) as [_ ?].
    + intros Hsame p s Hp Hlast Hk.
      destruct (Hlook p s Hp Hlast) as [Hreq ->].
      destruct (Hlook' p s Hp Hlast) as [Hreq' ->].
      destruct (Hsame (p / B) Hk) as [Hanswers Hrequests].
      unfold request_at in Hreq, Hreq'. rewrite Hrequests, Hreq' in Hreq.
      injection Hreq as <-. unfold answer_at. by rewrite Hanswers.
Qed.

Lemma failure_containment_witness :
  let failing := λ (n : nat) (batch : list Contract),
                   (S n, mkReply untouched (if n =? 1 then None else Some batch)) in
  let healthy := λ (_ : unit) (batch : list Contract),
                   (tt, mkReply untouched (Some batch)) in
  ∃ qualified_contracts qualified_contracts',
    (qualify_contracts failing true 0 ["A"; "B"; "C"] "STK" "SMART" "USD" 1).2
      = Return qualified_contracts
    ∧ (qualify_contracts healthy true tt ["A"; "B"; "C"] "STK" "SMART" "USD" 1).2
      = Return qualified_contracts'
    ∧ qualified_contracts !! "B" = Some None
    ∧ qualified_contracts !! "C" = qualified_contracts' !! "C".
Proof.
  intros failing healthy.
  destruct (failure_containment failing 0 healthy tt ["A"; "B"; "C"]
              "STK" "SMART" "USD" 1 1 ltac:(lia))
    as (windows & m & m' & Hw & Hrun & Hrun' & _ & Hk).
  injection Hw as <-.
  destruct (Hk eq_refl) as (Hnull & _ & Hsame).
  assert (NoDup ["A"; "B"; "C"]) as Hnd
    by (apply (bool_decide_unpack _); by vm_compute).
  exists m, m'. split; [exact Hrun|]. split; [exact Hrun'|]. split.
  - apply (Hnull 1 "B" eq_refl); [by apply NoDup_last_occurrence|reflexivity].
  - apply (Hsame ltac:(by intros [|[|[|w]]]) 2 "C" eq_refl);
      [by apply NoDup_last_occurrence|by vm_compute].
Defined.

Lemma failure_containment_counterexample :
  let session := λ (n : nat) (batch : list Contract),
                   (S n, mkReply untouched (if n =? 0 then Some batch else None)) in
  let cA := create_contract "A" "STK" "SMART" "USD" in
  batch_windows [cA; cA] 1 = Return [[cA]; [cA]]
  ∧ answers session 0 [[cA]; [cA]] = [Some [cA]; None]
  ∧ resolve (Some [cA]) cA = Some cA
  ∧ ∃ qualified_contracts,
      (qualify_contracts session true 0 ["A"; "A"] "STK" "SMART" "USD" 1).2
        = Return qualified_contracts
      ∧ qualified_contracts !! "A" = Some None.
Proof.
  intros session cA. split; [reflexivity|]. split; [reflexivity|].
  split; [reflexivity|].
  eexists. split; [reflexivity|]. reflexivity.
Qed.

End window_failures.

Section matching.
Import Ibkr IbkrSpec.

Lemma key_matches_spec c q :
  key_matches c q = true ↔
    symbol q = symbol c ∧ currency q = currency c ∧ secType q = secType c.
Proof.
  unfold key_matches. rewrite !andb_true_iff, !bool_decide_eq_true. tauto.
Qed.

Lemma scan_Some c qualified_batch q :
  scan c qualified_batch = Some q ↔
    ∃ before after,
      qualified_batch = before ++ q :: after
      ∧ key_matches c q = true
      ∧ Forall (λ r, key_matches c r = false) before.
Proof.
  induction qualified_batch as [|r rest IH]; simpl.
  - split; [done|]. intros (before & after & Heq & _). by destruct before.
  - destruct (key_matches c r) eqn:Hr.
    + split.
      * intros [= <-]. by exists [], rest.
      * intros ([|r' before] & after & Heq & Hq & Hall).
        -- by injection Heq as <- _.
        -- injection Heq as <- _. apply Forall_cons in Hall as [Hr' _]. congruence.
    + rewrite IH. split.
      * intros (before & after & -> & Hq & Hall).
        exists (r :: before), after. by repeat split; [|constructor].
      * intros ([|r' before] & after & Heq & Hq & Hall).
        -- injection Heq as <- _. congruence.
        -- injection Heq as <- ->. apply Forall_cons in Hall as [_ Hall].
           by exists before, after.
Qed.

Lemma scan_None c qualified_batch :
  scan c qualified_batch = None ↔ Forall (λ r, key_matches c r = false) qualified_batch.
Proof.
  induction qualified_batch as [|r rest IH]; simpl; [by split; [constructor|]|].
  destruct (key_matches c r) eqn:Hr.
  - split; [done|]. intros [Hr' _]%Forall_cons. congruence.
  - rewrite IH. split; [by constructor|]. by intros [_ ?]%Forall_cons.
Qed.





End matching.

Section lookup_chain.
Import Suppliers SuppliersSpec.

Lemma search_ticker_terms {World} (search : World → string → World * Response)
    w company_name search_terms :
  build_search_terms company_name = Return search_terms →
  (search_ticker search w company_name).1.2
    = (query_terms search search_terms w []).1.2
  ∧ (search_ticker search w company_name).2
    = Return (query_terms search search_terms w []).2.
Proof.
  intros Hterms. unfold search_ticker. rewrite Hterms.
  by destruct (query_terms search search_terms w []) as [[w' queried] ticker].
Qed.

Lemma build_search_terms_spec company_name first_word more :
  Py.split company_name = first_word :: more →
  let clean_name := Py.strip (remove_suffixes company_name) in
  build_search_terms company_name =
    Return (company_name
            :: (if bool_decide (clean_name ≠ "" ∧ clean_name ≠ company_name)
                then [clean_name] else [])
            ++ (if bool_decide (2 < Py.len first_word) then [first_word] else [])).
Proof.
  intros Hsplit clean_name. unfold build_search_terms. rewrite Hsplit. simpl.
  fold clean_name.
  destruct (Nat.ltb_spec 2 (Py.len first_word)) as [Hlen|Hlen].
  - rewrite (bool_decide_eq_true_2 (2 < Py.len first_word)) by done.
    destruct (Py.truthy clean_name) eqn:Ht; simpl.
    + apply truthy_spec in Ht. destruct (decide (clean_name = company_name)) as [Heq|Hne].
      * rewrite (bool_decide_eq_false_2 (clean_name ≠ company_name)) by tauto.
        by rewrite (bool_decide_eq_false_2 (_ ∧ _)) by tauto.
      * rewrite (bool_decide_eq_true_2 (clean_name ≠ company_name)) by done.
        by rewrite (bool_decide_eq_true_2 (_ ∧ _)) by done.
    + assert (clean_name = "") as Hempty by (by destruct clean_name).
      by rewrite (bool_decide_eq_false_2 (_ ∧ _)) by tauto.
  - rewrite (bool_decide_eq_false_2 (2 < Py.len first_word)) by lia.
    destruct (Py.truthy clean_name) eqn:Ht; simpl.
    + apply truthy_spec in Ht. destruct (decide (clean_name = company_name)) as [Heq|Hne].
      * rewrite (bool_decide_eq_false_2 (clean_name ≠ company_name)) by tauto.
        by rewrite (bool_decide_eq_false_2 (_ ∧ _)) by tauto.
      * rewrite (bool_decide_eq_true_2 (clean_name ≠ company_name)) by done.
        by rewrite (bool_decide_eq_true_2 (_ ∧ _)) by done.
    + assert (clean_name = "") as Hempty by (by destruct clean_name).
      by rewrite (bool_decide_eq_false_2 (_ ∧ _)) by tauto.
Qed.

(** C5, as the code has it.  For a name with at least one token the
    chain is: the full name; then the name with the corporate words
    removed and trimmed, when that is not empty and differs from the full
    name; then the first whitespace-delimited token, when it is longer
    than 2 characters.  The terms sent to the endpoint are the terms of
    the chain of length at least 2, in order, up to the first accepted
    one, and all of them when none is accepted.  Nothing removes a
    repeated term: for "Foo Corporation" the chain is
    ["Foo Corporation"; "Foo"; "Foo"], and when nothing is accepted "Foo"
    is queried twice. *)
Theorem fallback_chain (company_name first_word : string) (more : list string) :
  Py.split company_name = first_word :: more →
  let clean_name := Py.strip (remove_suffixes company_name) in
  let search_terms :=
    company_name
    :: (if bool_decide (clean_name ≠ "" ∧ clean_name ≠ company_name)
        then [clean_name] else [])
    ++ (if bool_decide (2 < Py.len first_word) then [first_word] else []) in
  build_search_terms company_name = Return search_terms
  ∧ (∀ (World : Type) (search : World → string → World * Response) (w : World),
       ∃ rest,
         long_terms search_terms = (search_ticker search w company_name).1.2 ++ rest
         ∧ ((search_ticker search w company_name).2 = Return None → rest = []))
  ∧ build_search_terms "Foo Corporation" = Return ["Foo Corporation"; "Foo"; "Foo"]
  ∧ (∀ (World : Type) (search : World → string → World * Response) (w : World),
       never_accepts search →
       (search_ticker search w "Foo Corporation").1.2 = ["Foo Corporation"; "Foo"; "Foo"]).
Proof.
  intros Hsplit clean_name search_terms.
  pose proof (build_search_terms_spec company_name first_word more Hsplit) as Hterms.
  fold clean_name search_terms in Hterms.
  split; [done|]. split; [|split; [reflexivity|]].
  - intros World search w.
    destruct (search_ticker_terms search w company_name search_terms Hterms)
      as [-> ->].
    destruct (query_terms_queried search search_terms w [])
      as (queried & rest & Hq & Hl & Hnone & _).
    exists rest. rewrite Hq, Hl. split; [done|]. intros [= Hn]. by apply Hnone.
  - intros World search w Hnever.
    destruct (search_ticker_terms search w "Foo Corporation"
                ["Foo Corporation"; "Foo"; "Foo"] eq_refl) as [-> _].
    by destruct (query_terms_never_accepts search
                   ["Foo Corporation"; "Foo"; "Foo"] w [] Hnever) as [-> _].
Qed.

Lemma fallback_chain_witness :
  build_search_terms "Tech Data Corp" = Return ["Tech Data Corp"; "Data"; "Tech"]
  ∧ build_search_terms "3M Co" = Return ["3M Co"].
Proof.
  split.
  - exact (proj1 (fallback_chain "Tech Data Corp" "Tech" ["Data"; "Corp"] eq_refl)).
  - exact (proj1 (fallback_chain "3M Co" "3M" ["Co"] eq_refl)).
Defined.

Lemma fallback_chain_counterexample :
  let search := λ (w : unit) (term : string), (w, SearchReturns (Some [])) in
  build_search_terms "Foo Corporation" = Return ["Foo Corporation"; "Foo"; "Foo"]
  ∧ search_ticker search tt "Foo Corporation"
    = (tt, ["Foo Corporation"; "Foo"; "Foo"], Return None)
  ∧ ["Foo Corporation"; "Foo"; "Foo"] ≠ ["Foo Corporation"; "Foo"]
  ∧ ¬ NoDup ["Foo Corporation"; "Foo"; "Foo"].
Proof.
  intros search. split; [reflexivity|]. split; [reflexivity|]. split; [done|].
  intros Hnd. apply (bool_decide_pack _) in Hnd. by vm_compute in Hnd.
Qed.

(** C6, as the code has it.  At a term of the chain that is queried,
    the lookup stops there with symbol s if and only if the search
    returns at least one result whose first entry carries the non-empty
    symbol s and either is flagged as an equity or has no type flag; in
    every other case (also when the call raises) it goes on with the next
    term; and when the chain is exhausted the result is [None]. *)
Theorem acceptance_rule {World : Type} (search : World → string → World * Response)
    (w : World) (term : string) (rest queried : list string) (symbol : string) :
  2 ≤ Py.len term →
  (query_terms search (term :: rest) w queried
     = ((search w term).1, queried ++ [term], Some symbol)
   ↔ accepted (search w term).2 symbol)
  ∧ ((∀ s, ¬ accepted (search w term).2 s) →
     query_terms search (term :: rest) w queried
       = query_terms search rest (search w term).1 (queried ++ [term]))
  ∧ query_terms search [] w queried = (w, queried, None).
Proof.
  intros Hlen. rewrite query_terms_long by done. split; [|split; [|done]].
  - rewrite <- response_match_spec.
    destruct (response_match (search w term).2) as [s|] eqn:Hm.
    + split; [by intros [= ->]|by intros [= ->]].
    + split; [|done]. intros Hq.
      destruct (query_terms_queried search rest (search w term).1 (queried ++ [term]))
        as (more' & rest' & Hlog & _ & _ & Hsome).
      rewrite Hq in Hlog, Hsome. simpl in Hlog, Hsome.
      destruct Hsome; [by eexists|].
      apply (f_equal length) in Hlog. rewrite !length_app in Hlog.
      destruct more'; [done|simpl in Hlog; lia].
  - intros Hnot. by rewrite (proj2 (response_match_None _)).
Qed.

Lemma acceptance_rule_witness :
  let search := λ (w : nat) (term : string),
    (S w, if w =? 0 then SearchReturns (Some [mkQuote (Some "FOO.L") (Some "ETF")])
          else SearchReturns (Some [mkQuote (Some "FOO") (Some "Equity")])) in
  query_terms search ["Foo Corporation"; "Foo"] 0 []
    = (2, ["Foo Corporation"; "Foo"], Some "FOO").
Proof.
  intros search.
  destruct (acceptance_rule search 0 "Foo Corporation" ["Foo"] [] "FOO" ltac:(simpl; lia))
    as (_ & Hnext & _).
  rewrite Hnext.
  - apply (acceptance_rule search 1 "Foo" [] ["Foo Corporation"] "FOO" ltac:(simpl; lia)).
    exists (mkQuote (Some "FOO") (Some "Equity")), [].
    repeat split; [done|]. left. by exists "Equity".
  - intros s (quote & more & [= <- <-] & _ & _ & [(ty & [= <-] & Hty)|Hty]); done.
Defined.

Lemma acceptance_rule_counterexample :
  let response := SearchReturns (Some [mkQuote None (Some "EQUITY")]) in
  let search := λ (w : unit) (term : string), (w, response) in
  first_result_eligible response
  ∧ query_terms search ["Acme"] tt [] = (tt, ["Acme"], None)
  ∧ search_ticker search tt "Acme" = (tt, ["Acme"; "Acme"], Return None).
Proof.
  intros response search. split; [|split; reflexivity].
  exists (mkQuote None (Some "EQUITY")), []. split; [done|]. left. by exists "EQUITY".
Qed.

End lookup_chain.

Section pool_tasks.
Import Suppliers SuppliersSpec PoolSpec.

Lemma query_terms_first_accepted {World} (search : World → string → World * Response)
    search_terms :
  ∀ w queried,
    (query_terms search search_terms w queried).2
    = first_accepted search w (long_terms search_terms).
Proof.
  induction search_terms as [|term rest IH]; intros w queried; [done|].
  unfold long_terms in *.
  destruct (decide (Py.len term < 2)) as [Hshort|Hlong].
  - rewrite query_terms_short by done. rewrite filter_cons_False by lia. apply IH.
  - rewrite query_terms_long by lia. rewrite filter_cons_True by lia. simpl.
    destruct (response_match (search w term).2); [done|]. apply IH.
Qed.

Lemma query_terms_absorbing {World} (search : World → string → World * Response)
    search_terms :
  ∀ w queried,
    query_terms search search_terms w queried
    = query_terms (absorbing search) search_terms w queried.
Proof.
  induction search_terms as [|term rest IH]; intros w queried; [done|].
  simpl. destruct (Py.len term <? 2); [apply IH|].
  unfold absorbing at 1.
  destruct (search w term) as [w' [|quotes]]; [apply IH|].
  destruct (first_match quotes); [done|apply IH].
Qed.

(** C8, as the code has it.  [search_ticker] never raises.  For a name
    with no token (empty or only whitespace) it returns [None] without
    calling the endpoint.  An exception of a search call is caught and
    counts as no match for that term only: the lookup does exactly what
    it does when every call that raises returns no result instead, and
    what it returns is the first symbol accepted along the terms of the
    chain of length at least 2, a call that raises leading on to the next
    term.  So it returns [None] when no call yields an accepted result,
    in particular when every call raises.  In [find_tickers], over the
    names the run extracts, the entry of a name is what its own future
    yields, [None] when the future raises, in every completion order; so
    a task that fails leaves the entries of all other names as they
    are. *)
Theorem task_failures_absorbed {World : Type}
    (search : World → string → World * Response) (w : World) (company_name : string)
    (extracted : result (list string)) :
  (∃ ticker, (search_ticker search w company_name).2 = Return ticker)
  ∧ (Py.split company_name = [] →
     search_ticker search w company_name = (w, [], Return None))
  ∧ (never_accepts search → (search_ticker search w company_name).2 = Return None)
  ∧ ((∀ w' term, (search w' term).2 = SearchRaises) →
     (search_ticker search w company_name).2 = Return None)
  ∧ search_ticker search w company_name
    = search_ticker (absorbing search) w company_name
  ∧ (∀ search_terms,
       build_search_terms company_name = Return search_terms →
       (search_ticker search w company_name).2
       = Return (first_accepted search w (long_terms search_terms)))
  ∧ (let suppliers := download_and_parse_pdf extracted in
     ∀ (submit submit' : nat * string → Future) (as_completed as_completed' : list nat)
       (k : nat) (s : string),
       returns_own_name submit → returns_own_name submit' →
       as_completed ≡ₚ seq 0 (length suppliers) →
       as_completed' ≡ₚ seq 0 (length suppliers) →
       suppliers !! k = Some s →
       find_tickers suppliers submit as_completed !! s = Some (stored (submit (k, s)))
       ∧ (∀ e, outcome (submit (k, s)) = Raise e →
            find_tickers suppliers submit as_completed !! s = Some None)
       ∧ ((∀ item, item.1 ≠ k → submit item = submit' item) →
          ∀ j t, j ≠ k → suppliers !! j = Some t →
            find_tickers suppliers submit as_completed !! t
            = find_tickers suppliers submit' as_completed' !! t)).
Proof.
  assert (never_accepts search → (search_ticker search w company_name).2 = Return None)
    as Hnever.
  { intros Hnever. unfold search_ticker.
    destruct (build_search_terms company_name) as [terms|e]; [|done].
    destruct (query_terms_never_accepts search terms w [] Hnever) as [_ Hnone].
    destruct (query_terms search terms w []) as [[w' queried] ticker].
    simpl in *. by subst. }
  split; [apply search_ticker_returns|]. split; [apply search_ticker_blank|].
  split; [done|]. split; [|split; [|split]].
  - intros Hraise. apply Hnever. intros w' term symbol (? & ? & Heq & _).
    by rewrite Hraise in Heq.
  - unfold search_ticker.
    destruct (build_search_terms company_name) as [terms|e]; [|done].
    by rewrite <- query_terms_absorbing.
  - intros search_terms Hterms. unfold search_ticker. rewrite Hterms.
    pose proof (query_terms_first_accepted search search_terms w []) as Hfirst.
    destruct (query_terms search search_terms w []) as [[w' queried] ticker].
    simpl in *. by subst.
  - intros suppliers submit submit' order order' k s Hown Hown' Hperm Hperm' Hk.
    pose proof (download_and_parse_pdf_NoDup extracted) as Hnd.
    fold suppliers in Hnd.
    rewrite (find_tickers_lookup suppliers submit order k s) by done.
    split; [done|]. split.
    + intros e He. unfold stored. by rewrite He.
    + intros Hsame j t Hj Ht.
      rewrite (find_tickers_lookup suppliers submit order j t) by done.
      rewrite (find_tickers_lookup suppliers submit' order' j t) by done.
      by rewrite (Hsame (j, t)).
Qed.

Lemma task_failures_absorbed_witness :
  let down := λ (w : nat) (term : string), (S w, SearchRaises) in
  let up := λ (w : nat) (term : string),
    (S w, SearchReturns (Some [mkQuote (Some (Py.upper term)) None])) in
  let submit := run_task (λ i, if i =? 1 then down else up) (λ _, 0) in
  let submit' := run_task (λ _, up) (λ _, 0) in
  let suppliers := download_and_parse_pdf (Return ["Abc"; "Foo Inc"; "Abc"; "Xyz"]) in
  (search_ticker down 0 "Foo Inc").2 = Return None
  ∧ search_ticker up 0 "   " = (0, [], Return None)
  ∧ find_tickers suppliers submit [2; 0; 1] !! "Foo Inc" = Some None
  ∧ find_tickers suppliers submit [2; 0; 1] !! "Xyz"
    = find_tickers suppliers submit' [0; 1; 2] !! "Xyz".
Proof.
  intros down up submit submit' suppliers.
  destruct (task_failures_absorbed down 0 "Foo Inc" (Return [])) as (_ & _ & _ & Hdown & _).
  destruct (task_failures_absorbed up 0 "   "
              (Return ["Abc"; "Foo Inc"; "Abc"; "Xyz"]))
    as (_ & Hblank & _ & _ & _ & _ & Hpool).
  split; [by apply Hdown|]. split; [by apply Hblank|].
  destruct (Hpool submit submit' [2; 0; 1] [0; 1; 2] 1 "Foo Inc") as (Hown & _ & Hother).
  - apply run_task_returns_own_name.
  - apply run_task_returns_own_name.
  - change (seq 0 _) with [0; 1; 2]. by rewrite (Permutation_cons_append [0; 1] 2).
  - reflexivity.
  - reflexivity.
  - split; [exact Hown|].
    apply (Hother ltac:(by intros [[|[|i]] t] ?) 2 "Xyz"); [lia|reflexivity].
Defined.

Lemma task_failures_absorbed_counterexample :
  let search := λ (w : unit) (term : string),
    (w, if String.eqb term "Foo Corporation" then SearchRaises
        else SearchReturns (Some [mkQuote (Some "FOO") (Some "EQUITY")])) in
  (search tt "Foo Corporation").2 = SearchRaises
  ∧ search_ticker search tt "Foo Corporation"
    = (tt, ["Foo Corporation"; "Foo"], Return (Some "FOO")).
Proof. intros search. split; reflexivity. Qed.

End pool_tasks.

Section normalizer_contract_section.
Import Ibkr SuppliersSpec.

(** C7, as the code has it.  The list [load_symbols_from_file] returns
    is obtained in two steps.  First the entries that are empty or only
    whitespace are dropped (the others are kept as they are, not
    trimmed), duplicates are removed and the rest is sorted: this list is
    sorted, has no duplicates, and holds exactly the non-blank entries of
    the input.  Then every entry is cut before its first dot.  So every
    returned entry has no dot and is the part before the first dot of a
    non-blank input entry, and there are at most as many as inputs.  When
    no non-blank input entry has a dot or surrounding whitespace, the
    returned list is itself sorted, free of duplicates and of empty
    entries, trimmed, and holds exactly the non-blank input entries. *)
Theorem normalizer_contract (symbols : list string) :
  load_symbols_from_file symbols = strip_class (unique_sorted symbols)
  ∧ StronglySorted String.le (unique_sorted symbols)
  ∧ NoDup (unique_sorted symbols)
  ∧ (∀ s, s ∈ unique_sorted symbols ↔ s ∈ symbols ∧ s ≠ "" ∧ Py.strip s ≠ "")
  ∧ length (load_symbols_from_file symbols) ≤ length symbols
  ∧ Forall (λ t, has_dot t = false) (load_symbols_from_file symbols)
  ∧ (∀ t, t ∈ load_symbols_from_file symbols ↔
       ∃ s, s ∈ symbols ∧ s ≠ "" ∧ Py.strip s ≠ "" ∧ t = Py.before_dot s)
  ∧ (Forall (λ s, Py.strip s ≠ "" → has_dot s = false ∧ Py.strip s = s) symbols →
     StronglySorted String.le (load_symbols_from_file symbols)
     ∧ NoDup (load_symbols_from_file symbols)
     ∧ Forall (λ t, t ≠ "" ∧ Py.strip t = t) (load_symbols_from_file symbols)
     ∧ ∀ s, s ∈ load_symbols_from_file symbols ↔ s ∈ symbols ∧ Py.strip s ≠ "").
Proof.
  split; [done|]. split; [apply unique_sorted_sorted|].
  split; [apply unique_sorted_NoDup|]. split; [apply unique_sorted_elem|].
  unfold load_symbols_from_file, strip_class. split; [|split; [|split]].
  - rewrite length_fmap. apply unique_sorted_length.
  - apply Forall_fmap, Forall_forall. intros s _. apply before_dot_no_dot.
  - intros t. rewrite list_elem_of_fmap. split.
    + intros (s & -> & (? & ? & ?)%unique_sorted_elem). by exists s.
    + intros (s & ? & ? & ? & ->). exists s. split; [done|].
      by apply unique_sorted_elem.
  - intros Hclean.
    assert (Forall (λ s, has_dot s = false) (unique_sorted symbols)) as Hdots.
    { apply Forall_forall. intros s (Hs & _ & Hstrip)%unique_sorted_elem.
      by destruct (proj1 (Forall_forall _ _) Hclean s Hs Hstrip). }
    fold (strip_class (unique_sorted symbols)). rewrite strip_class_id by done.
    split; [apply unique_sorted_sorted|]. split; [apply unique_sorted_NoDup|]. split.
    + apply Forall_forall. intros s (Hs & Hne & Hstrip)%unique_sorted_elem.
      split; [done|]. by destruct (proj1 (Forall_forall _ _) Hclean s Hs Hstrip).
    + intros s. rewrite unique_sorted_elem. split; [tauto|].
      intros [Hs Hstrip]. split; [done|]. split; [|done].
      intros ->. by apply Hstrip.
Qed.

Lemma normalizer_contract_witness :
  load_symbols_from_file ["MSFT"; ""; "AAPL"; "  "; "MSFT"; "IBM"] = ["AAPL"; "IBM"; "MSFT"]
  ∧ StronglySorted String.le (load_symbols_from_file ["MSFT"; ""; "AAPL"; "  "; "MSFT"; "IBM"])
  ∧ NoDup (load_symbols_from_file ["MSFT"; ""; "AAPL"; "  "; "MSFT"; "IBM"]).
Proof.
  destruct (normalizer_contract ["MSFT"; ""; "AAPL"; "  "; "MSFT"; "IBM"])
    as (_ & _ & _ & _ & _ & _ & _ & Hclean).
  destruct Hclean as (Hsorted & Hnodup & _).
  - repeat constructor; by vm_compute.
  - split; [by vm_compute|]. split; [exact Hsorted|exact Hnodup].
Defined.

Lemma normalizer_contract_counterexample :
  load_symbols_from_file [" A"] = [" A"] ∧ Py.strip " A" = "A" ∧ Py.strip " A" ≠ " A".
Proof. split; [by vm_compute|]. split; [reflexivity|done]. Qed.

End normalizer_contract_section.

Section run_summary.
Import Suppliers SuppliersSpec.

Lemma write_files_raises {Files Document} (disk : Os.Disk Files Document)
    documents :
  ∀ files e, (Os.write_files disk documents files).2 = Raise e → e = OSError.
Proof.
  induction documents as [|d documents IH]; intros files e; simpl; [done|].
  destruct (Os.disk_write disk files d) as [files' [|]]; [apply IH|].
  by intros [= <-].
Qed.

Lemma mkdir_and_write_raises {Files Document} (disk : Os.Disk Files Document)
    documents files e :
  (Os.mkdir_and_write disk documents files).2 = Raise e → e = OSError.
Proof.
  unfold Os.mkdir_and_write.
  destruct (Os.disk_mkdir disk files) as [files' [|]]; [apply write_files_raises|].
  by intros [= <-].
Qed.

(** C9, as the code has it.  A run asks the web server for the list once
    and never fails with a division error.  When names were extracted, it
    resolves them and writes its files; if a file operation fails the run
    ends with that error, and otherwise it returns [True] and the rate it
    prints is the number of resolved names divided by the number of
    resolved plus unresolved names, times 100, computed in binary floating
    point and shown with one decimal; that denominator is the number of
    names and is not 0.  When no name was extracted, the run stops before
    any resolution: it returns [False], computes and prints no rate at
    all, leaves the result dictionary empty, sends nothing to the search
    endpoint and does not touch the disk. *)
Theorem success_rate_and_empty_input {Web Files : Type}
    (get_and_scan : Web → Web * result (list string))
    (disk : Os.Disk Files Saved) (web : Web)
    (submit : nat * string → Future) (as_completed : list nat) (files : Files) :
  let suppliers := download_and_parse_pdf (get_and_scan web).2 in
  let tickers := find_tickers suppliers submit as_completed in
  let resolved := count_found tickers in
  let unresolved := count_missing tickers in
  let saved := save_results disk suppliers tickers files in
  let outcome := run get_and_scan disk web submit as_completed files in
  returns_own_name submit →
  as_completed ≡ₚ seq 0 (length suppliers) →
  outcome.1.1 = (get_and_scan web).1
  ∧ outcome.2 ≠ Raise ZeroDivisionError
  ∧ (suppliers = [] →
     outcome = (((get_and_scan web).1, files), Return (mkRun false [] ∅ None [])))
  ∧ (suppliers ≠ [] →
     resolved + unresolved = length suppliers
     ∧ 0 < resolved + unresolved
     ∧ outcome.1.2 = saved.1
     ∧ (∀ e, saved.2 = Raise e → e = OSError ∧ outcome.2 = Raise OSError)
     ∧ (saved.2 = Return tt →
        outcome.2 =
          Return (mkRun true suppliers tickers
                    (Some (Float.format_1f
                             (Float.mul
                                (Float.div (Float.of_nat resolved)
                                   (Float.of_nat (resolved + unresolved)))
                                (Float.of_nat 100))))
                    (mjoin ((λ item, queried (submit item)) <$> enumerate suppliers))))).
Proof.
  intros suppliers tickers resolved unresolved saved outcome Hown Hperm.
  unfold outcome, run. fold suppliers in Hperm |- *.
  destruct (get_and_scan web) as [web' extracted] eqn:Hget. simpl in suppliers.
  fold suppliers. fold tickers.
  destruct (decide (suppliers = [])) as [Hempty|Hne].
  - rewrite bool_decide_eq_true_2 by done. simpl.
    split; [done|]. split; [done|]. split; [by rewrite Hempty|done].
  - rewrite bool_decide_eq_false_2 by done.
    assert (0 < length suppliers) as Hlen by (destruct suppliers; [done|simpl; lia]).
    assert (resolved + unresolved = length suppliers) as Hsum.
    { unfold resolved, unresolved. rewrite count_found_missing.
      apply find_tickers_size; [|done..]. apply download_and_parse_pdf_NoDup. }
    rewrite success_rate_nonzero by done. fold saved.
    pose proof (mkdir_and_write_raises disk
                  [apple_suppliers_txt suppliers;
                   apple_supplier_tickers_json tickers;
                   apple_supplier_tickers_csv tickers;
                   ticker_list_txt tickers;
                   found_tickers_only_json (filter (λ kv, is_Some kv.2) tickers)]
                  files) as Hsaved.
    change (Os.mkdir_and_write disk _ files) with saved in Hsaved.
    destruct saved as [files' [[]|e]] eqn:Hsave; simpl.
    + split; [done|]. split; [done|]. split; [done|]. intros _.
      split; [done|]. split; [lia|]. split; [done|]. split; [done|].
      intros _. by rewrite Hsum.
    + rewrite (Hsaved e eq_refl). split; [done|]. split; [done|]. split; [done|].
      intros _. split; [done|]. split; [lia|]. split; [done|]. split; [|done].
      by intros e' [= <-].
Qed.

Lemma success_rate_and_empty_input_witness :
  let get_and_scan := λ n : nat, (S n, Return ["Foo"; "Bar"; "Foo"; "Baz"; "Qux"]) in
  let disk := Os.mkDisk (λ n : nat, (n, true)) (λ (n : nat) (_ : Saved), (S n, true)) in
  let submit := λ item : nat * string,
    mkFuture [item.2] (Return (item.2, if item.1 =? 0 then Some "FOO" else None)) in
  let outcome := run get_and_scan disk 0 submit [3; 1; 0; 2] 0 in
  outcome.1 = (1, 5)
  ∧ ∃ r, outcome.2 = Return r ∧ returned_value r = true ∧ printed_rate r = Some "25.0".
Proof.
  intros get_and_scan disk submit outcome.
  destruct (success_rate_and_empty_input get_and_scan disk 0 submit [3; 1; 0; 2] 0)
    as (Hweb & _ & _ & Hrate).
  - by intros [k s] supplier ticker [= <- _].
  - change (seq 0 _) with [0; 1; 2; 3].
    rewrite (Permutation_cons_append [1; 0; 2] 3). simpl.
    rewrite (Permutation_swap 1 0 [2; 3]). done.
  - destruct (Hrate ltac:(done)) as (_ & _ & Hfiles & _ & Hprinted).
    fold outcome in Hweb, Hfiles, Hprinted. split.
    + rewrite (surjective_pairing outcome.1), Hweb, Hfiles. reflexivity.
    + eexists. split; [exact (Hprinted eq_refl)|]. split; reflexivity.
Defined.

(** On empty input no rate of 0 is computed or printed, and the web
    server has been asked for the list: that is how the input came to be
    empty. *)
Lemma success_rate_and_empty_input_counterexample :
  let get_and_scan := λ n : nat, (S n, Return []) in
  let disk := Os.mkDisk (λ n : nat, (S n, true)) (λ (n : nat) (_ : Saved), (S n, true)) in
  let submit := λ item : nat * string, mkFuture [] (Raise ServiceError) in
  run get_and_scan disk 0 submit [] 0 = ((1, 0), Return (mkRun false [] ∅ None []))
  ∧ printed_rate (mkRun false [] ∅ None []) ≠ Some "0.0"
  ∧ 1 ≠ 0.
Proof. intros get_and_scan disk submit. split; [reflexivity|]. split; [done|lia]. Qed.

End run_summary.

(** * Further properties *)

(** ** Dictionaries in insertion order *)

Section ordered_dict.
Import Suppliers ManagerSpec.
Context {V : Type}.
Implicit Types (d : list (string * V)) (ws : list (string * V)).

Lemma setitem_to_map d k v :
  (list_to_map (PyDict.setitem d k v) : gmap string V) = <[k := v]> (list_to_map d).
Proof.
  induction d as [|[k' v'] d IH]; simpl; [done|].
  case_decide as Hk; simpl.
  - subst k'. by rewrite insert_insert_eq.
  - rewrite IH. by apply insert_insert_ne.
Qed.

Lemma setitem_keys d k v :
  (PyDict.setitem d k v).*1 = if decide (k ∈ d.*1) then d.*1 else d.*1 ++ [k].
Proof.
  induction d as [|[k' v'] d IH].
  - destruct (decide (k ∈ ([] : list (string * V)).*1)) as [Hin|_]; [|done].
    by apply elem_of_nil in Hin.
  - cbn [PyDict.setitem]. destruct (decide (k' = k)) as [->|Hne].
    + rewrite decide_True; [done|]. rewrite fmap_cons. simpl. left.
    + rewrite fmap_cons, IH. cbn [fst]. rewrite (fmap_cons fst).  cbn [fst].
      destruct (decide (k ∈ d.*1)) as [Hin|Hnotin].
      * rewrite decide_True; [done|]. by right.
      * rewrite decide_False; [done|]. rewrite elem_of_cons. intros [?|?]; congruence.
Qed.

Lemma assign_to_map ws :
  ∀ d, (list_to_map (foldl assign d ws) : gmap string V)
       = foldl write (list_to_map d) ws.
Proof.
  induction ws as [|[k v] ws IH]; intros d; simpl; [done|].
  rewrite IH. unfold assign, write. simpl. by rewrite setitem_to_map.
Qed.

Lemma fromkeys_seen_ext (l : list string) :
  ∀ seen seen' : gset string, seen = seen' → fromkeys seen l = fromkeys seen' l.
Proof. by intros ?? ->. Qed.

Lemma assign_keys ws :
  ∀ d, (foldl assign d ws).*1 = d.*1 ++ fromkeys (list_to_set d.*1) ws.*1.
Proof.
  induction ws as [|[k v] ws IH]; intros d; simpl; [by rewrite app_nil_r|].
  rewrite IH. change (assign d (k, v)) with (PyDict.setitem d k v).
  rewrite setitem_keys.
  destruct (decide (k ∈ d.*1)) as [Hin|Hnotin].
  - rewrite decide_True by set_solver. done.
  - rewrite decide_False by set_solver. rewrite <- app_assoc. simpl.
    do 2 f_equal. apply fromkeys_seen_ext. rewrite list_to_set_app_L. set_solver.
Qed.

End ordered_dict.

(** ** The sequential resolver, in insertion order *)

Section ordered_run.
Import Ibkr IbkrSpec Suppliers ManagerSpec.

Lemma ordered_process_results_writes symbol_map i qualified_batch :
  ∀ batch j syms qualified_contracts,
  length syms = length batch →
  (∀ j' s, syms !! j' = Some s → symbol_map !! (i + (j + j')) = Some s) →
  IbkrOrdered.process_results symbol_map i j batch qualified_batch qualified_contracts =
    (foldl assign qualified_contracts
       (zip syms ((λ c, scan c qualified_batch) <$> batch)), None).
Proof.
  induction batch as [|c batch IH]; intros j syms qc Hlen Hmap.
  - by destruct syms.
  - destruct syms as [|s syms]; [done|]. simpl.
    specialize (Hmap 0 s eq_refl) as Hs. rewrite Nat.add_0_r in Hs. rewrite Hs.
    apply IH; [simpl in Hlen; lia|].
    intros j' s' Hs'. specialize (Hmap (S j') s' Hs').
    by replace (S j + j') with (j + S j') by lia.
Qed.

Lemma ordered_mark_failed_writes symbol_map i :
  ∀ batch j syms qualified_contracts,
  length syms = length batch →
  (∀ j' s, syms !! j' = Some s → symbol_map !! (i + (j + j')) = Some s) →
  IbkrOrdered.mark_failed symbol_map i j batch qualified_contracts =
    Return (foldl assign qualified_contracts (zip syms ((λ _, None) <$> batch))).
Proof.
  induction batch as [|c batch IH]; intros j syms qc Hlen Hmap.
  - by destruct syms.
  - destruct syms as [|s syms]; [done|]. simpl.
    specialize (Hmap 0 s eq_refl) as Hs. rewrite Nat.add_0_r in Hs. rewrite Hs.
    apply IH; [simpl in Hlen; lia|].
    intros j' s' Hs'. specialize (Hmap (S j') s' Hs').
    by replace (S j + j') with (j + S j') by lia.
Qed.

Context {Session : Type}.
Variable qualifyContracts : Session → list Contract → Session * Reply.

Lemma ordered_qualify_batch_writes symbol_map i batch syms ib qualified_contracts :
  length syms = length batch →
  (∀ j' s, syms !! j' = Some s → symbol_map !! (i + j') = Some s) →
  IbkrOrdered.qualify_batch qualifyContracts symbol_map i batch ib qualified_contracts =
    ((qualifyContracts ib batch).1,
     Return (foldl assign qualified_contracts
               (zip syms (resolve (returned_contracts (qualifyContracts ib batch).2)
                            <$> imap (updated (qualifyContracts ib batch).2) batch)))).
Proof.
  intros Hlen Hmap. unfold IbkrOrdered.qualify_batch.
  destruct (qualifyContracts ib batch) as [ib' [update [qualified_batch|]]]; simpl.
  - rewrite (ordered_process_results_writes _ _ _ _ _ syms); [done| |done].
    by rewrite length_imap.
  - by rewrite (ordered_mark_failed_writes _ _ _ _ syms); [|by rewrite length_imap|].
Qed.

Lemma ordered_qualify_loop_writes symbols contracts symbol_map batch_size :
  length symbols = length contracts →
  (∀ k, symbol_map !! k = symbols !! k) →
  ∀ starts ib qualified_contracts,
  let batches := (λ i, Py.slice contracts i batch_size) <$> starts in
  IbkrOrdered.qualify_loop qualifyContracts symbol_map contracts batch_size starts ib
      qualified_contracts =
    (session_after qualifyContracts ib batches,
     Return (foldl assign qualified_contracts
               (mjoin (zip_with (λ i ra, window_writes symbols batch_size i ra.1 ra.2)
                         starts
                         (zip (requests qualifyContracts ib batches)
                              (answers qualifyContracts ib batches)))))).
Proof.
  intros Hlen Hmap. induction starts as [|i starts IH]; intros ib qc; [done|].
  simpl.
  rewrite (ordered_qualify_batch_writes _ _ _ (Py.slice symbols i batch_size)).
  - rewrite IH. destruct (qualifyContracts ib _) as [ib' reply]. simpl.
    by rewrite foldl_app.
  - rewrite !slice_length. lia.
  - intros j' s. rewrite slice_lookup, Hmap. by case_decide.
Qed.

Lemma ordered_qualify_contracts_writes ib symbols sec_type exchange currency batch_size :
  (0 < batch_size)%Z →
  let contracts := (λ s, create_contract s sec_type exchange currency) <$> symbols in
  ∃ windows,
    batch_windows contracts batch_size = Return windows
    ∧ IbkrOrdered.qualify_contracts qualifyContracts true ib symbols sec_type exchange
        currency batch_size =
      (session_after qualifyContracts ib windows,
       Return (foldl assign []
                 (all_writes symbols (Z.to_nat batch_size)
                    (requests qualifyContracts ib windows)
                    (answers qualifyContracts ib windows)))).
Proof.
  intros Hb contracts. unfold batch_windows, IbkrOrdered.qualify_contracts. simpl.
  pose proof (create_contracts_spec symbols sec_type exchange currency 0 [] ∅) as Hcc.
  pose proof (created_symbol_map symbols sec_type exchange currency) as Hsm.
  destruct (create_contracts 0 symbols sec_type exchange currency [] ∅)
    as [contracts' symbol_map].
  simpl in Hcc, Hsm. injection Hcc as -> _. fold contracts.
  rewrite range_positive by done.
  eexists. split; [done|].
  assert (length symbols = length contracts) as Hlen
    by (unfold contracts; by rewrite length_fmap).
  rewrite (ordered_qualify_loop_writes symbols) by done.
  f_equal. f_equal. f_equal. rewrite <- list_fmap_compose.
  rewrite windows_writes.
  - apply take_ge. rewrite all_writes_length.
    pose proof (ceil_div_bounds (length contracts) (Z.to_nat batch_size)
                  ltac:(lia)) as [Hle _].
    lia.
  - lia.
  - by rewrite requests_length, !length_fmap, length_seq.
  - by rewrite answers_length, !length_fmap, length_seq.
  - intros k batch. rewrite requests_lookup, list_lookup_fmap.
    destruct (seq _ _ !! k) as [k'|] eqn:Hk; [|done]. simpl.
    apply lookup_seq in Hk as [-> Hk]. intros [= <-].
    rewrite length_imap, !slice_length. lia.
Qed.

Lemma fromkeys_NoDup (l : list string) seen : NoDup (fromkeys seen l).
Proof. apply fromkeys_spec. Qed.

(** The dictionary in insertion order holds the same entries as the one
    of [Ibkr.qualify_contracts], the session ends in the same state, and
    the keys come in the order in which the symbols first occur. *)
Lemma ordered_agrees connected ib symbols sec_type exchange currency batch_size :
  let ordered := IbkrOrdered.qualify_contracts qualifyContracts connected ib symbols
                   sec_type exchange currency batch_size in
  let mapped := Ibkr.qualify_contracts qualifyContracts connected ib symbols
                  sec_type exchange currency batch_size in
  ordered.1 = mapped.1
  ∧ match ordered.2 with
    | Return d =>
        mapped.2 = Return (list_to_map d)
        ∧ NoDup d.*1
        ∧ ((0 < batch_size)%Z → d.*1 = fromkeys ∅ symbols)
    | Raise e => mapped.2 = Raise e
    end.
Proof.
  destruct connected; [|done].
  destruct (decide (0 < batch_size)%Z) as [Hb|Hb].
  - destruct (ordered_qualify_contracts_writes ib symbols sec_type exchange currency
                batch_size Hb) as (windows & Hw & ->).
    destruct (qualify_contracts_writes qualifyContracts ib symbols sec_type exchange
                currency batch_size Hb) as (windows' & Hw' & ->).
    rewrite Hw in Hw'. injection Hw' as <-. simpl. split; [done|].
    rewrite assign_to_map, assign_keys. simpl.
    rewrite all_writes_fst.
    split; [done|]. split; [apply fromkeys_NoDup|done].
  - simpl. unfold IbkrOrdered.qualify_contracts, Ibkr.qualify_contracts. simpl.
    destruct (create_contracts 0 symbols sec_type exchange currency [] ∅)
      as [contracts symbol_map].
    unfold Py.range.
    destruct (Z.eqb_spec batch_size 0) as [->|Hne]; [done|].
    destruct (Z.ltb_spec batch_size 0) as [Hneg|?]; [|lia].
    simpl. split; [done|]. split; [done|]. split; [constructor|lia].
Qed.

End ordered_run.

(** ** Edge cases and entries of the sequential resolver *)

Section sequential_edges.
Import Ibkr IbkrSpec Suppliers ManagerSpec.
Lemma writes_lookup_inv {V} (l : list (string * V)) :
  ∀ (m : gmap string V) k v,
  foldl write m l !! k = Some v → m !! k = Some v ∨ (k, v) ∈ l.
Proof.
  induction l as [|[k' v'] l IH]; intros m k v; simpl; [by left|].
  intros [Hm|Hin]%IH.
  - unfold write in Hm. simpl in Hm.
    destruct (decide (k' = k)) as [->|Hne].
    + rewrite lookup_insert_eq in Hm. injection Hm as ->. right. left.
    + rewrite lookup_insert_ne in Hm by done. by left.
  - right. by right.
Qed.

(** Without a connection, with a batch size that is not positive, or with
    no symbol at all, [qualify_contracts] sends nothing to the session and
    leaves it as it is.  It raises when the manager is not connected, and
    otherwise when the batch size is 0 (also for an empty list); for a
    negative batch size it returns the empty dictionary whatever the
    symbols are; for an empty list and a positive batch size it returns
    the empty dictionary. *)
Theorem no_window_no_call {Session : Type}
    (qualifyContracts : Session → list Contract → Session * Reply)
    (connected : bool) (ib : Session)
    (sent : list (list Contract)) (symbols : list string)
    (sec_type exchange currency : string) (batch_size : Z) :
  connected = false ∨ (batch_size ≤ 0)%Z ∨ symbols = [] →
  qualify_contracts (recording qualifyContracts) connected (ib, sent) symbols
      sec_type exchange currency batch_size =
    ((ib, sent),
     if negb connected then Raise NotConnected
     else if bool_decide (batch_size = 0%Z) then Raise ValueError
     else Return ∅).
Proof.
  intros Hcase. unfold qualify_contracts.
  destruct connected; simpl; [|done].
  rewrite (surjective_pairing (create_contracts _ _ _ _ _ _ _)).
  rewrite create_contracts_spec. cbn [fst snd app].
  unfold Py.range. case_bool_decide as Hzero.
  - subst. done.
  - destruct (Z.eqb_spec batch_size 0) as [?|_]; [done|].
    destruct (Z.ltb_spec batch_size 0) as [Hneg|Hpos]; [done|].
    by destruct Hcase as [ ? | [ ? | -> ] ]; [|lia|].
Qed.

Lemma no_window_no_call_witness :
  let session := λ (ib : nat) (batch : list Contract),
                   (S ib, mkReply untouched (Some batch)) in
  qualify_contracts (recording session) true (0, []) ["AAPL"; "IBM"]
      "STK" "SMART" "USD" (-5)%Z = ((0, []), Return ∅)
  ∧ qualify_contracts (recording session) true (0, []) [] "STK" "SMART" "USD" 0
    = ((0, []), Raise ValueError).
Proof.
  intros session. split.
  - exact (no_window_no_call session true 0 [] ["AAPL"; "IBM"] "STK" "SMART" "USD" (-5)%Z
             ltac:(right; left; lia)).
  - exact (no_window_no_call session true 0 [] [] "STK" "SMART" "USD" 0
             ltac:(right; left; lia)).
Defined.

(** Whatever the input list and the session do, every key of the
    returned dictionary is an input symbol, and an entry that is not
    [None] is one of the contracts the session returned for the window of
    a request for that key; its symbol, currency and security type are
    those of that request as the call left it.  When the session leaves
    these three fields of the requests alone, they are the symbol of the
    key and the currency and security type that were asked for. *)
Theorem entries_match_their_key {Session : Type}
    (qualifyContracts : Session → list Contract → Session * Reply)
    (ib : Session) (symbols : list string)
    (sec_type exchange currency : string) (batch_size : Z) :
  (0 < batch_size)%Z →
  let contracts := (λ s, create_contract s sec_type exchange currency) <$> symbols in
  let B := Z.to_nat batch_size in
  ∃ windows qualified_contracts,
    batch_windows contracts batch_size = Return windows
    ∧ (qualify_contracts qualifyContracts true ib symbols sec_type exchange currency
         batch_size).2 = Return qualified_contracts
    ∧ ∀ s v, qualified_contracts !! s = Some v →
        s ∈ symbols
        ∧ ∀ c, v = Some c →
            ∃ p qualified_batch,
              let request := request_left qualifyContracts ib windows B p
                               (create_contract s sec_type exchange currency) in
              symbols !! p = Some s
              ∧ request_at (requests qualifyContracts ib windows) B p = Some request
              ∧ answers qualifyContracts ib windows !! (p / B) = Some (Some qualified_batch)
              ∧ c ∈ qualified_batch
              ∧ symbol c = symbol request
              ∧ Ibkr.currency c = Ibkr.currency request
              ∧ secType c = secType request
              ∧ (keeps_keys qualifyContracts →
                 symbol c = s ∧ Ibkr.currency c = currency ∧ secType c = sec_type).
Proof.
  intros Hb contracts B.
  destruct (qualify_contracts_writes qualifyContracts ib symbols sec_type exchange
              currency batch_size Hb) as (windows & Hw & Hrun).
  exists windows. eexists. split; [done|]. rewrite Hrun. split; [done|].
  intros s v [Hm|Hin]%writes_lookup_inv; [by rewrite lookup_empty in Hm|].
  apply list_elem_of_lookup in Hin as [p Hp].
  rewrite all_writes_lookup in Hp.
  destruct (symbols !! p) as [s'|] eqn:Hs'; [|done]. simpl in Hp.
  injection Hp as -> <-. split; [by eapply list_elem_of_lookup_2|].
  assert (contracts !! p = Some (create_contract s sec_type exchange currency))
    as Hcp by (unfold contracts; by rewrite list_lookup_fmap, Hs').
  destruct (request_at_created qualifyContracts ib contracts batch_size p _ Hb Hcp)
    as (windows' & Hw' & Hreq).
  fold contracts in Hw. rewrite Hw in Hw'. injection Hw' as <-. fold B in Hreq |- *.
  rewrite Hreq. simpl. intros c Hc. unfold resolve, answer_at in Hc.
  destruct (answers qualifyContracts ib windows !! (p / B))
    as [[qb|]|] eqn:Hans; simpl in Hc; try done.
  apply scan_Some in Hc as (before & after & -> & Hkey & _).
  apply key_matches_spec in Hkey as (Hsym & Hcur & Hsec).
  exists p, (before ++ c :: after). simpl.
  split; [done|]. split; [done|]. split; [done|].
  split; [apply elem_of_app; right; left|].
  split; [done|]. split; [done|]. split; [done|].
  intros Hkeys. rewrite Hsym, Hcur, Hsec. unfold request_left.
  destruct (create_contract_fields s sec_type exchange currency) as (Es & Et & _ & Ec).
  destruct (windows !! (p / B)) as [batch|]; [|done].
  destruct (Hkeys (session_after qualifyContracts ib (take (p / B) windows)) batch
              (p `mod` B) (create_contract s sec_type exchange currency))
    as (-> & -> & ->).
  done.
Qed.

Lemma entries_match_their_key_witness :
  let rogue := mkContract "MSFT" "STK" "SMART" "USD" 1 "NASDAQ" in
  let session := λ (ib : unit) (batch : list Contract),
                   (ib, mkReply untouched (Some [rogue])) in
  ∃ qualified_contracts,
    (qualify_contracts session true tt ["AAPL"; "MSFT"; "AAPL"] "STK" "SMART" "USD" 2).2
      = Return qualified_contracts
    ∧ qualified_contracts !! "MSFT" = Some (Some rogue)
    ∧ symbol rogue = "MSFT".
Proof.
  intros rogue session.
  destruct (entries_match_their_key session tt ["AAPL"; "MSFT"; "AAPL"]
              "STK" "SMART" "USD" 2 ltac:(lia)) as (windows & m & _ & Hrun & Hentries).
  exists m. split; [exact Hrun|].
  assert (m !! "MSFT" = Some (Some rogue)) as Hm.
  { injection Hrun as <-. reflexivity. }
  split; [exact Hm|].
  destruct (Hentries "MSFT" (Some rogue) Hm) as (_ & Hfields).
  destruct (Hfields rogue eq_refl) as (p & qb & _ & _ & _ & _ & _ & _ & _ & Hasked).
  assert (keeps_keys session) as Hkeys by done.
  exact (proj1 (Hasked Hkeys)).
Defined.

End sequential_edges.

(** ** The manager *)

Section manager_lemmas.
Import Ibkr IbkrSpec Suppliers Manager ManagerSpec.

Lemma sort_items_spec (d : list (string * option Contract)) :
  ∀ lists, foldl sort_item lists d
           = (lists.1 ++ omap entry_of d, lists.2 ++ omap failed_of d).
Proof.
  induction d as [|[s [c|]] d IH]; intros [entries failed]; simpl.
  - by rewrite !app_nil_r.
  - rewrite IH. simpl. unfold entry_of at 2, failed_of at 2. simpl.
    by rewrite <- app_assoc.
  - rewrite IH. simpl. unfold entry_of at 2, failed_of at 2. simpl.
    by rewrite <- app_assoc.
Qed.

Lemma items_by_key (d : list (string * option Contract))
    (m : gmap string (option Contract)) :
  (∀ k v, (k, v) ∈ d → m !! k = Some v) →
  entry_symbol <$> omap entry_of d = filter (λ s, resolved m s = true) d.*1
  ∧ omap failed_of d = filter (λ s, unresolved m s = true) d.*1
  ∧ omap (λ item, item.2) d = omap (λ s, mjoin (m !! s)) d.*1
  ∧ length (omap entry_of d) + length (omap failed_of d) = length d.
Proof.
  induction d as [|[s v] d IH]; intros Hm; [done|].
  destruct IH as (IH1 & IH2 & IH3 & IH4).
  { intros k v' Hin. apply Hm. by right. }
  pose proof (Hm s v ltac:(left)) as Hs.
  assert (mjoin (m !! s) = v) as Hj by (by rewrite Hs).
  rewrite (fmap_cons fst). cbn [fst omap list_omap]. rewrite Hj.
  rewrite !filter_cons. destruct v as [c|].
  - change (entry_of (s, Some c))
      with (Some (mkEntry s (symbol c) (exchange_of c) (currency c) (conId c)
                    (secType c))).
    change (failed_of (s, Some c)) with (@None string).
    rewrite decide_True by (unfold resolved; by rewrite Hs).
    rewrite decide_False by (unfold unresolved; by rewrite Hs).
    rewrite fmap_cons. cbn [entry_symbol length snd].
    split; [by rewrite IH1|]. split; [by rewrite IH2|]. split; [by rewrite IH3|]. lia.
  - change (entry_of (s, None)) with (@None ContractEntry).
    change (failed_of (s, None)) with (Some s).
    rewrite decide_False by (unfold resolved; by rewrite Hs).
    rewrite decide_True by (unfold unresolved; by rewrite Hs).
    cbn [length snd].
    split; [by rewrite IH1|]. split; [by rewrite IH2|]. split; [by rewrite IH3|]. lia.
Qed.

Context {Session : Type}.
Variable api : IB Session.

Lemma request_outcomes_length contracts :
  ∀ ib, length (request_outcomes api ib contracts) = length contracts.
Proof.
  induction contracts as [|c contracts IH]; intros ib; simpl; [done|].
  destruct (ib_reqMktData api ib c) as [ib' ok]. simpl. by rewrite IH.
Qed.

Lemma add_loop_requests contracts :
  ∀ ib n,
  (add_loop api true contracts ib n).2
  = n + length (filter (λ ok, ok = true) (request_outcomes api ib contracts)).
Proof.
  induction contracts as [|c contracts IH]; intros ib n; simpl; [lia|].
  destruct (ib_reqMktData api ib c) as [ib' [|]]; rewrite IH.
  - rewrite filter_cons_True by done. simpl. lia.
  - by rewrite filter_cons_False by done.
Qed.

Lemma add_loop_silent contracts :
  ∀ ib n, add_loop api false contracts ib n = (ib, n + length contracts).
Proof.
  induction contracts as [|c contracts IH]; intros ib n; simpl.
  - f_equal. lia.
  - rewrite IH. f_equal. lia.
Qed.

Lemma add_loop_logged contracts :
  ∀ ib sent requested n,
  (add_loop (logged api) true contracts (ib, (sent, requested)) n).1.2
  = (sent, requested ++ contracts).
Proof.
  induction contracts as [|c contracts IH]; intros ib sent requested n; simpl.
  - by rewrite app_nil_r.
  - destruct (ib_reqMktData api ib c) as [ib' [|]]; simpl;
      rewrite IH; by rewrite <- app_assoc.
Qed.

(** What [create_watchlist_from_symbols] starts from: the dictionary of
    [qualify_contracts] with the default batch size, as a map and in
    insertion order. *)
Lemma watchlist_qualified (ib : Session) symbols sec_type exchange currency :
  ∃ d m,
    IbkrOrdered.qualify_contracts (ib_qualifyContracts api) true ib symbols
      sec_type exchange currency 50
    = ((Ibkr.qualify_contracts (ib_qualifyContracts api) true ib symbols
          sec_type exchange currency 50).1, Return d)
    ∧ (Ibkr.qualify_contracts (ib_qualifyContracts api) true ib symbols
         sec_type exchange currency 50).2 = Return m
    ∧ (∀ k v, (k, v) ∈ d → m !! k = Some v)
    ∧ d.*1 = fromkeys ∅ symbols
    ∧ dom m = list_to_set symbols.
Proof.
  pose proof (ordered_agrees (ib_qualifyContracts api) true ib symbols sec_type
                exchange currency 50) as [Hsession Hresult].
  destruct (qualify_contracts_result (ib_qualifyContracts api) ib symbols sec_type
              exchange currency 50 ltac:(lia)) as (windows & m & _ & Hrun & Hdom & _).
  cbv zeta in Hsession, Hresult.
  destruct (IbkrOrdered.qualify_contracts _ _ _ _ _ _ _ _) as [ib' [d|e]];
    cbn [fst snd] in Hsession, Hresult.
  - destruct Hresult as (Hmapped & Hnd & Hkeys).
    rewrite Hrun in Hmapped. injection Hmapped as Heq.
    exists d, m. rewrite <- Hsession.
    split; [done|]. split; [by rewrite Hrun|]. split; [|split; [by apply Hkeys|done]].
    intros k v Hin. rewrite Heq. by apply elem_of_list_to_map_1.
  - by rewrite Hrun in Hresult.
Qed.

End manager_lemmas.

Section manager_connection.
Import Ibkr IbkrSpec Suppliers Manager ManagerSpec.

(** [add_contracts_to_tws] on a connected manager returns the number of
    contracts whose market data request did not raise, which is at most
    the number of contracts; a request that raises does not stop the loop,
    every contract is requested once and in order.  Without market data
    requests it returns the number of contracts and leaves the session as
    it is. *)
Theorem add_contracts_count {Session : Type} (api : IB Session)
    (self : IBKRManager Session) (contracts : list Contract)
    (request_market_data : bool) :
  connected self = true →
  ∃ n,
    (add_contracts_to_tws api self contracts request_market_data).2 = Return n
    ∧ n ≤ length contracts
    ∧ connected (add_contracts_to_tws api self contracts request_market_data).1 = true
    ∧ (request_market_data = true →
       n = length (filter (λ ok, ok = true)
                     (request_outcomes api (ib self) contracts)))
    ∧ (request_market_data = false →
       n = length contracts
       ∧ ib (add_contracts_to_tws api self contracts request_market_data).1 = ib self)
    ∧ (∀ sent requested,
         (ib (add_contracts_to_tws (logged api)
                (mkManager (ib self, (sent, requested)) true) contracts true).1).2
         = (sent, requested ++ contracts)).
Proof.
  intros Hconnected. destruct self as [ib0 c]. simpl in Hconnected. subst c.
  unfold add_contracts_to_tws. simpl.
  destruct request_market_data.
  - pose proof (add_loop_requests api contracts ib0 0) as Hcount.
    destruct (add_loop api true contracts ib0 0) as [ib' n]. simpl in *.
    exists n. split; [done|]. split.
    { rewrite Hcount. etrans; [apply length_filter|].
      by rewrite request_outcomes_length. }
    split; [done|]. split; [done|]. split; [done|].
    intros sent requested.
    pose proof (add_loop_logged api contracts ib0 sent requested 0) as Hlog.
    by destruct (add_loop (logged api) true contracts _ 0).
  - rewrite add_loop_silent. simpl. exists (length contracts).
    split; [done|]. split; [done|]. split; [done|]. split; [done|]. split; [done|].
    intros sent requested.
    pose proof (add_loop_logged api contracts ib0 sent requested 0) as Hlog.
    by destruct (add_loop (logged api) true contracts _ 0).
Qed.

Lemma add_contracts_count_witness :
  let flaky := mkIB nat (λ ib, (ib, true)) (λ ib, (ib, true))
                 (λ ib batch, (ib, mkReply untouched (Some batch)))
                 (λ ib contract, (S ib, negb (ib =? 1))) in
  let contracts := (λ s, Stock s "SMART" "USD") <$> ["A"; "B"; "C"] in
  (add_contracts_to_tws flaky (mkManager 0 true) contracts true).2 = Return 2
  ∧ (ib (add_contracts_to_tws (logged flaky) (mkManager (0, ([], [])) true)
           contracts true).1).2 = ([], contracts).
Proof.
  intros flaky contracts.
  destruct (add_contracts_count flaky (mkManager 0 true) contracts true eq_refl)
    as (n & Hn & _ & _ & Hcount & _ & Hlog).
  split.
  - rewrite Hn. f_equal. exact (Hcount eq_refl).
  - exact (Hlog [] []).
Defined.

(** [disconnect] does nothing on a manager that is not connected.  When
    it returns, the manager is not connected, and then [qualify_contracts],
    [add_contracts_to_tws] and [create_watchlist_from_symbols] raise
    without touching the session or the disk, and a second [disconnect]
    does nothing.  [disconnect] raises exactly when the manager is
    connected and the session's own disconnect raises, and the manager is
    then still marked as connected. *)
Theorem disconnected_manager_refuses {Session Files : Type} (api : IB Session)
    (disk : Os.Disk Files Document) (files : Files)
    (self : IBKRManager Session) (symbols : list string)
    (sec_type exchange currency : string) (batch_size : option Z)
    (contracts : list Contract) (request_market_data : bool) :
  let after := disconnect api self in
  (connected self = false → after = (self, Return tt))
  ∧ (after.2 = Return tt →
     connected after.1 = false
     ∧ qualify_contracts api after.1 symbols sec_type exchange currency batch_size
       = (after.1, Raise NotConnected)
     ∧ add_contracts_to_tws api after.1 contracts request_market_data
       = (after.1, Raise NotConnected)
     ∧ create_watchlist_from_symbols api disk after.1 files symbols sec_type exchange
         currency
       = ((after.1, files), Raise NotConnected)
     ∧ disconnect api after.1 = (after.1, Return tt))
  ∧ (∀ e, after.2 = Raise e → connected after.1 = true)
  ∧ ((∃ e, after.2 = Raise e) ↔
       connected self = true ∧ (ib_disconnect api (ib self)).2 = false).
Proof.
  destruct self as [ib0 [|]]; unfold disconnect; simpl.
  - destruct (ib_disconnect api ib0) as [ib' [|]]; simpl.
    + split; [done|]. split; [by intros _|]. split; [done|].
      split; [by intros [e ?]|by intros [_ ?]].
    + split; [done|]. split; [done|]. split; [done|].
      split; [done|]. intros _. by eexists.
  - split; [done|]. split; [by intros _|]. split; [done|].
    split; [by intros [e ?]|by intros [? _]].
Qed.

Lemma is_Some_scan original_contract qualified_batch :
  is_Some (scan original_contract qualified_batch) ↔
    ∃ c, c ∈ qualified_batch ∧ key_matches original_contract c = true.
Proof.
  split.
  - intros [c (before & after & -> & Hkey & _)%scan_Some].
    exists c. split; [|done]. apply elem_of_app. right. left.
  - intros (c & Hin & Hkey).
    destruct (scan original_contract qualified_batch) as [c'|] eqn:Hscan; [by eexists|].
    apply scan_None in Hscan.
    pose proof (proj1 (Forall_forall _ _) Hscan c Hin) as Hno. simpl in Hno. congruence.
Qed.

Lemma qualify_single {Session : Type}
    (qualifyContracts : Session → list Contract → Session * Reply)
    (ib : Session) (s sec_type exchange currency : string) :
  let reply := (qualifyContracts ib [create_contract s sec_type exchange currency]).2 in
  Ibkr.qualify_contracts qualifyContracts true ib [s] sec_type exchange currency 50
  = ((qualifyContracts ib [create_contract s sec_type exchange currency]).1,
     Return {[ s := resolve (returned_contracts reply)
                      (updated reply 0 (create_contract s sec_type exchange currency)) ]}).
Proof.
  unfold Ibkr.qualify_contracts. simpl. unfold qualify_batch. simpl.
  destruct (qualifyContracts ib _) as [ib' [update [qb|]]]; simpl.
  - by rewrite lookup_insert_eq, insert_empty.
  - by rewrite lookup_insert_eq, insert_empty.
Qed.

(** [test_connection] never raises.  It answers [True] exactly when the
    manager is connected already or [connect] succeeds, and the session
    then answers the one batch made of the stock AAPL (SMART, USD) with a
    list that holds a contract whose symbol, currency and security type
    are those of the request as the call left it.  So a session that
    hands back the request it was passed passes the test, whatever it has
    made of it; and when the call leaves the three fields as they were
    sent, the test asks for a contract of symbol AAPL, currency USD and
    security type STK.  The manager ends connected exactly when it was
    connected or [connect] succeeded; when neither, no contract is sent. *)
Theorem test_connection_verdict {Session : Type} (api : IB Session)
    (self : IBKRManager Session) :
  let reachable := connected self = true ∨ (ib_connect api (ib self)).2 = true in
  let ib1 := if connected self then ib self else (ib_connect api (ib self)).1 in
  let reply := (ib_qualifyContracts api ib1 [Stock "AAPL" "SMART" "USD"]).2 in
  let request := updated reply 0 (Stock "AAPL" "SMART" "USD") in
  ((test_connection api self).2 = true ↔
     reachable
     ∧ ∃ qualified_batch c,
         returned_contracts reply = Some qualified_batch
         ∧ c ∈ qualified_batch
         ∧ symbol c = symbol request ∧ currency c = currency request
         ∧ secType c = secType request)
  ∧ (reachable →
     (∃ qualified_batch,
        returned_contracts reply = Some qualified_batch ∧ request ∈ qualified_batch) →
     (test_connection api self).2 = true)
  ∧ (symbol request = "AAPL" ∧ currency request = "USD" ∧ secType request = "STK" →
     ((test_connection api self).2 = true ↔
        reachable
        ∧ ∃ qualified_batch c,
            returned_contracts reply = Some qualified_batch
            ∧ c ∈ qualified_batch
            ∧ symbol c = "AAPL" ∧ currency c = "USD" ∧ secType c = "STK"))
  ∧ (connected (test_connection api self).1 = true ↔ reachable)
  ∧ (¬ reachable → ib (test_connection api self).1 = ib1).
Proof.
  intros reachable ib1 reply request.
  assert (∀ ib1 : Session,
    let reply := (ib_qualifyContracts api ib1 [Stock "AAPL" "SMART" "USD"]).2 in
    let request := updated reply 0 (Stock "AAPL" "SMART" "USD") in
    (match (let '(ib', r) :=
              Ibkr.qualify_contracts (ib_qualifyContracts api) true ib1 ["AAPL"]
                "STK" "SMART" "USD" 50 in (mkManager ib' true, r))
      with
      | (self'', Return test_contracts) =>
          match test_contracts !! "AAPL" with
          | Some (Some _) => (self'', true)
          | _ => (self'', false)
          end
      | (self'', Raise _) => (self'', false)
      end).2 = true ↔
    ∃ qualified_batch c,
      returned_contracts reply = Some qualified_batch
      ∧ c ∈ qualified_batch
      ∧ symbol c = symbol request ∧ currency c = currency request
      ∧ secType c = secType request) as Hverdict.
  { intros ib2 reply2 request2. rewrite qualify_single. simpl.
    rewrite lookup_singleton_eq.
    change (create_contract "AAPL" "STK" "SMART" "USD") with (Stock "AAPL" "SMART" "USD").
    fold reply2. fold request2.
    destruct (returned_contracts reply2) as [qb|]; simpl.
    - destruct (scan request2 qb) as [c|] eqn:Hscan; simpl.
      + split; [|done]. intros _.
        destruct (proj1 (is_Some_scan _ _) (mk_is_Some _ _ Hscan))
          as (c' & Hin & Hkey%key_matches_spec).
        exists qb, c'. by split.
      + split; [done|]. intros (qb' & c & [= <-] & Hin & Hsym & Hcur & Hsec).
        assert (is_Some (scan request2 qb)) as [c' Hc'].
        { apply is_Some_scan. exists c. split; [done|]. by apply key_matches_spec. }
        congruence.
    - split; [done|]. by intros (qb & c & [=] & _). }
  assert (∀ ib1 : Session,
    connected (match (let '(ib', r) :=
              Ibkr.qualify_contracts (ib_qualifyContracts api) true ib1 ["AAPL"]
                "STK" "SMART" "USD" 50 in (mkManager ib' true, r))
      with
      | (self'', Return test_contracts) =>
          match test_contracts !! "AAPL" with
          | Some (Some _) => (self'', true)
          | _ => (self'', false)
          end
      | (self'', Raise _) => (self'', false)
      end).1 = true) as Hstays.
  { intros ib2. rewrite qualify_single. simpl. rewrite lookup_singleton_eq.
    by destruct (resolve _ _). }
  assert ((test_connection api self).2 = true ↔
     reachable
     ∧ ∃ qualified_batch c,
         returned_contracts reply = Some qualified_batch
         ∧ c ∈ qualified_batch
         ∧ symbol c = symbol request ∧ currency c = currency request
         ∧ secType c = secType request) as Hmain.
  { unfold reachable, request, reply, ib1.
    destruct self as [ib0 [|]]; unfold test_connection, Manager.qualify_contracts; simpl.
    - rewrite Hverdict. tauto.
    - unfold connect. simpl. destruct (ib_connect api ib0) as [ib' [|]]; simpl.
      + rewrite Hverdict. tauto.
      + split; [done|]. by intros [[|] _]. }
  split; [exact Hmain|]. split; [|split; [|split]].
  - intros Hreach (qb & Hqb & Hin). apply Hmain. split; [done|].
    by exists qb, request.
  - intros (Hs & Hc & Ht). rewrite Hmain, Hs, Hc, Ht. done.
  - unfold reachable.
    destruct self as [ib0 [|]]; unfold test_connection, Manager.qualify_contracts; simpl.
    + rewrite Hstays. tauto.
    + unfold connect. simpl. destruct (ib_connect api ib0) as [ib' [|]]; simpl.
      * rewrite Hstays. tauto.
      * by intuition.
  - unfold reachable, ib1.
    destruct self as [ib0 [|]]; unfold test_connection, Manager.qualify_contracts; simpl.
    + intros []. by left.
    + unfold connect. simpl. destruct (ib_connect api ib0) as [ib' [|]]; simpl; [|done].
      intros []. by right.
Qed.

(** A session that leaves the request alone and returns an AAPL contract
    in another currency fails the test; one that writes what it found
    into the request and hands the request back passes it. *)
Lemma test_connection_verdict_witness :
  let found := mkContract "AAPL" "STK" "SMART" "EUR" 7 "IBIS" in
  let wrong := mkIB unit (λ ib, (ib, true)) (λ ib, (ib, true))
                 (λ ib batch, (ib, mkReply untouched (Some [found])))
                 (λ ib contract, (ib, true)) in
  let filling := mkIB unit (λ ib, (ib, true)) (λ ib, (ib, true))
                   (λ ib batch, (ib, mkReply (λ _ _, found) (Some [found])))
                   (λ ib contract, (ib, true)) in
  test_connection wrong (mkManager tt false) = (mkManager tt true, false)
  ∧ (test_connection filling (mkManager tt false)).2 = true.
Proof.
  intros found wrong filling. split.
  - destruct (test_connection_verdict wrong (mkManager tt false))
      as (Hverdict & _ & _ & Hconn & _).
    destruct (test_connection wrong (mkManager tt false)) as [[[] c] b] eqn:Hrun.
    simpl in Hverdict, Hconn.
    assert (c = true) as -> by (apply Hconn; by right).
    destruct b; [|done].
    destruct (proj1 Hverdict eq_refl) as (_ & qb & c & [= <-] & Hin & _ & Hcur & _).
    apply list_elem_of_singleton in Hin. by subst c.
  - destruct (test_connection_verdict filling (mkManager tt false))
      as (_ & Hback & _).
    apply Hback; [by right|]. exists [found]. split; [reflexivity|]. simpl. left.
Defined.

End manager_connection.

Section manager_watchlist.
Import Ibkr IbkrSpec Suppliers Manager ManagerSpec.

Lemma fromkeys_elem (l : list string) s : s ∈ fromkeys ∅ l ↔ s ∈ l.
Proof.
  destruct (fromkeys_spec l ∅) as [_ Hin]. rewrite Hin. set_solver.
Qed.

Lemma fromkeys_length (l : list string) :
  length (fromkeys ∅ l) = size (list_to_set l : gset string).
Proof.
  rewrite <- (size_list_to_set (C := gset string) (fromkeys ∅ l))
    by apply fromkeys_NoDup.
  f_equal. apply set_eq. intros s. by rewrite !elem_of_list_to_set, fromkeys_elem.
Qed.

(** The ways [create_watchlist_from_symbols] can end on a connected
    manager, in terms of the dictionary [qualify_contracts] returns. *)
Lemma create_watchlist_unfold {Session Files : Type} (api : IB Session)
    (disk : Os.Disk Files Document) (ib0 : Session) (files : Files)
    (symbols : list string) (sec_type exchange currency : string) :
  let run := Ibkr.qualify_contracts (ib_qualifyContracts api) true ib0 symbols
               sec_type exchange currency 50 in
  ∃ d m,
    run.2 = Return m
    ∧ (∀ k v, (k, v) ∈ d → m !! k = Some v)
    ∧ d.*1 = fromkeys ∅ symbols
    ∧ dom m = list_to_set symbols
    ∧ let valid_contracts := omap (λ item, item.2) d in
      let requested := add_loop api true valid_contracts run.1 0 in
      let results := mkResults (0 <? requested.2) (length symbols)
                       (omap entry_of d) (omap failed_of d)
                       (Some (csv_data valid_contracts)) in
      let written := Os.write_files disk [tws_import_csv (csv_data valid_contracts)]
                       files in
      let saved := save_watchlist_results disk results written.1 in
      create_watchlist_from_symbols api disk (mkManager ib0 true) files symbols
        sec_type exchange currency =
      if bool_decide (valid_contracts = []) then
        ((mkManager run.1 true, files),
         Return (mkResults false (length symbols) [] symbols None))
      else
        match written.2 with
        | Raise e => ((mkManager requested.1 true, written.1), Raise e)
        | Return _ =>
            match saved.2 with
            | Raise e => ((mkManager requested.1 true, saved.1), Raise e)
            | Return _ => ((mkManager requested.1 true, saved.1), Return results)
            end
        end.
Proof.
  intros run.
  destruct (watchlist_qualified api ib0 symbols sec_type exchange currency)
    as (d & m & Hord & Hmap & Hitems & Hkeys & Hdom).
  exists d, m. fold run in Hord, Hmap. split; [done|]. split; [done|].
  split; [done|]. split; [done|].
  unfold create_watchlist_from_symbols. cbn [connected ib negb].
  rewrite Hord. cbv zeta. case_bool_decide; [done|].
  unfold add_contracts_to_tws. cbn [connected ib negb].
  destruct (add_loop api true (omap (λ item, item.2) d) run.1 0) as [ib' n].
  cbn [fst snd]. rewrite sort_items_spec. cbn [fst snd app].
  unfold create_tws_importable_watchlist.
  destruct (Os.write_files disk _ files) as [files' [[]|e]]; cbn [fst snd]; [|done].
  by destruct (save_watchlist_results disk _ files') as [files'' [[]|e]].
Qed.

(** When no symbol qualifies (in particular for an empty list),
    [create_watchlist_from_symbols] returns at once: success is [False],
    no contract is listed, the failed symbols are the input list as it was
    given (duplicates included), no import file is made, the disk is not
    touched, and the session is the one [qualify_contracts] left, so no
    market data is requested. *)
Theorem watchlist_nothing_qualified {Session Files : Type} (api : IB Session)
    (disk : Os.Disk Files Document) (self : IBKRManager Session) (files : Files)
    (symbols : list string) (sec_type exchange currency : string) :
  connected self = true →
  let run := Ibkr.qualify_contracts (ib_qualifyContracts api) true (ib self) symbols
               sec_type exchange currency 50 in
  ∃ m,
    run.2 = Return m
    ∧ ((∀ s, resolved m s = false) →
       create_watchlist_from_symbols api disk self files symbols sec_type exchange
         currency
       = ((mkManager run.1 true, files),
          Return (mkResults false (length symbols) [] symbols None))).
Proof.
  intros Hconnected run. destruct self as [ib0 c]. simpl in Hconnected. subst c.
  destruct (create_watchlist_unfold api disk ib0 files symbols sec_type exchange currency)
    as (d & m & Hm & Hitems & _ & _ & Hrun).
  exists m. split; [done|]. intros Hnone. cbv zeta in Hrun. rewrite Hrun.
  rewrite bool_decide_eq_true_2; [done|].
  destruct (items_by_key d m Hitems) as (_ & _ & -> & _).
  clear Hrun Hitems. induction (d.*1) as [|s keys IH]; [done|]. simpl.
  specialize (Hnone s). unfold resolved in Hnone.
  by destruct (m !! s) as [[c|]|].
Qed.

Lemma watchlist_nothing_qualified_witness :
  let silent := mkIB nat (λ ib, (ib, true)) (λ ib, (ib, true))
                  (λ ib batch, (S ib, mkReply untouched (Some [])))
                  (λ ib contract, (100, true)) in
  let disk := Os.mkDisk (λ n : nat, (S n, true)) (λ (n : nat) (_ : Document), (S n, true)) in
  create_watchlist_from_symbols silent disk (mkManager 0 true) 0 ["ZZZ"; "QQQ"; "ZZZ"]
    "STK" "SMART" "USD"
  = ((mkManager 1 true, 0), Return (mkResults false 3 [] ["ZZZ"; "QQQ"; "ZZZ"] None)).
Proof.
  intros silent disk.
  destruct (watchlist_nothing_qualified silent disk (mkManager 0 true) 0
              ["ZZZ"; "QQQ"; "ZZZ"] "STK" "SMART" "USD" eq_refl) as (m & Hm & Hrun).
  assert (m = <["QQQ" := None]> (<["ZZZ" := None]> ∅)) as ->
    by (injection Hm as <-; reflexivity).
  apply Hrun. intros s. unfold resolved.
  destruct (decide (s = "ZZZ")) as [->|?]; [reflexivity|].
  destruct (decide (s = "QQQ")) as [->|?]; [reflexivity|].
  by rewrite !lookup_insert_ne, lookup_empty by done.
Defined.

Lemma save_watchlist_results_raises {Files : Type} (disk : Os.Disk Files Document)
    results files e :
  (save_watchlist_results disk results files).2 = Raise e → e = OSError.
Proof. apply mkdir_and_write_raises. Qed.

(** When at least one symbol qualifies, [create_watchlist_from_symbols]
    requests market data, then writes the import file, then builds its
    results and saves them: the results file, the file of the contracts
    and, when a symbol failed, the file of the failed symbols.  The import
    file is written before anything makes the output directory; when a
    file operation fails the call raises that error, after the market
    data requests, and otherwise it returns the results.  The results
    list every distinct input symbol exactly once, in the order of first
    occurrence: under the successful contracts when its entry is a
    contract, under the failed symbols when its entry is [None].  The two
    lists together are as long as the number of distinct symbols, which
    is at most [total_symbols], the length of the input; and the import
    file has one row per successful contract, in the same order. *)
Theorem watchlist_partition {Session Files : Type} (api : IB Session)
    (disk : Os.Disk Files Document) (self : IBKRManager Session) (files : Files)
    (symbols : list string) (sec_type exchange currency : string) :
  connected self = true →
  let run := Ibkr.qualify_contracts (ib_qualifyContracts api) true (ib self) symbols
               sec_type exchange currency 50 in
  let outcome := create_watchlist_from_symbols api disk self files symbols sec_type
                   exchange currency in
  ∃ m,
    run.2 = Return m
    ∧ ((∃ s, resolved m s = true) →
       ∃ results rows,
         let valid_contracts := omap (λ s, mjoin (m !! s)) (fromkeys ∅ symbols) in
         let written := Os.write_files disk [tws_import_csv rows] files in
         let saved :=
           Os.mkdir_and_write disk
             ([watchlist_results_json results;
               watchlist_contracts_csv (successful_contracts results)]
              ++ (if bool_decide (failed_symbols results = []) then []
                  else [watchlist_failed_txt (failed_symbols results)]))
             written.1 in
         outcome.1.1 = mkManager (add_loop api true valid_contracts run.1 0).1 true
         ∧ (∀ e, written.2 = Raise e →
              e = OSError ∧ outcome = ((outcome.1.1, written.1), Raise OSError))
         ∧ (written.2 = Return tt →
            (∀ e, saved.2 = Raise e →
               e = OSError ∧ outcome = ((outcome.1.1, saved.1), Raise OSError))
            ∧ (saved.2 = Return tt →
               outcome = ((outcome.1.1, saved.1), Return results)))
         ∧ total_symbols results = length symbols
         ∧ entry_symbol <$> successful_contracts results
           = filter (λ s, resolved m s = true) (fromkeys ∅ symbols)
         ∧ failed_symbols results
           = filter (λ s, unresolved m s = true) (fromkeys ∅ symbols)
         ∧ (∀ s, s ∈ symbols ↔
                 s ∈ entry_symbol <$> successful_contracts results
                 ∨ s ∈ failed_symbols results)
         ∧ length (successful_contracts results) + length (failed_symbols results)
           = size m
         ∧ size m ≤ total_symbols results
         ∧ import_rows results = Some rows
         ∧ rows = csv_data valid_contracts
         ∧ row_Symbol <$> rows = entry_contract_symbol <$> successful_contracts results).
Proof.
  intros Hconnected run outcome. destruct self as [ib0 c]. simpl in Hconnected. subst c.
  destruct (create_watchlist_unfold api disk ib0 files symbols sec_type exchange currency)
    as (d & m & Hm & Hitems & Hkeys & Hdom & Hrun).
  exists m. split; [done|]. intros [s Hs]. cbv zeta in Hrun. fold outcome in Hrun.
  destruct (items_by_key d m Hitems) as (Hentries & Hfailed & Hvalid & Hlen).
  assert (omap (λ item, item.2) d ≠ []) as Hsome.
  { rewrite Hvalid. intros Hnil.
    assert (s ∈ d.*1) as Hin.
    { rewrite Hkeys, fromkeys_elem.
      assert (s ∈ dom m) as Hd
        by (apply elem_of_dom; unfold resolved in Hs; by destruct (m !! s)).
      rewrite Hdom in Hd. by apply elem_of_list_to_set in Hd. }
    apply list_elem_of_split in Hin as (k1 & k2 & Hsplit). rewrite Hsplit in Hnil.
    rewrite omap_app in Hnil. apply app_eq_nil in Hnil as [_ Hnil]. simpl in Hnil.
    unfold resolved in Hs. by destruct (m !! s) as [[c|]|]. }
  rewrite bool_decide_eq_false_2 in Hrun by done.
  assert (omap entry_of d ≠ []) as Hlisted.
  { intros Hnil. apply Hsome. clear -Hnil.
    induction d as [|[k [c|]] d IH]; [done|done|]. by apply IH. }
  assert (size m = length d) as Hsize.
  { rewrite <- size_dom, Hdom, <- fromkeys_length, <- Hkeys. by rewrite length_fmap. }
  assert (row_Symbol <$> csv_data (omap (λ item, item.2) d)
          = entry_contract_symbol <$> omap entry_of d) as Hrows.
  { clear. induction d as [|[k [c|]] d IH]; [done| |done].
    cbn [omap list_omap]. change (entry_of (k, Some c))
      with (Some (mkEntry k (symbol c) (exchange_of c) (currency c) (conId c)
                    (secType c))).
    cbn [snd]. unfold csv_data in *. rewrite !fmap_cons. cbn [row_Symbol
      entry_contract_symbol]. by rewrite IH. }
  rewrite Hvalid, Hkeys in Hrun, Hrows.
  set (valid := omap (λ s, mjoin (m !! s)) (fromkeys ∅ symbols)) in *.
  set (requested := add_loop api true valid run.1 0) in *.
  set (results := mkResults (0 <? requested.2) (length symbols) (omap entry_of d)
                    (omap failed_of d) (Some (csv_data valid))) in *.
  assert (∀ f, save_watchlist_results disk results f
            = Os.mkdir_and_write disk
                ([watchlist_results_json results;
                  watchlist_contracts_csv (successful_contracts results)]
                 ++ (if bool_decide (failed_symbols results = []) then []
                     else [watchlist_failed_txt (failed_symbols results)])) f) as Hsave.
  { intros f. unfold save_watchlist_results.
    by rewrite (bool_decide_eq_false_2 (successful_contracts results = [])) by done. }
  rewrite Hsave in Hrun.
  exists results, (csv_data valid). cbv zeta.
  destruct (Os.write_files disk [tws_import_csv (csv_data valid)] files)
    as [files' written_result] eqn:Hwritten.
  cbn [fst snd] in Hrun |- *.
  destruct (Os.mkdir_and_write disk _ files') as [files'' saved_result] eqn:Hsaved.
  cbn [fst snd] in Hrun |- *.
  assert (outcome.1.1 = mkManager requested.1 true) as Hself.
  { rewrite Hrun. by destruct written_result as [[]|e], saved_result as [[]|e']. }
  rewrite Hself.
  split; [done|]. split; [|split].
  - intros e ->.
    pose proof (write_files_raises disk [tws_import_csv (csv_data valid)] files e) as He.
    rewrite Hwritten in He. specialize (He eq_refl). subst e. by rewrite Hrun.
  - intros ->. split.
    + intros e ->.
      assert (e = OSError) as ->
        by (eapply mkdir_and_write_raises; by rewrite Hsaved).
      by rewrite Hrun.
    + intros ->. by rewrite Hrun.
  - unfold results.
    cbn [total_symbols successful_contracts failed_symbols import_rows].
    rewrite Hentries, Hfailed, Hkeys.
    split; [done|]. split; [done|]. split; [done|].
    split; [|split; [|split; [|split; [|split]]]].
    + intros s'. rewrite !list_elem_of_filter, fromkeys_elem. split; [|tauto].
      intros Hin. assert (is_Some (m !! s')) as [v Hv].
      { apply elem_of_dom. rewrite Hdom.
        by apply (elem_of_list_to_set (C := gset string)). }
      unfold resolved, unresolved. rewrite Hv. destruct v; [left|right]; done.
    + rewrite <- Hkeys, <- Hfailed. lia.
    + rewrite <- size_dom, Hdom. apply size_list_to_set_le.
    + done.
    + done.
    + done.
Qed.

End manager_watchlist.

Section manager_results.
Import Ibkr IbkrSpec Suppliers Manager ManagerSpec Watchlist.

(** A disk on which the data directory does not exist until [mkdir]
    makes it: a write before that fails. *)
Lemma watchlist_partition_witness :
  let picky := mkIB nat (λ ib, (ib, true)) (λ ib, (ib, true))
                 (λ ib batch,
                    (S ib, mkReply untouched
                             (Some (filter (λ c, symbol c ≠ "A") batch))))
                 (λ ib contract, (S ib, true)) in
  let missing := Os.mkDisk (λ made : bool, (true, true))
                   (λ (made : bool) (_ : Document), (made, made)) in
  create_watchlist_from_symbols picky missing (mkManager 0 true) false
    ["B"; "A"; "B"; "C"] "STK" "SMART" "USD"
  = ((mkManager 3 true, false), Raise OSError)
  ∧ ∃ results,
      entry_symbol <$> successful_contracts results = ["B"; "C"]
      ∧ failed_symbols results = ["A"]
      ∧ total_symbols results = 4.
Proof.
  intros picky missing.
  destruct (watchlist_partition picky missing (mkManager 0 true) false
              ["B"; "A"; "B"; "C"] "STK" "SMART" "USD" eq_refl) as (m & Hm & Hsome).
  injection Hm as <-.
  destruct Hsome as (results & rows & Hself & Hfails & _ & Htotal & Hentries
                     & Hfailed & _).
  { exists "B". reflexivity. }
  split.
  - destruct (Hfails OSError eq_refl) as [_ Hraise].
    etrans; [exact Hraise|]. rewrite Hself. reflexivity.
  - exists results. rewrite Hentries, Hfailed, Htotal.
    split; [reflexivity|]. split; reflexivity.
Defined.

Lemma resolved_entry_fields {Session : Type}
    (qualifyContracts : Session → list Contract → Session * Reply)
    (ib : Session) (symbols : list string) (sec_type exchange currency : string)
    (batch_size : Z) (m : gmap string (option Contract)) (s : string) (c : Contract) :
  (0 < batch_size)%Z →
  keeps_keys qualifyContracts →
  (Ibkr.qualify_contracts qualifyContracts true ib symbols sec_type exchange currency
     batch_size).2 = Return m →
  m !! s = Some (Some c) →
  symbol c = s ∧ Ibkr.currency c = currency ∧ secType c = sec_type.
Proof.
  intros Hb Hkeys Hm Hs.
  destruct (qualify_contracts_writes qualifyContracts ib symbols sec_type exchange
              currency batch_size Hb) as (windows & Hw & Hrun).
  rewrite Hrun in Hm. injection Hm as <-.
  apply writes_lookup_inv in Hs as [Hs|Hin]; [by rewrite lookup_empty in Hs|].
  apply list_elem_of_lookup in Hin as [p Hp].
  rewrite all_writes_lookup in Hp.
  destruct (symbols !! p) as [s'|] eqn:Hs'; [|done]. simpl in Hp.
  injection Hp as -> Hc.
  destruct (request_at_created qualifyContracts ib
              ((λ s, create_contract s sec_type exchange currency) <$> symbols)
              batch_size p (create_contract s sec_type exchange currency) Hb)
    as (windows' & Hw' & Hreq); [by rewrite list_lookup_fmap, Hs'|].
  rewrite Hw in Hw'. injection Hw' as <-. rewrite Hreq in Hc. simpl in Hc.
  unfold resolve in Hc.
  destruct (answer_at _ _) as [qb|]; [|done].
  apply scan_Some in Hc as (_ & _ & _ & Hkey & _).
  apply key_matches_spec in Hkey as (Hsym & Hcur & Hsec).
  rewrite Hsym, Hcur, Hsec. unfold request_left.
  destruct (create_contract_fields s sec_type exchange currency) as (Es & Et & _ & Ec).
  destruct (windows !! _) as [batch|]; [|done].
  destruct (Hkeys (session_after qualifyContracts ib
                     (take (p / Z.to_nat batch_size) windows)) batch
              (p `mod` Z.to_nat batch_size)
              (create_contract s sec_type exchange currency)) as (-> & -> & ->).
  done.
Qed.

Lemma positive_count_has_success (outcomes : list bool) :
  0 < length (filter (λ ok, ok = true) outcomes) ↔ true ∈ outcomes.
Proof.
  induction outcomes as [|[|] outcomes IH].
  - split; [simpl; lia|]. by intros ?%elem_of_nil.
  - rewrite filter_cons_True by done. split; [left|simpl; lia].
  - rewrite filter_cons_False by done. rewrite IH. split; [by right|].
    by intros [?|?]%elem_of_cons.
Qed.

(** Whenever [create_watchlist_from_symbols] returns (that is, when no
    file operation failed), every entry under the successful contracts is
    made from the contract that [qualify_contracts] stored for its
    symbol; when the session leaves the key fields of the requests alone,
    the contract's symbol is that symbol and its currency and security
    type are the ones asked for.  The result says success exactly when at
    least one market data request for a qualified contract did not raise;
    so success implies a successful contract, but contracts may qualify
    and be listed while success is [False]. *)
Theorem watchlist_entries_and_success {Session Files : Type} (api : IB Session)
    (disk : Os.Disk Files Document) (self : IBKRManager Session) (files : Files)
    (symbols : list string) (sec_type exchange currency : string)
    (results : Results) :
  connected self = true →
  let run := Ibkr.qualify_contracts (ib_qualifyContracts api) true (ib self) symbols
               sec_type exchange currency 50 in
  let outcome := create_watchlist_from_symbols api disk self files symbols sec_type
                   exchange currency in
  outcome.2 = Return results →
  ∃ m,
    run.2 = Return m
    ∧ connected outcome.1.1 = true
    ∧ (∀ e, e ∈ successful_contracts results →
         ∃ c, m !! entry_symbol e = Some (Some c)
              ∧ e = mkEntry (entry_symbol e) (symbol c) (exchange_of c)
                      (Ibkr.currency c) (conId c) (secType c)
              ∧ (keeps_keys (ib_qualifyContracts api) →
                 entry_contract_symbol e = entry_symbol e
                 ∧ entry_currency e = currency
                 ∧ entry_sec_type e = sec_type))
    ∧ (success results = true ↔
         true ∈ request_outcomes api run.1
                  (omap (λ s, mjoin (m !! s)) (fromkeys ∅ symbols)))
    ∧ (success results = true → successful_contracts results ≠ []).
Proof.
  intros Hconnected run outcome Hreturned.
  destruct self as [ib0 c]. simpl in Hconnected. subst c.
  destruct (create_watchlist_unfold api disk ib0 files symbols sec_type exchange currency)
    as (d & m & Hm & Hitems & Hkeys & Hdom & Hrun).
  cbv zeta in Hrun. cbn [ib]. fold run in Hm, Hrun. fold outcome in Hrun.
  destruct (items_by_key d m Hitems) as (_ & _ & Hvalid & _).
  assert (∀ e, e ∈ omap entry_of d →
            ∃ c, m !! entry_symbol e = Some (Some c)
                 ∧ e = mkEntry (entry_symbol e) (symbol c) (exchange_of c)
                         (Ibkr.currency c) (conId c) (secType c)
                 ∧ (keeps_keys (ib_qualifyContracts api) →
                    entry_contract_symbol e = entry_symbol e
                    ∧ entry_currency e = currency
                    ∧ entry_sec_type e = sec_type)) as Hentry.
  { intros e ([k [c|]] & Hin & He)%list_elem_of_omap; [|done].
    injection He as <-. simpl. exists c.
    pose proof (Hitems k (Some c) Hin) as Hk.
    split; [done|]. split; [done|]. intros Hkeep.
    destruct (resolved_entry_fields (ib_qualifyContracts api) ib0 symbols sec_type
                exchange currency 50 m k c ltac:(lia) Hkeep Hm Hk) as (-> & -> & ->).
    done. }
  exists m. split; [done|]. rewrite Hrun in Hreturned |- *.
  case_bool_decide as Hnil.
  - injection Hreturned as <-. cbn [success successful_contracts connected fst snd].
    rewrite <- Hkeys, <- Hvalid, Hnil. simpl.
    split; [done|]. split; [by intros e ?%elem_of_nil|].
    split; [|done]. split; [done|]. by intros ?%elem_of_nil.
  - destruct (Os.write_files disk _ files) as [files' [[]|e]]; cbn [fst snd] in *;
      [|done].
    destruct (save_watchlist_results disk _ files') as [files'' [[]|e]];
      cbn [fst snd] in *; [|done].
    injection Hreturned as <-. cbn [success successful_contracts connected].
    rewrite <- Hkeys, <- Hvalid.
    split; [done|]. split; [done|].
    rewrite add_loop_requests, Nat.add_0_l.
    assert (∀ n, (0 <? n) = true ↔ 0 < n) as Hlt by (intros n; apply Nat.ltb_lt).
    rewrite Hlt, positive_count_has_success. split; [done|]. intros _ Hempty.
    apply Hnil. clear -Hempty. induction d as [|[k [c|]] d IH]; [done|done|].
    apply IH. exact Hempty.
Qed.

Lemma watchlist_entries_and_success_witness :
  let refusing := mkIB nat (λ ib, (ib, true)) (λ ib, (ib, true))
                    (λ ib batch, (S ib, mkReply untouched (Some batch)))
                    (λ ib contract, (S ib, false)) in
  let disk := Os.mkDisk (λ n : nat, (n, true)) (λ (n : nat) (_ : Document), (S n, true)) in
  ∃ results,
    (create_watchlist_from_symbols refusing disk (mkManager 0 true) 0 ["IBM"]
       "STK" "SMART" "USD").2 = Return results
    ∧ success results = false
    ∧ entry_contract_symbol <$> successful_contracts results = ["IBM"].
Proof.
  intros refusing disk.
  assert (∃ results,
            (create_watchlist_from_symbols refusing disk (mkManager 0 true) 0 ["IBM"]
               "STK" "SMART" "USD").2 = Return results) as [results Hresults]
    by (eexists; reflexivity).
  destruct (watchlist_entries_and_success refusing disk (mkManager 0 true) 0 ["IBM"]
              "STK" "SMART" "USD" results eq_refl Hresults)
    as (m & Hm & _ & _ & Hsuccess & _).
  exists results. split; [exact Hresults|]. split.
  - destruct (success results); [|reflexivity].
    pose proof (proj1 Hsuccess eq_refl) as Hs. injection Hm as <-.
    apply (bool_decide_pack _) in Hs. by vm_compute in Hs.
  - injection Hresults as <-. reflexivity.
Defined.

End manager_results.

Section insertion_order.
Import Ibkr IbkrSpec Suppliers Manager ManagerSpec Watchlist.

(** Iterating over the dictionary [qualify_contracts] returns visits every
    distinct input symbol once, in the order in which the symbols first
    occur in the input, each with the value the dictionary holds for it. *)
Theorem insertion_order_of_keys {Session : Type}
    (qualifyContracts : Session → list Contract → Session * Reply)
    (ib : Session) (symbols : list string) (sec_type exchange currency : string)
    (batch_size : Z) :
  (0 < batch_size)%Z →
  ∃ d m,
    IbkrOrdered.qualify_contracts qualifyContracts true ib symbols sec_type exchange
      currency batch_size
    = ((Ibkr.qualify_contracts qualifyContracts true ib symbols sec_type exchange
          currency batch_size).1, Return d)
    ∧ (Ibkr.qualify_contracts qualifyContracts true ib symbols sec_type exchange
         currency batch_size).2 = Return m
    ∧ d.*1 = fromkeys ∅ symbols
    ∧ NoDup d.*1
    ∧ (∀ k v, (k, v) ∈ d ↔ m !! k = Some v)
    ∧ length d = size m.
Proof.
  intros Hb.
  pose proof (ordered_agrees qualifyContracts true ib symbols sec_type exchange
                currency batch_size) as [Hsession Hresult].
  destruct (qualify_contracts_result qualifyContracts ib symbols sec_type exchange
              currency batch_size Hb) as (windows & m & _ & Hrun & Hdom & _).
  cbv zeta in Hsession, Hresult.
  destruct (IbkrOrdered.qualify_contracts _ _ _ _ _ _ _ _) as [ib' [d|e]];
    cbn [fst snd] in Hsession, Hresult; [|by rewrite Hrun in Hresult].
  destruct Hresult as (Hmapped & Hnd & Hkeys).
  rewrite Hrun in Hmapped. injection Hmapped as Heq.
  exists d, m. rewrite <- Hsession. split; [done|]. split; [by rewrite Hrun|].
  split; [by apply Hkeys|]. split; [done|]. split.
  - intros k v. rewrite Heq. by apply elem_of_list_to_map.
  - rewrite <- size_dom, Hdom, <- fromkeys_length, <- (Hkeys Hb). by rewrite length_fmap.
Qed.

Lemma insertion_order_of_keys_witness :
  let session := λ (ib : unit) (batch : list Contract),
                   (ib, mkReply untouched (Some batch)) in
  ∃ d, IbkrOrdered.qualify_contracts session true tt ["MSFT"; "AAPL"; "MSFT"; "IBM"]
         "STK" "SMART" "USD" 2 = (tt, Return d)
       ∧ d.*1 = ["MSFT"; "AAPL"; "IBM"].
Proof.
  intros session.
  destruct (insertion_order_of_keys session tt ["MSFT"; "AAPL"; "MSFT"; "IBM"]
              "STK" "SMART" "USD" 2 ltac:(lia)) as (d & m & Hrun & _ & Hkeys & _).
  exists d. split; [exact Hrun|]. rewrite Hkeys. reflexivity.
Defined.

Lemma disconnect_flag {Session : Type} (api : IB Session) (self : IBKRManager Session) :
  match (disconnect api self).2 with
  | Return _ => connected (disconnect api self).1 = false
  | Raise _ => connected (disconnect api self).1 = true
  end.
Proof.
  destruct self as [ib0 [|]]; unfold disconnect; simpl; [|done].
  by destruct (ib_disconnect api ib0) as [ib' [|]].
Qed.

(** *** The calls of a run of [main] *)











Lemma main_outcome_examples :
  let working := mkIB nat (λ ib, (S ib, true)) (λ ib, (S ib, true))
                   (λ ib batch, (S ib, mkReply untouched (Some batch)))
                   (λ ib contract, (S ib, true)) in
  let there := Os.mkDisk (λ n : nat, (n, true)) (λ (n : nat) (_ : Document), (S n, true)) in
  let missing := Os.mkDisk (λ made : bool, (true, true))
                   (λ (made : bool) (_ : Document), (made, made)) in
  main working there (Some (Return ["AAPL"; "BRK.B"])) 0 0
  = ((Some (mkManager 6 false), 3), Return true)
  ∧ main working missing (Some (Return ["AAPL"; "BRK.B"])) 0 false
    = ((Some (mkManager 6 false), false), Return false)
  ∧ main working there (Some (Return [" "; ""])) 0 0
    = ((Some (mkManager 3 false), 0), Return false)
  ∧ main working there None 0 0 = ((None, 0), Return false)
  ∧ (ib (default (mkManager (0, []) false)
           (main (traced working) there (Some (Return ["AAPL"])) (0, []) 0).1.1)).2
    = [call_connect;
       call_qualifyContracts [Stock "AAPL" "SMART" "USD"];
       call_qualifyContracts [Stock "AAPL" "SMART" "USD"];
       call_reqMktData (Stock "AAPL" "SMART" "USD");
       call_disconnect].
Proof. intros working there missing. repeat split; by vm_compute. Qed.

End insertion_order.

(** ** More on the normaliser and the extraction *)

Section normalizer_more.
Import Ibkr Suppliers SuppliersSpec.

(** The list [load_symbols_from_file] returns depends only on which
    entries the input holds, not on their order or on how often each
    occurs. *)
Theorem load_symbols_same_entries (symbols symbols' : list string) :
  (∀ s, s ∈ symbols ↔ s ∈ symbols') →
  load_symbols_from_file symbols = load_symbols_from_file symbols'.
Proof.
  intros Hsame. unfold load_symbols_from_file, unique_sorted.
  assert ((list_to_set (filter (λ s, keep s = true) symbols) : gset string)
          = list_to_set (filter (λ s, keep s = true) symbols')) as ->; [|done].
  apply set_eq. intros s.
  rewrite !elem_of_list_to_set, !list_elem_of_filter, Hsame. done.
Qed.

Lemma load_symbols_same_entries_witness :
  load_symbols_from_file ["IBM"; "AAPL"; "IBM"; "BRK.B"]
  = load_symbols_from_file ["BRK.B"; "IBM"; "AAPL"].
Proof.
  apply load_symbols_same_entries. intros s.
  rewrite !elem_of_cons, !elem_of_nil. tauto.
Defined.

Lemma unique_sorted_fixed (l : list string) :
  StronglySorted String.le l → NoDup l →
  Forall (λ s, s ≠ "" ∧ Py.strip s ≠ "") l →
  unique_sorted l = l.
Proof.
  intros Hsorted Hnd Hkept.
  apply (Sorted_unique String.le).
  - apply StronglySorted_Sorted, unique_sorted_sorted.
  - by apply StronglySorted_Sorted.
  - apply NoDup_Permutation; [apply unique_sorted_NoDup|done|].
    intros s. rewrite unique_sorted_elem. split; [tauto|].
    intros Hs. split; [done|]. exact (proj1 (Forall_forall _ _) Hkept s Hs).
Qed.

(** Passing the returned list through [load_symbols_from_file] again
    gives a list that is sorted, without duplicates, without empty entries
    and without dots: exactly the non-blank entries of the first result.
    A third pass changes nothing. *)
Theorem load_symbols_twice (symbols : list string) :
  let once := load_symbols_from_file symbols in
  let twice := load_symbols_from_file once in
  StronglySorted String.le twice
  ∧ NoDup twice
  ∧ Forall (λ t, t ≠ "" ∧ has_dot t = false) twice
  ∧ (∀ t, t ∈ twice ↔ t ∈ once ∧ Py.strip t ≠ "")
  ∧ load_symbols_from_file twice = twice.
Proof.
  intros once twice.
  assert (Forall (λ s, has_dot s = false) once) as Honce.
  { unfold once, load_symbols_from_file, strip_class.
    apply Forall_fmap, Forall_forall. intros s _. apply before_dot_no_dot. }
  assert (twice = unique_sorted once) as Htwice.
  { unfold twice, load_symbols_from_file. apply strip_class_id.
    apply Forall_forall. intros s (Hs & _)%unique_sorted_elem.
    exact (proj1 (Forall_forall _ _) Honce s Hs). }
  assert (∀ t, t ∈ twice ↔ t ∈ once ∧ Py.strip t ≠ "") as Helem.
  { intros t. rewrite Htwice, unique_sorted_elem. split; [tauto|].
    intros [Ht Hstrip]. split; [done|]. split; [|done]. by intros ->. }
  assert (Forall (λ t, t ≠ "" ∧ has_dot t = false) twice) as Hclean.
  { apply Forall_forall. intros t Ht. pose proof Ht as [Hin Hstrip]%Helem.
    split; [by intros ->|]. exact (proj1 (Forall_forall _ _) Honce t Hin). }
  split; [rewrite Htwice; apply unique_sorted_sorted|].
  split; [rewrite Htwice; apply unique_sorted_NoDup|].
  split; [done|]. split; [done|].
  unfold load_symbols_from_file at 1.
  rewrite unique_sorted_fixed.
  - apply strip_class_id. eapply Forall_impl; [exact Hclean|]. by intros t [_ ?].
  - rewrite Htwice. apply unique_sorted_sorted.
  - rewrite Htwice. apply unique_sorted_NoDup.
  - apply Forall_forall. intros t Ht. pose proof Ht as [_ Hstrip]%Helem.
    split; [by intros ->|done].
Qed.

Lemma fromkeys_sublist (l : list string) : ∀ seen, fromkeys seen l `sublist_of` l.
Proof.
  induction l as [|x l IH]; intros seen; simpl; [done|].
  case_decide; [by apply sublist_cons|by apply sublist_skip].
Qed.

Lemma fromkeys_NoDup_id (l : list string) :
  ∀ seen : gset string, NoDup l → (∀ x, x ∈ l → x ∉ seen) → fromkeys seen l = l.
Proof.
  induction l as [|x l IH]; intros seen Hnd Hseen; simpl; [done|].
  apply NoDup_cons in Hnd as [Hx Hnd].
  rewrite decide_False by (apply Hseen; left). f_equal.
  apply IH; [done|]. intros y Hy. pose proof (Hseen y ltac:(by right)).
  assert (y ≠ x) by (by intros ->). set_solver.
Qed.

Lemma fromkeys_positions (l : list string) :
  ∀ pre : list string,
  fromkeys (list_to_set pre) l
  = omap (λ item : nat * string,
            if decide (item.2 ∈ take item.1 (pre ++ l)) then None else Some item.2)
      (imap (λ i s, (length pre + i, s)) l).
Proof.
  induction l as [|x l IH]; intros pre; [done|].
  rewrite imap_cons. cbn [fromkeys omap list_omap fst snd].
  rewrite Nat.add_0_r, take_app_length.
  assert (omap (λ item : nat * string,
                  if decide (item.2 ∈ take item.1 (pre ++ x :: l)) then None
                  else Some item.2)
            (imap ((λ i s, (length pre + i, s)) ∘ S) l)
          = fromkeys (list_to_set (pre ++ [x])) l) as ->.
  { rewrite IH. rewrite <- app_assoc. simpl. f_equal.
    apply imap_ext. intros i y _. simpl. rewrite length_app. simpl. f_equal. lia. }
  destruct (decide (x ∈ pre)) as [Hin|Hout].
  - rewrite decide_True by (by apply elem_of_list_to_set).
    f_equal. apply set_eq. intros y. rewrite !elem_of_list_to_set, elem_of_app.
    rewrite list_elem_of_singleton. split; [tauto|]. by intros [?| ->].
  - rewrite decide_False by (by rewrite elem_of_list_to_set).
    f_equal. f_equal. apply set_eq. intros y.
    rewrite elem_of_union, !elem_of_list_to_set, elem_of_app, elem_of_singleton.
    rewrite list_elem_of_singleton. tauto.
Qed.

(** [download_and_parse_pdf] returns the names that were extracted with
    every repetition after the first removed: the name at position [i] is
    kept exactly when it is not among the [i] names before it, and the
    names kept stay in their order.  So the result has no duplicates,
    holds exactly the extracted names, and is the extracted list itself
    when that had no duplicates.  When the download or the extraction
    raises, it returns the empty list. *)
Theorem download_keeps_first_occurrences (extracted : result (list string)) :
  match extracted with
  | Raise _ => download_and_parse_pdf extracted = []
  | Return names =>
      download_and_parse_pdf extracted
      = omap (λ item : nat * string,
                if decide (item.2 ∈ take item.1 names) then None else Some item.2)
          (enumerate names)
      ∧ NoDup (download_and_parse_pdf extracted)
      ∧ (∀ s, s ∈ download_and_parse_pdf extracted ↔ s ∈ names)
      ∧ download_and_parse_pdf extracted `sublist_of` names
      ∧ (NoDup names → download_and_parse_pdf extracted = names)
  end.
Proof.
  destruct extracted as [names|e]; [|done]. simpl.
  split; [|split; [apply fromkeys_NoDup|]]; [|split; [|split]].
  - exact (fromkeys_positions names []).
  - intros s. destruct (fromkeys_spec names ∅) as [_ Hin]. rewrite Hin. set_solver.
  - apply fromkeys_sublist.
  - intros Hnd. apply fromkeys_NoDup_id; [done|]. set_solver.
Qed.

(** Of the names a, b, a the first a and the b are kept, in this order. *)
Lemma download_keeps_first_occurrences_example :
  download_and_parse_pdf (Return ["a"; "b"; "a"]) = ["a"; "b"]
  ∧ download_and_parse_pdf (Raise ServiceError) = [].
Proof. split; reflexivity. Qed.

End normalizer_more.

(** ** More on one lookup *)

Section lengths.

Lemma len_append s t : Py.len (s ++ t)%string = Py.len s + Py.len t.
Proof. induction s as [|c s IH]; simpl; [done|]. unfold Py.len in *. simpl. lia. Qed.

Lemma len_lstrip s : Py.len (Py.lstrip s) ≤ Py.len s.
Proof.
  unfold Py.len. induction s as [|c s IH]; simpl; [done|].
  destruct (Py.isspace c); simpl; lia.
Qed.

Lemma len_rstrip s : Py.len (Py.rstrip s) ≤ Py.len s.
Proof.
  unfold Py.len. induction s as [|c s IH]; simpl; [done|].
  destruct (Py.rstrip s) as [|c' r]; simpl in *; [|lia].
  destruct (Py.isspace c); simpl; lia.
Qed.

Lemma len_strip s : Py.len (Py.strip s) ≤ Py.len s.
Proof. unfold Py.strip. etrans; [apply len_rstrip|apply len_lstrip]. Qed.

Lemma len_sub_go s : ∀ prev skip, Py.len (Suppliers.sub_go prev skip s) ≤ Py.len s.
Proof.
  unfold Py.len. induction s as [|c s IH]; intros prev skip; [done|].
  cbn [Suppliers.sub_go String.length]. destruct skip as [|k].
  - destruct (Suppliers.match_at prev (String c s)) as [[|k]|]; simpl;
      try (specialize (IH (Some c) 0); lia).
    specialize (IH (Some c) k); lia.
  - specialize (IH (Some c) k); lia.
Qed.

Lemma len_split_go s :
  ∀ cur, Forall (λ t, Py.len t ≤ Py.len cur + Py.len s) (Py.split_go cur s).
Proof.
  induction s as [|c s IH]; intros cur; simpl.
  - destruct (Py.truthy cur); [|done]. apply Forall_singleton. lia.
  - destruct (Py.isspace c).
    + assert (Forall (λ t, Py.len t ≤ Py.len cur + Py.len (String c s))
                (Py.split_go "" s)) as Hrest.
      { eapply Forall_impl; [apply IH|]. intros t Ht. unfold Py.len in *. simpl in *. lia. }
      destruct (Py.truthy cur); [|done]. apply Forall_cons. split; [lia|done].
    + eapply Forall_impl; [apply IH|]. intros t Ht.
      rewrite len_append in Ht. unfold Py.len in *. simpl in *. lia.
Qed.

End lengths.

Section lookup_more.
Import Suppliers SuppliersSpec PoolSpec.

Lemma build_search_terms_bounds company_name search_terms :
  build_search_terms company_name = Return search_terms →
  length search_terms ≤ 3
  ∧ Forall (λ term, Py.len term ≤ Py.len company_name) search_terms.
Proof.
  unfold build_search_terms.
  pose proof (len_split_go company_name "") as Htokens.
  fold (Py.split company_name) in Htokens.
  destruct (Py.split company_name) as [|first_word more]; [done|]. simpl.
  apply Forall_cons in Htokens as [Hfirst _]. simpl in Hfirst.
  assert (Py.len (Py.strip (remove_suffixes company_name)) ≤ Py.len company_name) as Hclean.
  { etrans; [apply len_strip|apply len_sub_go]. }
  intros [= <-].
  destruct (Py.truthy _ && bool_decide _); destruct (2 <? Py.len first_word); simpl;
    (split; [lia|]); repeat (apply Forall_cons; split; [lia|]); done.
Qed.

Context {World : Type}.
Variable search : World → string → World * Response.

(** The loop sends a part of the terms, in their order, each of length
    at least 2; it threads the endpoint through the calls; and a symbol
    it returns was accepted from the answer to the last term sent. *)
Lemma query_terms_trace search_terms :
  ∀ w queried, ∃ more,
    (query_terms search search_terms w queried).1.2 = queried ++ more
    ∧ (query_terms search search_terms w queried).1.1 = world_after search w more
    ∧ more `sublist_of` search_terms
    ∧ Forall (λ term, 2 ≤ Py.len term) more
    ∧ (∀ symbol, (query_terms search search_terms w queried).2 = Some symbol →
         ∃ earlier term, more = earlier ++ [term]
           ∧ accepted (search (world_after search w earlier) term).2 symbol).
Proof.
  induction search_terms as [|term rest IH]; intros w queried.
  - exists []. simpl. rewrite app_nil_r. repeat split; done.
  - destruct (decide (Py.len term < 2)) as [Hshort|Hlong].
    + rewrite query_terms_short by done.
      destruct (IH w queried) as (more & ? & ? & ? & ? & ?).
      exists more. repeat split; try done. by apply sublist_cons.
    + rewrite query_terms_long by lia.
      destruct (response_match (search w term).2) as [symbol|] eqn:Hm.
      * exists [term]. simpl. repeat split; try done.
        -- apply sublist_skip, sublist_nil_l.
        -- apply Forall_singleton. lia.
        -- intros ? [= <-]. exists [], term. split; [done|].
           by apply response_match_spec.
      * destruct (IH (search w term).1 (queried ++ [term]))
          as (more & Hq & Hw & Hsub & Hlen & Hsym).
        exists (term :: more). rewrite Hq, Hw, <- app_assoc. simpl.
        repeat split; try done.
        -- by apply sublist_skip.
        -- apply Forall_cons. split; [lia|done].
        -- intros symbol (earlier & last & -> & Hacc)%Hsym.
           by exists (term :: earlier), last.
Qed.

Lemma search_ticker_trace (w : World) (company_name : string) :
  let result := search_ticker search w company_name in
  let queried := result.1.2 in
  length queried ≤ 3
  ∧ Forall (λ term, 2 ≤ Py.len term ≤ Py.len company_name) queried
  ∧ result.1.1 = world_after search w queried
  ∧ (∀ symbol, result.2 = Return (Some symbol) →
       symbol ≠ ""
       ∧ ∃ earlier term, queried = earlier ++ [term]
           ∧ accepted (search (world_after search w earlier) term).2 symbol).
Proof.
  intros result queried. unfold queried, result, search_ticker.
  destruct (build_search_terms company_name) as [search_terms|e] eqn:Hterms.
  - apply build_search_terms_bounds in Hterms as [Hthree Hbound].
    destruct (query_terms_trace search_terms w [])
      as (more & Hq & Hw & Hsub & Hlong & Hsym).
    destruct (query_terms search search_terms w []) as [[w' sent] ticker].
    simpl in *. subst sent w'.
    split; [etrans; [by apply sublist_length|done]|].
    split.
    { apply Forall_forall. intros term Hterm. split.
      - exact (proj1 (Forall_forall _ _) Hlong term Hterm).
      - apply (proj1 (Forall_forall _ _) Hbound term). by eapply elem_of_sublist. }
    split; [done|].
    intros symbol [= ->]. destruct (Hsym symbol eq_refl) as (earlier & term & -> & Hacc).
    split; [|by exists earlier, term].
    by destruct Hacc as (? & ? & _ & _ & ? & _).
  - simpl. repeat split; try done. lia.
Qed.

(** One lookup sends at most three terms to the endpoint, each at least
    2 and at most as many characters long as the company name; the
    endpoint is left as these calls leave it.  A symbol that is returned
    is not empty and was accepted from the answer to the last term sent.
    A name of fewer than 2 characters gives [None] without any call. *)
Theorem search_ticker_provenance (w : World) (company_name : string) :
  let result := search_ticker search w company_name in
  let queried := result.1.2 in
  length queried ≤ 3
  ∧ Forall (λ term, 2 ≤ Py.len term ≤ Py.len company_name) queried
  ∧ result.1.1 = world_after search w queried
  ∧ (∀ symbol, result.2 = Return (Some symbol) →
       symbol ≠ ""
       ∧ ∃ earlier term, queried = earlier ++ [term]
           ∧ accepted (search (world_after search w earlier) term).2 symbol)
  ∧ (Py.len company_name < 2 → result = (w, [], Return None)).
Proof.
  intros result queried.
  destruct (search_ticker_trace w company_name) as (Hcount & Hlen & Hworld & Hsym).
  fold result in Hcount, Hlen, Hworld, Hsym. fold queried in Hcount, Hlen, Hworld, Hsym.
  do 4 (split; [done|]).
  intros Hshort.
  assert (queried = []) as Hnone.
  { destruct queried as [|term ?]; [done|].
    apply Forall_cons in Hlen as [[? ?] _]. lia. }
  destruct (search_ticker_returns search w company_name) as [ticker Ht].
  fold result in Ht. unfold queried in *. clearbody result.
  destruct result as [[w' sent] r]. simpl in *. subst sent r w'. simpl.
  destruct ticker as [symbol|]; [|done].
  destruct (Hsym symbol eq_refl) as (_ & earlier & term & Heq & _).
  by destruct earlier.
Qed.

End lookup_more.

(** ** More on the pool *)

Section pool_more.
Import Suppliers SuppliersSpec PoolSpec.

Lemma stored_not_empty future ticker : stored future = Some ticker → ticker ≠ "".
Proof.
  unfold stored. destruct (outcome future) as [[supplier [t|]]|e]; simpl; try done.
  destruct t; simpl; [done|]. by intros [= <-].
Qed.

Lemma stored_truthy future :
  Py.truthy (default "" (stored future)) = true ↔ is_Some (stored future).
Proof.
  destruct (stored future) as [ticker|] eqn:Hs; simpl.
  - apply stored_not_empty in Hs. rewrite truthy_spec. by split.
  - split; [done|]. by intros [? ?].
Qed.

Lemma stored_returned future ticker :
  stored future = Some ticker →
  ∃ supplier, outcome future = Return (supplier, Some ticker).
Proof.
  unfold stored. destruct (outcome future) as [[supplier [t|]]|e]; simpl; try done.
  destruct (Py.truthy t); [|done]. intros [= <-]. by exists supplier.
Qed.

Lemma in_range (suppliers : list string) as_completed :
  as_completed ≡ₚ seq 0 (length suppliers) →
  Forall (λ k, k < length suppliers) as_completed.
Proof.
  intros Hperm. rewrite Hperm. apply Forall_forall. intros j Hj%elem_of_seq. lia.
Qed.

Lemma stored_values_lookup submit suppliers k :
  stored_values submit suppliers !! k = (λ s, stored (submit (k, s))) <$> suppliers !! k.
Proof.
  unfold stored_values. rewrite list_lookup_fmap, enumerate_lookup.
  by destruct (suppliers !! k).
Qed.

Lemma stored_values_length submit suppliers :
  length (stored_values submit suppliers) = length suppliers.
Proof. unfold stored_values, enumerate. by rewrite length_fmap, length_imap. Qed.

Lemma filter_ext_elem {A} (P Q : A → Prop) `{∀ x, Decision (P x)} `{∀ x, Decision (Q x)}
    (l : list A) :
  (∀ x, x ∈ l → P x ↔ Q x) → filter P l = filter Q l.
Proof.
  induction l as [|x l IH]; intros Hext; [done|].
  rewrite !filter_cons. rewrite IH by (intros y Hy; apply Hext; by right).
  destruct (decide (P x)) as [HP|HP], (decide (Q x)) as [HQ|HQ]; try done.
  - by apply Hext in HP; [|left].
  - by apply Hext in HQ; [|left].
Qed.

(** Counting by position and counting the values give the same number. *)
Lemma count_positions {A} (l : list (option A)) :
  length (filter (λ k, is_Some (mjoin (l !! k))) (seq 0 (length l)))
  = length (filter is_Some l).
Proof.
  induction l as [|v l IH] using rev_ind; [done|].
  rewrite length_app. simpl. rewrite Nat.add_1_r, seq_S. simpl.
  rewrite !filter_app, !length_app.
  rewrite (filter_ext_elem _ (λ k, is_Some (mjoin (l !! k)))).
  2:{ intros k Hk%elem_of_seq. by rewrite lookup_app_l by lia. }
  rewrite IH. f_equal.
  rewrite !filter_cons, !filter_nil.
  rewrite lookup_app_r by lia. rewrite Nat.sub_diag. simpl.
  destruct (decide (is_Some v)), (decide (is_Some v)); done.
Qed.

Lemma find_tickers_loop_found suppliers submit as_completed :
  Forall (λ k, k < length suppliers) as_completed →
  ∀ st,
  let future_to_supplier := (λ item, (submit item, item.2)) <$> enumerate suppliers in
  found_count (foldl (complete future_to_supplier) st as_completed)
  = found_count st
    + length (filter (λ k, is_Some (mjoin (stored_values submit suppliers !! k)))
                as_completed).
Proof.
  induction 1 as [|k order Hk Horder IH]; intros st; simpl; [lia|].
  destruct (lookup_lt_is_Some_2 suppliers k Hk) as [s Hs].
  rewrite (complete_write _ _ _ _ s Hs). simpl in IH. rewrite IH. simpl.
  rewrite task_write_value, filter_cons, stored_values_lookup, Hs. simpl.
  destruct (decide (is_Some (stored (submit (k, s))))) as [Hsome|Hnone].
  - rewrite (proj2 (stored_truthy _) Hsome). simpl. lia.
  - destruct (Py.truthy (default "" (stored (submit (k, s))))) eqn:Ht; [|done].
    by apply stored_truthy in Ht.
Qed.

Lemma enumerate_snd {A} (l : list A) : (enumerate l).*2 = l.
Proof.
  apply list_eq. intros i. rewrite list_lookup_fmap, enumerate_lookup.
  by destruct (l !! i).
Qed.

Lemma count_found_list_to_map (l : list (string * option string)) :
  NoDup l.*1 →
  count_found (list_to_map l) = length (filter (λ kv, is_Some kv.2) l).
Proof.
  unfold count_found. induction l as [|[k v] l IH]; intros Hnd.
  - by rewrite list_to_map_nil, map_filter_empty, map_size_empty.
  - rewrite fmap_cons in Hnd. apply NoDup_cons in Hnd as [Hk Hnd].
    rewrite list_to_map_cons, filter_cons. simpl.
    assert ((list_to_map l : gmap string (option string)) !! k = None) as Hfresh.
    { by apply not_elem_of_list_to_map_1. }
    destruct (decide (is_Some v)) as [Hv|Hv].
    + rewrite map_filter_insert_True by done.
      rewrite map_size_insert_None by (by rewrite map_lookup_filter_None; left).
      simpl. by rewrite IH.
    + rewrite map_filter_insert_not' ; [by apply IH|done|].
      intros y Hy. congruence.
Qed.

Lemma find_tickers_list_to_map suppliers submit as_completed :
  NoDup suppliers →
  as_completed ≡ₚ seq 0 (length suppliers) →
  returns_own_name submit →
  find_tickers suppliers submit as_completed
  = list_to_map ((λ item, (item.2, stored (submit item))) <$> enumerate suppliers).
Proof.
  intros Hnd Hperm Hown. apply map_eq. intros s.
  assert (((λ item : nat * string, (item.2, stored (submit item)))
             <$> enumerate suppliers).*1 = suppliers) as Hkeys.
  { rewrite <- list_fmap_compose. apply enumerate_snd. }
  destruct (decide (s ∈ suppliers)) as [Hin|Hout].
  - apply list_elem_of_lookup in Hin as [k Hk].
    rewrite (find_tickers_lookup _ _ _ k) by done. symmetry.
    apply elem_of_list_to_map_1; [by rewrite Hkeys|].
    apply list_elem_of_fmap. exists (k, s). split; [done|].
    apply list_elem_of_lookup. exists k. by rewrite enumerate_lookup, Hk.
  - transitivity (@None (option string)).
    + apply not_elem_of_dom. rewrite find_tickers_dom by done.
      by rewrite elem_of_list_to_set.
    + symmetry. apply not_elem_of_list_to_map_1. by rewrite Hkeys.
Qed.

Lemma length_filter_fmap {A B} (f : A → B) (P : B → Prop) `{∀ x, Decision (P x)}
    (l : list A) :
  length (filter P (f <$> l)) = length (filter (λ x, P (f x)) l).
Proof.
  induction l as [|x l IH]; [done|]. rewrite fmap_cons, !filter_cons.
  destruct (decide (P (f x))); simpl; by rewrite IH.
Qed.

(** When every future has been drained, the counter of completed tasks
    is the number of names and the counter of found tickers is the number
    of futures that yielded a non-empty ticker, in every completion
    order; so the second never exceeds the first.  When the names are
    distinct, the counter of found tickers is also the number of entries
    of the result that are not [None]. *)
Theorem progress_counters (suppliers : list string) (submit : nat * string → Future)
    (as_completed : list nat) :
  as_completed ≡ₚ seq 0 (length suppliers) →
  let final := find_tickers_loop suppliers submit as_completed in
  completed_count final = length suppliers
  ∧ found_count final = stored_count submit suppliers
  ∧ found_count final ≤ completed_count final
  ∧ (NoDup suppliers → returns_own_name submit →
     count_found (tickers final) = found_count final).
Proof.
  intros Hperm final.
  assert (completed_count final = length suppliers) as Hcompleted
    by (by apply find_tickers_completed).
  assert (found_count final = stored_count submit suppliers) as Hfound.
  { unfold final, find_tickers_loop.
    rewrite find_tickers_loop_found by (by apply in_range). simpl.
    rewrite Hperm. rewrite <- (stored_values_length submit suppliers).
    apply count_positions. }
  split; [done|]. split; [done|]. split.
  - rewrite Hfound, Hcompleted. unfold stored_count.
    etrans; [apply length_filter|]. by rewrite stored_values_length.
  - intros Hnd Hown. rewrite Hfound.
    change (tickers final) with (find_tickers suppliers submit as_completed).
    rewrite find_tickers_list_to_map by done.
    rewrite count_found_list_to_map.
    + unfold stored_count, stored_values.
      by rewrite (length_filter_fmap (λ item, stored (submit item)) is_Some),
        (length_filter_fmap (λ item : nat * string, (item.2, stored (submit item)))
           (λ kv, is_Some kv.2)).
    + rewrite <- list_fmap_compose.
      assert ((fst ∘ (λ item : nat * string, (item.2, stored (submit item)))
                 <$> enumerate suppliers) = suppliers) as ->; [|done].
      apply enumerate_snd.
Qed.

End pool_more.

Section pool_duplicates.
Import Suppliers SuppliersSpec PoolSpec.

Lemma last_such {A} (P : A → Prop) `{∀ x, Decision (P x)} (l : list A) :
  Exists P l →
  ∃ earlier k later, l = earlier ++ k :: later ∧ P k ∧ Forall (λ j, ¬ P j) later.
Proof.
  induction l as [|x l IH]; intros Hex; [by apply Exists_nil in Hex|].
  destruct (decide (Exists P l)) as [Hl|Hl].
  - destruct (IH Hl) as (earlier & k & later & -> & Hk & Hlater).
    by exists (x :: earlier), k, later.
  - apply Exists_cons in Hex as [Hx|Hl']; [|done].
    exists [], x, l. split; [done|]. split; [done|].
    by apply not_Exists_Forall in Hl.
Qed.

(** The entry of a name is what the last of its futures to complete
    stored. *)
Lemma find_tickers_last suppliers submit earlier k later s :
  returns_own_name submit →
  Forall (λ j, j < length suppliers) (earlier ++ k :: later) →
  suppliers !! k = Some s →
  Forall (λ j, suppliers !! j ≠ Some s) later →
  find_tickers suppliers submit (earlier ++ k :: later) !! s
  = Some (stored (submit (k, s))).
Proof.
  intros Hown Hall Hk Hlater. unfold find_tickers, find_tickers_loop.
  destruct (find_tickers_loop_writes suppliers submit _ Hall (mkProgress ∅ 0 0))
    as [-> _]. simpl.
  rewrite omap_app. simpl. rewrite Hk. simpl.
  rewrite (surjective_pairing (task_write submit (k, s))).
  rewrite task_write_key by done. rewrite task_write_value. simpl.
  apply writes_lookup_last.
  intros ([s' v'] & Hs' & Hin')%list_elem_of_fmap. simpl in Hs'. subst s'.
  apply list_elem_of_omap in Hin' as (j & Hj & Hjw).
  destruct (suppliers !! j) as [sj|] eqn:Hsj; [|done]. simpl in Hjw.
  injection Hjw as Hjw.
  assert ((task_write submit (j, sj)).1 = s) as Hkey by (by rewrite Hjw).
  rewrite task_write_key in Hkey by done. simpl in Hkey. subst sj.
  by apply (proj1 (Forall_forall _ _) Hlater j Hj).
Qed.

(** On any list of names, repeated or not, the result has one entry per
    distinct name, and the entry of a name is what the future of that
    name that completed last stored.  So with a repeated name the result
    depends on the completion order: when the two futures of a name
    given twice store different values, the two orders give different
    results. *)
Theorem last_completed_wins (suppliers : list string)
    (submit : nat * string → Future) (as_completed : list nat) :
  returns_own_name submit →
  as_completed ≡ₚ seq 0 (length suppliers) →
  dom (find_tickers suppliers submit as_completed) = list_to_set suppliers
  ∧ (∀ s, s ∈ suppliers →
       ∃ earlier k later,
         as_completed = earlier ++ k :: later
         ∧ suppliers !! k = Some s
         ∧ Forall (λ j, suppliers !! j ≠ Some s) later
         ∧ find_tickers suppliers submit as_completed !! s
           = Some (stored (submit (k, s))))
  ∧ (∀ s, stored (submit (0, s)) ≠ stored (submit (1, s)) →
       find_tickers [s; s] submit [0; 1] ≠ find_tickers [s; s] submit [1; 0]).
Proof.
  intros Hown Hperm. split; [by apply find_tickers_dom|]. split.
  - intros s [k0 Hk0]%list_elem_of_lookup.
    assert (Exists (λ j, suppliers !! j = Some s) as_completed) as Hex.
    { apply Exists_exists. exists k0. split; [|done].
      rewrite Hperm. apply elem_of_seq. apply lookup_lt_Some in Hk0. lia. }
    apply last_such in Hex as (earlier & k & later & Heq & Hk & Hlater); [|apply _].
    exists earlier, k, later. split; [done|]. split; [done|]. split; [done|].
    rewrite Heq. apply find_tickers_last; try done.
    rewrite <- Heq. by apply in_range.
  - intros s Hdiff Heq.
    assert (find_tickers [s; s] submit ([0] ++ 1 :: []) !! s
            = Some (stored (submit (1, s)))) as Hfirst.
    { apply find_tickers_last; try done. simpl. repeat constructor. }
    assert (find_tickers [s; s] submit ([1] ++ 0 :: []) !! s
            = Some (stored (submit (0, s)))) as Hsecond.
    { apply find_tickers_last; try done. simpl. repeat constructor. }
    simpl in Hfirst, Hsecond. rewrite Heq in Hfirst. congruence.
Qed.

Lemma run_task_search_ticker {World}
    (search : nat → World → string → World * Response) (w0 : nat → World) k s :
  queried (run_task search w0 (k, s)) = (search_ticker (search k) (w0 k) s).1.2
  ∧ outcome (run_task search w0 (k, s))
    = match (search_ticker (search k) (w0 k) s).2 with
      | Return ticker => Return (s, ticker)
      | Raise e => Raise e
      end.
Proof.
  unfold run_task, search_ticker_with_progress. cbn [fst snd].
  by destruct (search_ticker (search k) (w0 k) s) as [[w' sent] [ticker|e]].
Qed.

(** With the tasks the program submits, every ticker in the result is a
    non-empty symbol that the search endpoint gave, in an accepted first
    quote, in answer to the last term a task for that very name sent. *)
Theorem tickers_are_accepted_symbols {World : Type}
    (search : nat → World → string → World * Response) (w0 : nat → World)
    (suppliers : list string) (as_completed : list nat) (s ticker : string) :
  as_completed ≡ₚ seq 0 (length suppliers) →
  find_tickers suppliers (run_task search w0) as_completed !! s = Some (Some ticker) →
  ticker ≠ ""
  ∧ ∃ k earlier term,
      suppliers !! k = Some s
      ∧ queried (run_task search w0 (k, s)) = earlier ++ [term]
      ∧ accepted (search k (world_after (search k) (w0 k) earlier) term).2 ticker.
Proof.
  intros Hperm. unfold find_tickers, find_tickers_loop.
  destruct (find_tickers_loop_writes suppliers (run_task search w0) as_completed
              (in_range _ _ Hperm) (mkProgress ∅ 0 0)) as [-> _]. simpl.
  intros [Hempty|Hin]%writes_lookup_inv; [by rewrite lookup_empty in Hempty|].
  apply list_elem_of_omap in Hin as (k & _ & Hw).
  destruct (suppliers !! k) as [sk|] eqn:Hk; [|done]. simpl in Hw.
  injection Hw as Hw.
  assert ((task_write (run_task search w0) (k, sk)).1 = s) as Hkey by (by rewrite Hw).
  rewrite task_write_key in Hkey by apply run_task_returns_own_name.
  simpl in Hkey. subst sk.
  assert (stored (run_task search w0 (k, s)) = Some ticker) as Hstored.
  { by rewrite <- task_write_value, Hw. }
  apply stored_returned in Hstored as [supplier Hout].
  destruct (run_task_search_ticker search w0 k s) as [Hq Ho].
  rewrite Ho in Hout.
  destruct (search_ticker_trace (search k) (w0 k) s) as (_ & _ & _ & Hsym).
  destruct ((search_ticker (search k) (w0 k) s).2) as [t|e] eqn:Hres; [|done].
  injection Hout as _ ->.
  destruct (Hsym ticker eq_refl) as (Hne & earlier & term & Hsent & Hacc).
  split; [done|]. exists k, earlier, term. rewrite Hq. done.
Qed.

End pool_duplicates.

Section pool_witnesses.
Import Suppliers SuppliersSpec PoolSpec.

Lemma progress_counters_witness :
  let submit := λ item : nat * string,
    mkFuture [] (Return (item.2, if item.1 =? 0 then Some "AA" else Some "")) in
  let final := find_tickers_loop ["A"; "B"] submit [1; 0] in
  completed_count final = 2 ∧ found_count final = 1
  ∧ count_found (tickers final) = 1.
Proof.
  intros submit final.
  assert ([1; 0] ≡ₚ seq 0 (length ["A"; "B"])) as Hperm by apply perm_swap.
  destruct (progress_counters ["A"; "B"] submit [1; 0] Hperm)
    as (Hcompleted & Hfound & _ & Hentries).
  split; [exact Hcompleted|]. split; [exact Hfound|].
  etrans; [apply Hentries|exact Hfound].
  - repeat constructor; set_solver.
  - by intros item supplier ticker [= <- _].
Defined.

Lemma last_completed_wins_witness :
  let submit := λ item : nat * string,
    mkFuture [] (Return (item.2, if item.1 =? 0 then Some "AA" else None)) in
  dom (find_tickers ["A"; "A"] submit [1; 0]) = {["A"]}
  ∧ find_tickers ["A"; "A"] submit [0; 1] ≠ find_tickers ["A"; "A"] submit [1; 0].
Proof.
  intros submit.
  assert ([1; 0] ≡ₚ seq 0 (length ["A"; "A"])) as Hperm by apply perm_swap.
  assert (returns_own_name submit) as Hown by (by intros item supplier ticker [= <- _]).
  destruct (last_completed_wins ["A"; "A"] submit [1; 0] Hown Hperm)
    as (Hdom & _ & Horder).
  split.
  - rewrite Hdom. set_solver.
  - apply Horder. discriminate.
Defined.

Lemma tickers_are_accepted_symbols_witness :
  let search := λ (k : nat) (w : nat) (term : string),
    (S w, if w =? 1 then SearchReturns (Some [mkQuote (Some "2317.TW") None])
          else SearchRaises) in
  ∃ k earlier term,
    ["Hon Hai Precision Industry"] !! k = Some "Hon Hai Precision Industry"
    ∧ queried (run_task search (λ _, 0) (k, "Hon Hai Precision Industry"))
      = earlier ++ [term]
    ∧ accepted (search k (world_after (search k) 0 earlier) term).2 "2317.TW".
Proof.
  intros search.
  assert ([0] ≡ₚ seq 0 (length ["Hon Hai Precision Industry"])) as Hperm by reflexivity.
  assert (find_tickers ["Hon Hai Precision Industry"] (run_task search (λ _, 0)) [0]
            !! "Hon Hai Precision Industry" = Some (Some "2317.TW")) as Hentry
    by (vm_compute; reflexivity).
  exact (proj2 (tickers_are_accepted_symbols search (λ _, 0)
                  ["Hon Hai Precision Industry"] [0]
                  "Hon Hai Precision Industry" "2317.TW" Hperm Hentry)).
Defined.

End pool_witnesses.
